(** * Hand cricket: the gesture classifier and the round/match loop of [main.py]

    A shallow embedding of [get_hand_run] and of the body of the [while True]
    loop of [play_hand_cricket], followed by the properties of the round and
    match state machine.

    Modelling choices.
    - Python integers are [Z]; the landmark coordinates are binary64 floats,
      compared with the primitive [PrimFloat.ltb] (false on NaN, as in Python).
    - [None]-able variables ([player_move], [computer_move], [target]) are
      [option Z].
    - A Python exception inside the loop ([IndexError] on a short landmark list,
      [TypeError] on [int += None]) is caught by the handler around the loop and
      ends it: the loop body returns [Raised].
    - The inputs of one iteration are what the iteration reads from outside:
      the camera status, the detector's result, the random index drawn by
      [random.choice] and the value returned by [cv.waitKey].
    - The mixer is an external object; the commands sent to its two channels are
      recorded, newest first, in [mixer], next to [run_sound_playing] in the
      audio part of the state.
    - Rendering ([draw_game_ui], the celebration overlays with their five
      bookkeeping variables, the debug print) reads the game variables and
      never writes them; the game loop is modelled without it. The text
      [draw_game_ui] writes and the celebration variables are modelled on top
      of the game loop ([screen_text], [iteration]); pixels and the debug
      print are left out. *)

From Stdlib Require Import ZArith List Ascii String Bool Lia ZifyBool.
From Stdlib Require Import PrimFloat DecimalString.
Import ListNotations.

Local Open Scope string_scope.
Local Open Scope Z_scope.

(** ** Small Python idioms *)

(** [str(n)] for an integer. *)
Definition str_int (n : Z) : string := NilZero.string_of_int (Z.to_int n).

(** [str(m)] for a move that may still be [None]. *)
Definition str_move (m : option Z) : string :=
  match m with
  | Some n => str_int n
  | None => "None"
  end.

(** [a == b] on values that are an integer or [None]. *)
Definition move_eqb (a b : option Z) : bool :=
  match a, b with
  | Some p, Some q => p =? q
  | None, None => true
  | _, _ => false
  end.

(** Sequencing of computations that may raise. *)
Definition bind {A B : Type} (m : option A) (k : A -> option B) : option B :=
  match m with
  | Some a => k a
  | None => None
  end.

Notation "x <- m ;; k" := (bind m (fun x => k))
  (at level 61, m at next level, right associativity).

(** Python's short-circuit [and] over comparisons that may raise: the right
    operand is evaluated only when the left one is true. *)
Definition and_then (a b : option bool) : option bool :=
  match a with
  | Some true => b
  | other => other
  end.

Infix "&&&" := and_then (at level 40, left associativity).

(** ** The gesture classifier, [get_hand_run] *)

Module Landmark.
Record t : Type := mk { x : float; y : float; z : float }.
End Landmark.

Definition tip_ids : list nat := [4; 8; 12; 16; 20]%nat.
Definition pip_ids : list nat := [3; 6; 10; 14; 18]%nat.

(** [lm[ids[i]].y]; [i] always indexes the five-element constant lists in
    range, the access to [lm] raises [IndexError] past its end. *)
Definition y_at (lm : list Landmark.t) (ids : list nat) (i : nat) : option float :=
  l <- nth_error lm (nth i ids 0%nat) ;; Some (Landmark.y l).

(** [lm[a[i]].y < lm[b[j]].y] *)
Definition y_lt (lm : list Landmark.t) (a : list nat) (i : nat)
    (b : list nat) (j : nat) : option bool :=
  ya <- y_at lm a i ;; yb <- y_at lm b j ;; Some (PrimFloat.ltb ya yb).

(** The [for i in range(1, 5)] loop, appending to [fingers]. *)
Fixpoint other_fingers (lm : list Landmark.t) (range : list nat) (fingers : list Z)
    : option (list Z) :=
  match range with
  | [] => Some fingers
  | i :: rest =>
      up <- y_lt lm tip_ids i pip_ids i ;;
      other_fingers lm rest (fingers ++ [if up then 1 else 0])%list
  end.

(** Python's [sum]. *)
Definition sum (l : list Z) : Z := fold_left Z.add l 0.

Definition get_hand_run (hand_landmarks : list Landmark.t) (handedness : string)
    : option Z :=
  let lm := hand_landmarks in
  let is_right_hand := (handedness =? "Right")%string in
  let fingers : list Z := [] in
  thumb <- y_lt lm tip_ids 0 pip_ids 0
           &&& y_lt lm tip_ids 0 tip_ids 1
           &&& y_lt lm tip_ids 0 tip_ids 2
           &&& y_lt lm tip_ids 0 tip_ids 3 ;;
  let fingers := (fingers ++ [if thumb then 6 else 0])%list in
  fingers <- other_fingers lm (seq 1 4) fingers ;;
  let finger_count := sum fingers in
  Some (Z.max 1 (Z.min 6 finger_count)).

(** *** The classifier as the specification words it

    The vertical coordinate of landmark [i] of a 21-landmark pose, the two
    extension tests, and the weighted sum [S]. *)

Definition origin : Landmark.t := Landmark.mk 0 0 0.

Definition vertical (lm : list Landmark.t) (i : nat) : float :=
  Landmark.y (nth i lm origin).

Definition thumb_extended (lm : list Landmark.t) : bool :=
  PrimFloat.ltb (vertical lm 4) (vertical lm 3)
  && PrimFloat.ltb (vertical lm 4) (vertical lm 8)
  && PrimFloat.ltb (vertical lm 4) (vertical lm 12)
  && PrimFloat.ltb (vertical lm 4) (vertical lm 16).

Definition finger_extended (lm : list Landmark.t) (tip joint : nat) : bool :=
  PrimFloat.ltb (vertical lm tip) (vertical lm joint).

Definition weight (b : bool) (w : Z) : Z := if b then w else 0.

Definition raw_sum (lm : list Landmark.t) : Z :=
  weight (thumb_extended lm) 6
  + weight (finger_extended lm 8 6) 1
  + weight (finger_extended lm 12 10) 1
  + weight (finger_extended lm 16 14) 1
  + weight (finger_extended lm 20 18) 1.

(** ** The world around the loop *)

(** What [hand_landmarker.detect] returns: the poses found (at most one, the
    landmarker is created with [num_hands=1]) and, per pose, its handedness
    categories. *)
Record Category : Type := { category_name : string }.

Record HandLandmarkerResult : Type := {
  hand_landmarks : list (list Landmark.t);
  handedness : list (list Category)
}.

(** What one iteration reads from outside. *)
Record Input : Type := {
  ret : bool;                              (* vid.read() succeeded *)
  detection_result : HandLandmarkerResult; (* hand_landmarker.detect(mp_image) *)
  randbelow : nat;                         (* the index random.choice draws *)
  wait_key : Z                             (* cv.waitKey(1) *)
}.

(** [random.choice(seq)] is [seq[randbelow(len(seq))]]. *)
Definition random_choice (seq : list Z) (r : nat) : Z :=
  nth (r mod List.length seq) seq 0.

(** [ord(c)] and the key of an iteration, [cv.waitKey(1) & 0xFF]. *)
Definition ord (c : Ascii.ascii) : Z := Z.of_N (Ascii.N_of_ascii c).

Definition key (i : Input) : Z := Z.land (wait_key i) 255.

(** Commands sent to the mixer: channel 1 loops the run sound, channel 2
    plays the event sounds. *)
Inductive AudioCmd : Type :=
| RunPlay                      (* run_channel.play(sounds['run'], loops=-1) *)
| RunStop                      (* run_channel.stop() *)
| EventPlay (sound : string)   (* event_channel.play(sounds[sound]) *)
| EventStop.                   (* event_channel.stop() *)

(** What was loaded before the loop: which sounds are present (a missing or
    unreadable file leaves [None]), and whether the two channels exist. *)
Record Env : Type := {
  sounds : string -> bool;
  run_channel : bool;
  event_channel : bool
}.

(** ** The loop's variables *)

(** The audio variables: the flag [run_sound_playing] and the commands the
    mixer has received, newest first. *)
Record Audio : Type := {
  run_sound_playing : bool;
  mixer : list AudioCmd
}.

Definition set_playing (b : bool) (a : Audio) : Audio :=
  {| run_sound_playing := b; mixer := mixer a |}.

Definition send (c : AudioCmd) (a : Audio) : Audio :=
  {| run_sound_playing := run_sound_playing a; mixer := c :: mixer a |}.

(** The game variables, with the audio variables in [audio]. *)
Record State : Type := mkState {
  clock : Z;
  player_move : option Z;
  computer_move : option Z;
  gametext : string;
  success : bool;
  gameresult : string;
  player_score : Z;
  computer_score : Z;
  scored_this_round : bool;
  is_player_batting : bool;
  is_out : bool;
  innings : Z;
  round_num : Z;
  game_started : bool;
  target : option Z;
  game_over : bool;
  audio : Audio
}.

(** Assignment to one variable. *)
Definition set_clock (v : Z) (s : State) : State :=
  mkState v (player_move s) (computer_move s) (gametext s) (success s)
    (gameresult s) (player_score s) (computer_score s) (scored_this_round s)
    (is_player_batting s) (is_out s) (innings s) (round_num s)
    (game_started s) (target s) (game_over s) (audio s).

Definition set_player_move (v : option Z) (s : State) : State :=
  mkState (clock s) v (computer_move s) (gametext s) (success s)
    (gameresult s) (player_score s) (computer_score s) (scored_this_round s)
    (is_player_batting s) (is_out s) (innings s) (round_num s)
    (game_started s) (target s) (game_over s) (audio s).

Definition set_computer_move (v : option Z) (s : State) : State :=
  mkState (clock s) (player_move s) v (gametext s) (success s) (gameresult s)
    (player_score s) (computer_score s) (scored_this_round s)
    (is_player_batting s) (is_out s) (innings s) (round_num s)
    (game_started s) (target s) (game_over s) (audio s).

Definition set_gametext (v : string) (s : State) : State :=
  mkState (clock s) (player_move s) (computer_move s) v (success s)
    (gameresult s) (player_score s) (computer_score s) (scored_this_round s)
    (is_player_batting s) (is_out s) (innings s) (round_num s)
    (game_started s) (target s) (game_over s) (audio s).

Definition set_success (v : bool) (s : State) : State :=
  mkState (clock s) (player_move s) (computer_move s) (gametext s) v
    (gameresult s) (player_score s) (computer_score s) (scored_this_round s)
    (is_player_batting s) (is_out s) (innings s) (round_num s)
    (game_started s) (target s) (game_over s) (audio s).

Definition set_gameresult (v : string) (s : State) : State :=
  mkState (clock s) (player_move s) (computer_move s) (gametext s) (success s)
    v (player_score s) (computer_score s) (scored_this_round s)
    (is_player_batting s) (is_out s) (innings s) (round_num s)
    (game_started s) (target s) (game_over s) (audio s).

Definition set_player_score (v : Z) (s : State) : State :=
  mkState (clock s) (player_move s) (computer_move s) (gametext s) (success s)
    (gameresult s) v (computer_score s) (scored_this_round s)
    (is_player_batting s) (is_out s) (innings s) (round_num s)
    (game_started s) (target s) (game_over s) (audio s).

Definition set_computer_score (v : Z) (s : State) : State :=
  mkState (clock s) (player_move s) (computer_move s) (gametext s) (success s)
    (gameresult s) (player_score s) v (scored_this_round s)
    (is_player_batting s) (is_out s) (innings s) (round_num s)
    (game_started s) (target s) (game_over s) (audio s).

Definition set_scored_this_round (v : bool) (s : State) : State :=
  mkState (clock s) (player_move s) (computer_move s) (gametext s) (success s)
    (gameresult s) (player_score s) (computer_score s) v (is_player_batting s)
    (is_out s) (innings s) (round_num s) (game_started s) (target s)
    (game_over s) (audio s).

Definition set_is_player_batting (v : bool) (s : State) : State :=
  mkState (clock s) (player_move s) (computer_move s) (gametext s) (success s)
    (gameresult s) (player_score s) (computer_score s) (scored_this_round s) v
    (is_out s) (innings s) (round_num s) (game_started s) (target s)
    (game_over s) (audio s).

Definition set_is_out (v : bool) (s : State) : State :=
  mkState (clock s) (player_move s) (computer_move s) (gametext s) (success s)
    (gameresult s) (player_score s) (computer_score s) (scored_this_round s)
    (is_player_batting s) v (innings s) (round_num s) (game_started s)
    (target s) (game_over s) (audio s).

Definition set_innings (v : Z) (s : State) : State :=
  mkState (clock s) (player_move s) (computer_move s) (gametext s) (success s)
    (gameresult s) (player_score s) (computer_score s) (scored_this_round s)
    (is_player_batting s) (is_out s) v (round_num s) (game_started s)
    (target s) (game_over s) (audio s).

Definition set_round_num (v : Z) (s : State) : State :=
  mkState (clock s) (player_move s) (computer_move s) (gametext s) (success s)
    (gameresult s) (player_score s) (computer_score s) (scored_this_round s)
    (is_player_batting s) (is_out s) (innings s) v (game_started s) (target s)
    (game_over s) (audio s).

Definition set_game_started (v : bool) (s : State) : State :=
  mkState (clock s) (player_move s) (computer_move s) (gametext s) (success s)
    (gameresult s) (player_score s) (computer_score s) (scored_this_round s)
    (is_player_batting s) (is_out s) (innings s) (round_num s) v (target s)
    (game_over s) (audio s).

Definition set_target (v : option Z) (s : State) : State :=
  mkState (clock s) (player_move s) (computer_move s) (gametext s) (success s)
    (gameresult s) (player_score s) (computer_score s) (scored_this_round s)
    (is_player_batting s) (is_out s) (innings s) (round_num s)
    (game_started s) v (game_over s) (audio s).

Definition set_game_over (v : bool) (s : State) : State :=
  mkState (clock s) (player_move s) (computer_move s) (gametext s) (success s)
    (gameresult s) (player_score s) (computer_score s) (scored_this_round s)
    (is_player_batting s) (is_out s) (innings s) (round_num s)
    (game_started s) (target s) v (audio s).

Definition set_audio (v : Audio) (s : State) : State :=
  mkState (clock s) (player_move s) (computer_move s) (gametext s) (success s)
    (gameresult s) (player_score s) (computer_score s) (scored_this_round s)
    (is_player_batting s) (is_out s) (innings s) (round_num s)
    (game_started s) (target s) (game_over s) v.

(** The values assigned before the loop ("Game state variables"). *)
Definition initial_state : State := {|
  clock := 0;
  player_move := None;
  computer_move := None;
  gametext := "Press 'S' to Start the Game!";
  success := true;
  gameresult := "";
  player_score := 0;
  computer_score := 0;
  scored_this_round := false;
  is_player_batting := true;
  is_out := false;
  innings := 1;
  round_num := 0;
  game_started := false;
  target := None;
  game_over := false;
  audio := {| run_sound_playing := false; mixer := [] |}
|}.

(** How an iteration of [while True] ends. *)
Inductive Outcome : Type :=
| Continue (s : State)   (* falls through to the next iteration *)
| Break (s : State)      (* [break]: camera failure or the quit key *)
| Raised.                (* an exception reached the handler around the loop *)

(** ** One iteration of the loop *)

Section GameLoop.

Variable E : Env.

(** [run_channel.stop()] guarded by [run_sound_playing and run_channel]. *)
Definition stop_run_sound (s : State) : State :=
  let a := audio s in
  set_audio (if run_sound_playing a && run_channel E
             then set_playing false (send RunStop a)
             else a) s.

(** [event_channel.play(sounds[name])] guarded by
    [sounds.get(name) and event_channel]. *)
Definition play_event (name : string) (s : State) : State :=
  let a := audio s in
  set_audio (if sounds E name && event_channel E
             then send (EventPlay name) a
             else a) s.

(** "Game logic": the bookkeeping at clock 0. *)
Definition round_start (s : State) : State :=
  if (clock s =? 0) && game_started s
  then set_gameresult ""
         (set_scored_this_round false (set_round_num (round_num s + 1) s))
  else s.

(** "Sound management": only audio variables are assigned. *)
Definition sound_management (s : State) : State :=
  let a := audio s in
  set_audio
    (if game_started s && ((10 <=? clock s) && (clock s <=? 30))
        && negb (run_sound_playing a) && negb (game_over s)
     then set_playing true
            (if sounds E "run" && run_channel E then send RunPlay a else a)
     else if ((clock s <? 10) || (30 <? clock s) || game_over s)
             && run_sound_playing a
     then set_playing false (if run_channel E then send RunStop a else a)
     else a) s.

(** [clock == 15]: sample the gesture and the opponent's move. *)
Definition capture (s : State) (i : Input) : option State :=
  match hand_landmarks (detection_result i) with
  | hand :: _ =>
      name <- match handedness (detection_result i) with
              | (c :: _) :: _ => Some (category_name c)
              | _ => None
              end ;;
      move <- get_hand_run hand name ;;
      let s := set_player_move (Some move) s in
      Some (set_computer_move
              (Some (random_choice [1; 2; 3; 4; 6] (randbelow i))) s)
  | [] => Some (set_success false s)
  end.

(** [player_move == computer_move]: the batting side is out. *)
Definition dismissal (s : State) : State :=
  let s := set_gametext
             ("OUT! Both showed " ++ str_move (player_move s) ++ "!")%string s in
  let s := set_is_out true s in
  let s := set_game_over (innings s =? 2) s in
  let s := stop_run_sound s in
  play_event "out" s.

(** The moves differ: the batting side scores its own move. Adding [None]
    raises. *)
Definition score_runs (s : State) : option State :=
  let run := if is_player_batting s then player_move s else computer_move s in
  if is_player_batting s then
    r <- run ;;
    let s := set_player_score (player_score s + r) s in
    Some (set_gametext ("You scored " ++ str_int r ++ " run(s)!")%string s)
  else
    r <- run ;;
    let s := set_computer_score (computer_score s + r) s in
    let s := set_gametext
               ("Computer scored " ++ str_int r ++ " run(s)!")%string s in
    if (innings s =? 2) && (computer_score s >? player_score s) then
      let s := set_gametext
                 ("Computer Won! They chased the target of "
                  ++ str_int (player_score s + 1) ++ "!")%string s in
      let s := set_is_out true s in
      Some (set_game_over true s)
    else Some s.

(** [15 < clock < 25]: show the moves and apply the outcome once. *)
Definition resolve (s : State) : option State :=
  if success s then
    let s := set_gameresult
               ("You: " ++ str_move (player_move s) ++ "  |  Computer: "
                ++ str_move (computer_move s))%string s in
    if negb (scored_this_round s) then
      s <- (if move_eqb (player_move s) (computer_move s)
            then Some (dismissal s)
            else score_runs s) ;;
      Some (set_scored_this_round true s)
    else Some s
  else
    Some (set_gametext "Hand not detected! Please show your hand clearly." s).

(** [clock == 25]: the innings changes or the match is finalized. *)
Definition checkpoint (s : State) : State :=
  if is_out s then
    if innings s =? 1 then
      let s := set_target (Some (player_score s)) s in
      let s := set_is_player_batting false s in
      let s := set_is_out false s in
      let s := set_gametext
                 ("Innings Over! Computer needs "
                  ++ str_int (player_score s + 1) ++ " to win.")%string s in
      let s := set_innings (innings s + 1) s in
      set_game_over false s
    else
      let s := stop_run_sound s in
      let s := set_game_over true s in
      if player_score s >? computer_score s then
        play_event "win"
          (set_gametext "You Won the Game! Press 'N' to restart" s)
      else if computer_score s >? player_score s then
        play_event "lose"
          (set_gametext "You Lost the Game! Press 'N' to restart" s)
      else
        play_event "tie" (set_gametext "It's a Tie! Press 'N' to restart" s)
  else s.

(** [clock > 25]: the next round, unless the match is over. *)
Definition auto_advance (s : State) : State :=
  if negb (game_over s) then
    let s := set_clock (-1) s in
    let s := set_gametext "" s in
    let s := set_gameresult "" s in
    let s := set_player_move None s in
    let s := set_computer_move None s in
    set_success true s
  else s.

(** "Game state logic": the phase is chosen by the clock. *)
Definition game_state_logic (s : State) (i : Input) : option State :=
  if negb (game_started s) then
    Some (set_gametext "Press 'S' to Start the Game!" s)
  else if (0 <=? clock s) && (clock s <? 5) then
    Some (set_gametext "Get Ready..." (set_success true s))
  else if (5 <=? clock s) && (clock s <? 15) then
    let current_batter := if is_player_batting s then "You" else "Computer" in
    Some (set_gametext (current_batter ++ " batting - Show your hand!")%string s)
  else if clock s =? 15 then capture s i
  else if (15 <? clock s) && (clock s <? 25) then resolve s
  else if clock s =? 25 then Some (checkpoint s)
  else if clock s >? 25 then Some (auto_advance s)
  else Some s.

(** Everything an iteration does to the game before it reads the keyboard. *)
Definition tick (s : State) (i : Input) : option State :=
  game_state_logic (sound_management (round_start s)) i.

(** The [s] key. *)
Definition start_game (s : State) : State :=
  let s := set_game_started true s in
  let s := set_clock 0 s in
  set_gametext "" s.

(** The [n] key: "Reset everything" and stop all sounds. *)
Definition restart_game (s : State) : State :=
  let s := set_player_score 0 s in
  let s := set_computer_score 0 s in
  let s := set_is_player_batting true s in
  let s := set_innings 1 s in
  let s := set_round_num 0 s in
  let s := set_clock 0 s in
  let s := set_gametext "" s in
  let s := set_gameresult "" s in
  let s := set_player_move None s in
  let s := set_computer_move None s in
  let s := set_is_out false s in
  let s := set_success true s in
  let s := set_scored_this_round false s in
  let s := set_game_started false s in
  let s := set_target None s in
  let s := set_game_over false s in
  let a := audio s in
  let a := if run_channel E then send RunStop a else a in
  let a := if event_channel E then send EventStop a else a in
  set_audio (set_playing false a) s.

(** The keys other than [q]. *)
Definition handle_key (k : Z) (s : State) : State :=
  if (k =? ord "s"%char) && negb (game_started s) then start_game s
  else if (k =? ord "n"%char) && game_over s then restart_game s
  else s.

(** "Clock increment". *)
Definition clock_increment (s : State) : State :=
  if game_started s && negb (game_over s) then set_clock (clock s + 1) s
  else if game_started s && game_over s && (clock s <=? 50)
  then set_clock (clock s + 1) s
  else s.

(** The body of [while True]. *)
Definition loop_body (s : State) (i : Input) : Outcome :=
  if negb (ret i) then Break s
  else
    match tick s i with
    | None => Raised
    | Some s =>
        if key i =? ord "q"%char then Break s
        else Continue (clock_increment (handle_key (key i) s))
    end.

(** The loop over the frames the camera delivers. *)
Fixpoint run (s : State) (frames : list Input) : Outcome :=
  match frames with
  | [] => Continue s
  | i :: rest =>
      match loop_body s i with
      | Continue s' => run s' rest
      | stopped => stopped
      end
  end.

(** The states at the top of an iteration of some execution. *)
Inductive reachable : State -> Prop :=
| reachable_initial : reachable initial_state
| reachable_next (s s' : State) (i : Input) :
    reachable s -> loop_body s i = Continue s' -> reachable s'.

End GameLoop.

(** ** Runs, rounds and the vocabulary of the properties *)

Section Rounds.

Variable E : Env.

(** The guard of the clock-0 bookkeeping: the iteration opens a round. *)
Definition starts_round (s : State) : bool := (clock s =? 0) && game_started s.

(** The iteration raises [scored_this_round]: the flag is false when the
    iteration begins and true after its tick, which happens exactly when the
    outcome-application block runs. *)
Definition applies_outcome (s : State) (i : Input) : bool :=
  match tick E s i with
  | Some s1 => negb (scored_this_round s) && scored_this_round s1
  | None => false
  end.

(** The iteration takes the [n] branch of the key handling. *)
Definition restarts (s : State) (i : Input) : bool :=
  match tick E s i with
  | Some s1 =>
      ret i && negb (key i =? ord "q"%char)
      && negb ((key i =? ord "s"%char) && negb (game_started s1))
      && ((key i =? ord "n"%char) && game_over s1)
  | None => false
  end.

(** How many iterations of a run apply an outcome. *)
Fixpoint outcome_applications (s : State) (frames : list Input) : nat :=
  match frames with
  | [] => 0
  | i :: rest =>
      ((if applies_outcome s i then 1 else 0)
       + match loop_body E s i with
         | Continue s' => outcome_applications s' rest
         | _ => 0
         end)%nat
  end.

(** The iterations over [frames] neither open a round nor restart the
    match. *)
Fixpoint within_round (s : State) (frames : list Input) : bool :=
  match frames with
  | [] => true
  | i :: rest =>
      negb (starts_round s) && negb (restarts s i)
      && match loop_body E s i with
         | Continue s' => within_round s' rest
         | _ => true
         end
  end.

(** The iterations over [frames] belong to one round: the first may open it,
    the later ones stay within it. *)
Definition one_round (s : State) (frames : list Input) : bool :=
  match frames with
  | [] => true
  | i :: rest =>
      negb (restarts s i)
      && match loop_body E s i with
         | Continue s' => within_round s' rest
         | _ => true
         end
  end.

End Rounds.

(** The camera delivers the frame and the quit key is not pressed. *)
Definition alive (i : Input) : bool := ret i && negb (key i =? ord "q"%char).

(** Alive, and the restart key is not pressed either. *)
Definition undisturbed (i : Input) : bool :=
  alive i && negb (key i =? ord "n"%char).

(** No hand in the detector's result. *)
Definition no_hand (i : Input) : Prop := hand_landmarks (detection_result i) = [].

(** The guard of the finalize branch of the checkpoint. *)
Definition finalizes (s : State) : bool :=
  game_started s && (clock s =? 25) && is_out s && negb (innings s =? 1).

(** The three results a finished match announces. *)
Inductive Result : Type := Win | Loss | Tie.

Definition announced (s : State) : option Result :=
  if (gametext s =? "You Won the Game! Press 'N' to restart")%string
  then Some Win
  else if (gametext s =? "You Lost the Game! Press 'N' to restart")%string
  then Some Loss
  else if (gametext s =? "It's a Tie! Press 'N' to restart")%string
  then Some Tie
  else None.

Definition retry_message : string :=
  "Hand not detected! Please show your hand clearly.".

(** The part of the state that scoring, dismissal and the checkpoint decide. *)
Definition match_state (s : State)
    : Z * Z * Z * bool * option Z * bool * bool :=
  (player_score s, computer_score s, innings s, is_player_batting s,
   target s, is_out s, game_over s).

(** The part that belongs to the round in progress. *)
Definition round_state (s : State)
    : bool * Z * bool * bool * option Z * option Z :=
  (game_started s, round_num s, scored_this_round s, success s,
   player_move s, computer_move s).

(** [m is None] *)
Definition is_none {A : Type} (m : option A) : bool :=
  match m with
  | None => true
  | Some _ => false
  end.

(** Both moves were captured: a classified gesture and a drawn value. *)
Definition captured_moves (s : State) : bool :=
  match player_move s, computer_move s with
  | Some p, Some c =>
      (1 <=? p) && (p <=? 6) && existsb (Z.eqb c) [1; 2; 3; 4; 6]
  | _, _ => false
  end.

(** What holds at the top of every iteration. *)
Record invariant (s : State) : Prop := {
  inv_idle : game_started s = false -> clock s = 0;
  inv_early : clock s <= 16 -> game_over s = false /\ is_out s = false;
  inv_pending : is_out s = true -> game_over s = false -> clock s <= 25;
  inv_innings : innings s = 1 \/ innings s = 2;
  inv_target : is_none (target s) = negb (innings s =? 2);
  inv_batting : is_player_batting s = (innings s =? 1);
  inv_fresh : clock s <= 15 ->
              is_none (player_move s) = true
              /\ is_none (computer_move s) = true
              /\ success s = true;
  inv_moves : 16 <= clock s -> success s = true -> captured_moves s = true
}.

(** What holds between the tick and the key handling of an iteration. *)
Record settled (s : State) : Prop := {
  mid_idle : game_started s = false -> clock s = 0;
  mid_early : clock s <= 15 -> game_over s = false /\ is_out s = false;
  mid_pending : is_out s = true -> game_over s = false -> clock s <= 24;
  mid_innings : innings s = 1 \/ innings s = 2;
  mid_target : is_none (target s) = negb (innings s =? 2);
  mid_batting : is_player_batting s = (innings s =? 1);
  mid_fresh : clock s <= 14 ->
              is_none (player_move s) = true
              /\ is_none (computer_move s) = true
              /\ success s = true;
  mid_moves : 15 <= clock s -> success s = true -> captured_moves s = true
}.

(** ** Concrete frames and matches *)

(** A 21-landmark pose: every landmark at height 0.5, the thumb tip at 0.125
    when [thumb], and the first [fingers] of the four other fingertips at
    0.25. *)
Definition pose (thumb : bool) (fingers : nat) : list Landmark.t :=
  map (fun i : nat =>
         Landmark.mk 0.5
           (if Nat.eqb i 4 then (if thumb then 0.125 else 0.5)
            else if existsb (Nat.eqb i) (firstn fingers [8; 12; 16; 20]%nat)
                 then 0.25 else 0.5)%float
           0)
      (seq 0 21).

Definition nobody : HandLandmarkerResult :=
  {| hand_landmarks := []; handedness := [] |}.

Definition shows (thumb : bool) (fingers : nat) : HandLandmarkerResult :=
  {| hand_landmarks := [pose thumb fingers];
     handedness := [[ {| category_name := "Right" |} ]] |}.

Definition frame (d : HandLandmarkerResult) (r : nat) (k : Z) : Input :=
  {| ret := true; detection_result := d; randbelow := r; wait_key := k |}.

(** Frames with no hand and no key ([cv.waitKey] returns -1). *)
Definition quiet_frame : Input := frame nobody 0 (-1).

Definition idle (n : nat) : list Input := repeat quiet_frame n.

(** Every sound loaded, both channels present. *)
Definition studio : Env :=
  {| sounds := fun _ => true; run_channel := true; event_channel := true |}.

(** The [s] key on the first frame, then the frames up to and including the
    capture of the first round (which starts at clock 1). *)
Definition opening (d : HandLandmarkerResult) (r : nat) : list Input :=
  (frame nobody 0 (ord "s"%char) :: idle 14 ++ [frame d r (-1)])%list.

(** The rest of a round after its capture, and a whole later round. *)
Definition rest_of_round : list Input := idle 11.

Definition later_round (d : HandLandmarkerResult) (r : nat) : list Input :=
  (idle 15 ++ [frame d r (-1)] ++ rest_of_round)%list.

(** The state a run from the initial state reaches. *)
Definition state_after (frames : list Input) : State :=
  match run studio initial_state frames with
  | Continue s => s
  | _ => initial_state
  end.

(** The first innings of a match, up to the capture that ends it: the player
    makes 6 (against a 2) and 2 (against a 1), then shows 1 against a 1. *)
Definition first_innings : list Input :=
  (opening (shows true 0) 1 ++ rest_of_round
   ++ later_round (shows false 2) 0
   ++ idle 15 ++ [frame (shows false 0) 0 (-1)])%list.

(** The match of the specification's scenario B, up to the capture that
    decides it: the computer, chasing 8, makes 3 and then draws 6 against
    a 2. *)
Definition chase : list Input :=
  (first_innings ++ rest_of_round
   ++ later_round (shows false 1) 2
   ++ idle 15 ++ [frame (shows false 2) 4 (-1)])%list.

(** ** More vocabulary: the ledger of a match *)

(** [target] holds the player's score. *)
Definition target_is_score (s : State) : bool :=
  match target s with
  | Some t => t =? player_score s
  | None => false
  end.

(** A move, when there is one, is a value the classifier can return. *)
Definition gesture_value (m : option Z) : bool :=
  match m with
  | Some p => existsb (Z.eqb p) [1; 2; 3; 4; 6]
  | None => true
  end.

(** What else holds at the top of every iteration: the range of the clock,
    what [game_over] means, and how the scores, the target and the moves
    stand. *)
Record ledger (s : State) : Prop := {
  led_clock : 0 <= clock s <= 51;
  led_playing : game_over s = false -> clock s <= 26;
  led_over : game_over s = true ->
             is_out s = true /\ innings s = 2
             /\ scored_this_round s = true /\ 17 <= clock s;
  led_out : is_out s = true -> innings s = 2 -> game_over s = true;
  led_scores : 0 <= player_score s /\ 0 <= computer_score s;
  led_first : innings s = 1 -> computer_score s = 0;
  led_target : innings s = 2 -> target_is_score s = true;
  led_chase : innings s = 2 -> game_over s = false ->
              computer_score s <= player_score s;
  led_player_move : gesture_value (player_move s) = true;
  led_computer_move : gesture_value (computer_move s) = true;
  led_both : is_none (player_move s) = is_none (computer_move s)
}.

(** The same between the tick and the key handling of an iteration, where the
    clock has not moved on yet (and is -1 after an auto-advance). *)
Record ledger_mid (s : State) : Prop := {
  lmid_clock : -1 <= clock s <= 51;
  lmid_playing : game_over s = false -> clock s <= 25;
  lmid_over : game_over s = true ->
              is_out s = true /\ innings s = 2
              /\ scored_this_round s = true /\ 16 <= clock s;
  lmid_out : is_out s = true -> innings s = 2 -> game_over s = true;
  lmid_scores : 0 <= player_score s /\ 0 <= computer_score s;
  lmid_first : innings s = 1 -> computer_score s = 0;
  lmid_target : innings s = 2 -> target_is_score s = true;
  lmid_chase : innings s = 2 -> game_over s = false ->
               computer_score s <= player_score s;
  lmid_player_move : gesture_value (player_move s) = true;
  lmid_computer_move : gesture_value (computer_move s) = true;
  lmid_both : is_none (player_move s) = is_none (computer_move s)
}.

(** A detector result the capture cannot process: a pose is reported, but
    without handedness category or with fewer than 21 landmarks. *)
Definition malformed (d : HandLandmarkerResult) : bool :=
  match hand_landmarks d with
  | hand :: _ =>
      match handedness d with
      | (_ :: _) :: _ => (List.length hand <? 21)%nat
      | _ => true
      end
  | [] => false
  end.

(** A frame the loop runs through whatever the state: the camera works,
    neither [q] nor [n] is pressed and the detector's result is usable. *)
Definition playable (i : Input) : bool :=
  undisturbed i && negb (malformed (detection_result i)).

(** The same frame with another key. *)
Definition with_key (k : Z) (i : Input) : Input :=
  {| ret := ret i; detection_result := detection_result i;
     randbelow := randbelow i; wait_key := k |}.

(** What the clock of a started match becomes over an iteration without
    restart. *)
Definition next_clock (s : State) : Z :=
  if (clock s =? 26) && negb (game_over s) then 0
  else if clock s =? 51 then 51
  else clock s + 1.

(** ** The sound that may be played *)

(** A command the mixer can carry out: its channel exists and, to play, the
    sound was loaded. *)
Definition permitted (E : Env) (c : AudioCmd) : bool :=
  match c with
  | RunPlay => sounds E "run" && run_channel E
  | RunStop => run_channel E
  | EventPlay name => sounds E name && event_channel E
  | EventStop => event_channel E
  end.

Definition permitted_log (E : Env) (a : Audio) : bool :=
  forallb (permitted E) (mixer a).

(** ** The text [draw_game_ui] writes

    The calls to [cv.putText] of [draw_game_ui], in order, each with its text
    and the place it is written at. The three places computed from
    [cv.getTextSize] (the centred title, the right-aligned round line, the
    centred instruction) are named rather than computed; rectangles, colours
    and font scales are left out. *)
Inductive Place : Type :=
| At (x y : Z)          (* a fixed origin *)
| TitleShadow           (* (title_x + 4, 124) *)
| Title                 (* (title_x, 120) *)
| RoundLine             (* (round_innings_x, 200) *)
| InstructionBar.       (* (text_x, bar_y + 60) *)

Definition restart_prompt : string :=
  "Press 'N' to Restart Game | Press 'Q' to Quit".

Definition draw_game_ui (clock : Z) (gameresult gametext : string)
    (player_score computer_score round_num innings : Z) (is_out : bool)
    (target : option Z) : list (Place * string) :=
  let title_text := "HAND CRICKET" in
  let head :=
    [(TitleShadow, title_text); (Title, title_text);
     (At 50 200, "Clock: " ++ str_int clock)%string] in
  let body :=
    match innings =? 2, target with
    | true, Some t =>
        let target_text := ("Target: " ++ str_int (t + 1))%string in
        [(At 50 250, target_text); (At 50 300, gameresult);
         (At 50 350, gametext)]
    | _, _ => [(At 50 250, gameresult); (At 50 300, gametext)]
    end in
  let score_text :=
    ("You: " ++ str_int player_score ++ " | Computer: "
     ++ str_int computer_score)%string in
  let score_y :=
    match innings =? 2, target with
    | true, Some _ => 400
    | _, _ => 350
    end in
  let round_innings_text :=
    ("Round: " ++ str_int round_num ++ " | Innings: "
     ++ str_int innings)%string in
  let instruction_text :=
    if (innings =? 2) && is_out then restart_prompt
    else "Auto Next Round | Press 'Q' to Quit" in
  (head ++ body
   ++ [(At 50 score_y, score_text); (RoundLine, round_innings_text);
       (InstructionBar, instruction_text)])%list.

(** The call in the loop, after the tick and before the keys are read. *)
Definition screen_text (s : State) : list (Place * string) :=
  draw_game_ui (clock s) (gameresult s) (gametext s) (player_score s)
    (computer_score s) (round_num s) (innings s) (is_out s) (target s).

(** ** The celebration animations

    The five celebration variables of the loop, the animation triggers and
    the two celebration blocks at the top of an iteration. The camera frame
    is modelled by what is laid over it: the decoded GIF frames blended in by
    [apply_gif_overlay], in order, and then the text of [draw_game_ui]. *)

(** [needle in text] on strings. *)
Fixpoint contains (needle text : string) : bool :=
  String.prefix needle text
  || match text with
     | EmptyString => false
     | String _ rest => contains needle rest
     end.

(** [l[k]]: an index below zero counts from the end; [None] stands for
    [IndexError]. *)
Definition item {A : Type} (l : list A) (k : Z) : option A :=
  let n := Z.of_nat (List.length l) in
  if (0 <=? k) && (k <? n) then nth_error l (Z.to_nat k)
  else if (- n <=? k) && (k <? 0) then nth_error l (Z.to_nat (n + k))
  else None.

(** The truth value of a list. *)
Definition truthy {A : Type} (l : list A) : bool :=
  match l with
  | [] => false
  | _ :: _ => true
  end.

Record Celebration : Type := {
  celebration_frame_idx : Z;
  celebrating_win : bool;
  celebrating_lose : bool;
  gif_played_win : bool;
  gif_played_lose : bool
}.

Definition set_celebration_frame_idx (v : Z) (c : Celebration) : Celebration :=
  {| celebration_frame_idx := v;
     celebrating_win := celebrating_win c;
     celebrating_lose := celebrating_lose c;
     gif_played_win := gif_played_win c;
     gif_played_lose := gif_played_lose c |}.

Definition set_celebrating_win (v : bool) (c : Celebration) : Celebration :=
  {| celebration_frame_idx := celebration_frame_idx c;
     celebrating_win := v;
     celebrating_lose := celebrating_lose c;
     gif_played_win := gif_played_win c;
     gif_played_lose := gif_played_lose c |}.

Definition set_celebrating_lose (v : bool) (c : Celebration) : Celebration :=
  {| celebration_frame_idx := celebration_frame_idx c;
     celebrating_win := celebrating_win c;
     celebrating_lose := v;
     gif_played_win := gif_played_win c;
     gif_played_lose := gif_played_lose c |}.

Definition set_gif_played_win (v : bool) (c : Celebration) : Celebration :=
  {| celebration_frame_idx := celebration_frame_idx c;
     celebrating_win := celebrating_win c;
     celebrating_lose := celebrating_lose c;
     gif_played_win := v;
     gif_played_lose := gif_played_lose c |}.

Definition set_gif_played_lose (v : bool) (c : Celebration) : Celebration :=
  {| celebration_frame_idx := celebration_frame_idx c;
     celebrating_win := celebrating_win c;
     celebrating_lose := celebrating_lose c;
     gif_played_win := gif_played_win c;
     gif_played_lose := v |}.

(** The values assigned before the loop. *)
Definition initial_celebration : Celebration := {|
  celebration_frame_idx := 0;
  celebrating_win := false;
  celebrating_lose := false;
  gif_played_win := false;
  gif_played_lose := false
|}.

(** What [cv.imshow] is given: the GIF frames laid over the camera frame and
    the text written on top. *)
Record Picture (Gif : Type) : Type := {
  overlays : list Gif;
  texts : list (Place * string)
}.

Arguments overlays {Gif} _.
Arguments texts {Gif} _.

Section Celebration.

(** A decoded frame of an animation. *)
Variable Gif : Type.

(** The dictionary returned by [load_animations]: the frames of each
    animation, none for one that could not be loaded. *)
Variable animations : string -> list Gif.

Variable E : Env.

(** The animation triggers, first thing after the frame is resized. *)
Definition animation_triggers (gametext : string) (c : Celebration)
    : Celebration :=
  if contains "You Won the Game!" gametext
     && negb (celebrating_win c) && negb (gif_played_win c)
  then set_celebration_frame_idx 0 (set_celebrating_win true c)
  else if contains "You Lost the Game!" gametext
          && negb (celebrating_lose c) && negb (gif_played_lose c)
  then set_celebration_frame_idx 0 (set_celebrating_lose true c)
  else c.

(** "WINNING CELEBRATION": [frame] is what has been laid over the camera
    frame so far. *)
Definition winning_celebration (c : Celebration) (frame : list Gif)
    : option (Celebration * list Gif) :=
  if celebrating_win c && negb (gif_played_win c)
     && truthy (animations "victory")
  then
    if celebration_frame_idx c
       <? Z.of_nat (List.length (animations "victory"))
    then
      g <- item (animations "victory") (celebration_frame_idx c) ;;
      Some (set_celebration_frame_idx (celebration_frame_idx c + 1) c,
            (frame ++ [g])%list)
    else Some (set_celebrating_win false (set_gif_played_win true c), frame)
  else Some (c, frame).

(** "LOSING CELEBRATION". *)
Definition losing_celebration (c : Celebration) (frame : list Gif)
    : option (Celebration * list Gif) :=
  if celebrating_lose c && negb (gif_played_lose c)
     && truthy (animations "game_over")
  then
    if celebration_frame_idx c
       <? Z.of_nat (List.length (animations "game_over"))
    then
      g <- item (animations "game_over") (celebration_frame_idx c) ;;
      Some (set_celebration_frame_idx (celebration_frame_idx c + 1) c,
            (frame ++ [g])%list)
    else Some (set_celebrating_lose false (set_gif_played_lose true c), frame)
  else Some (c, frame).

(** The top of an iteration, before the game logic: the triggers read the
    text the previous iteration left. *)
Definition celebrate (gametext : string) (c : Celebration)
    : option (Celebration * list Gif) :=
  r <- winning_celebration (animation_triggers gametext c) [] ;;
  losing_celebration (fst r) (snd r).

(** "Reset animation flags", in the restart. *)
Definition reset_animation_flags (c : Celebration) : Celebration :=
  let c := set_gif_played_win false c in
  let c := set_gif_played_lose false c in
  let c := set_celebrating_win false c in
  let c := set_celebrating_lose false c in
  set_celebration_frame_idx 0 c.

(** What the keys do to the celebration variables: [s] is the state the key
    handling starts in. *)
Definition celebration_after_key (k : Z) (s : State) (c : Celebration)
    : Celebration :=
  if (k =? ord "s"%char) && negb (game_started s) then c
  else if (k =? ord "n"%char) && game_over s then reset_animation_flags c
  else c.

(** The body of [while True] with what it shows: the outcome for the game
    variables, the celebration variables, and the picture when [cv.imshow]
    is reached. *)
Definition iteration (s : State) (c : Celebration) (i : Input)
    : Outcome * Celebration * option (Picture Gif) :=
  if negb (ret i) then (Break s, c, None)
  else
    match celebrate (gametext s) c with
    | None => (Raised, c, None)
    | Some (c, frame) =>
        match tick E s i with
        | None => (Raised, c, None)
        | Some s =>
            let shown := {| overlays := frame; texts := screen_text s |} in
            if key i =? ord "q"%char then (Break s, c, Some shown)
            else (Continue (clock_increment (handle_key E (key i) s)),
                  celebration_after_key (key i) s c, Some shown)
        end
    end.

(** The pictures shown over the frames the camera delivers. *)
Fixpoint play (s : State) (c : Celebration) (frames : list Input)
    : list (Picture Gif) :=
  match frames with
  | [] => []
  | i :: rest =>
      match iteration s c i with
      | (Continue s', c', Some shown) => shown :: play s' c' rest
      | (_, _, Some shown) => [shown]
      | (_, _, None) => []
      end
  end.
(** The loop over the frames the camera delivers, with the celebration
    variables. *)
Fixpoint run_screen (s : State) (c : Celebration) (frames : list Input)
    : Outcome * Celebration :=
  match frames with
  | [] => (Continue s, c)
  | i :: rest =>
      match iteration s c i with
      | (Continue s', c', _) => run_screen s' c' rest
      | (stopped, c', _) => (stopped, c')
      end
  end.

(** The game and celebration variables at the top of an iteration of some
    execution. *)
Inductive reachable_screen : State -> Celebration -> Prop :=
| reachable_screen_initial : reachable_screen initial_state initial_celebration
| reachable_screen_next (s s' : State) (c c' : Celebration) (i : Input)
    (shown : option (Picture Gif)) :
    reachable_screen s c -> iteration s c i = (Continue s', c', shown) ->
    reachable_screen s' c'.

(** The animation that belongs to a result. *)
Definition animation_of (r : Result) : list Gif :=
  match r with
  | Win => animations "victory"
  | Loss => animations "game_over"
  | Tie => []
  end.

(** The celebration variables while the animation of result [r] is at frame
    [j], and once it has been played. *)
Definition running (r : Result) (j : nat) : Celebration := {|
  celebration_frame_idx := Z.of_nat j;
  celebrating_win := match r with Win => true | _ => false end;
  celebrating_lose := match r with Loss => true | _ => false end;
  gif_played_win := false;
  gif_played_lose := false
|}.

Definition finished (r : Result) : Celebration := {|
  celebration_frame_idx := Z.of_nat (List.length (animation_of r));
  celebrating_win := false;
  celebrating_lose := false;
  gif_played_win := match r with Win => true | _ => false end;
  gif_played_lose := match r with Loss => true | _ => false end
|}.

(** How far the celebration of result [r] has got: waiting for the trigger,
    about to show frame [j], or done. *)
Inductive stage (r : Result) : Celebration -> nat -> Prop :=
| stage_waiting : stage r initial_celebration 0
| stage_running (j : nat) :
    r <> Tie -> (j <= List.length (animation_of r))%nat ->
    stage r (running r j) j
| stage_finished :
    r <> Tie -> stage r (finished r) (List.length (animation_of r)).

End Celebration.

Arguments animation_of {Gif} _ _.
Arguments finished {Gif} _ _.
Arguments stage {Gif} _ _ _ _.

(** The result of a match, by the scores. *)
Definition result_of (s : State) : Result :=
  if player_score s >? computer_score s then Win
  else if computer_score s >? player_score s then Loss
  else Tie.

(** The text a finished match announces. *)
Definition result_text (r : Result) : string :=
  match r with
  | Win => "You Won the Game! Press 'N' to restart"
  | Loss => "You Lost the Game! Press 'N' to restart"
  | Tie => "It's a Tie! Press 'N' to restart"
  end.

Definition final_text (s : State) : string := result_text (result_of s).

(** A text that triggers no animation. *)
Definition quiet (text : string) : bool :=
  negb (contains "You Won the Game!" text)
  && negb (contains "You Lost the Game!" text).

(** The announcement stands from the iteration after the finalization on;
    until then no text triggers an animation. *)
Definition text_settled (s : State) : Prop :=
  if game_over s && (26 <=? clock s) then gametext s = final_text s
  else quiet (gametext s) = true.

(** The same between the tick and the key handling. *)
Definition text_mid (s : State) : Prop :=
  if game_over s && (25 <=? clock s) then gametext s = final_text s
  else quiet (gametext s) = true.

(** A string without the character [c]. *)
Fixpoint lacks (c : ascii) (text : string) : bool :=
  match text with
  | EmptyString => true
  | String a rest => negb (Ascii.eqb a c) && lacks c rest
  end.

(** The animation that belongs to the result of the match. *)
Definition final_animation {Gif : Type} (animations : string -> list Gif)
    (s : State) : list Gif :=
  animation_of animations (result_of s).

(** The celebration variables are untouched until the iteration that follows
    the finalization, and then follow the animation of the result. *)
Definition staged {Gif : Type} (animations : string -> list Gif)
    (s : State) (c : Celebration) : Prop :=
  if game_over s && (27 <=? clock s)
  then exists j, stage animations (result_of s) c j
  else c = initial_celebration.

(** ** More concrete matches *)

(** The match of scenario B after its finalization: lost 8 to 9. *)
Definition lost_match : list Input := (chase ++ idle 10)%list.

(** A match the player wins 8 to 0: the computer is out on the first ball of
    its innings, 1 against 1. *)
Definition won_match : list Input :=
  (first_innings ++ rest_of_round
   ++ idle 15 ++ [frame (shows false 0) 0 (-1)] ++ idle 10)%list.

(** A pose reported without handedness. *)
Definition headless : HandLandmarkerResult :=
  {| hand_landmarks := [pose true 0]; handedness := [] |}.

(** A victory animation of three frames and a game-over animation of two;
    the frames are numbered. *)
Definition reel (name : string) : list nat :=
  if (name =? "victory")%string then [0; 1; 2]%nat
  else if (name =? "game_over")%string then [10; 11]%nat
  else [].

(** The game and celebration variables a run from the initial values
    reaches. *)
Definition screen_after (frames : list Input) : State * Celebration :=
  match
    run_screen nat reel studio initial_state initial_celebration frames
  with
  | (Continue s, c) => (s, c)
  | _ => (initial_state, initial_celebration)
  end.

(** ** Properties of the classifier *)

Lemma nth_error_vertical (lm : list Landmark.t) (i : nat) :
  (i < List.length lm)%nat ->
  nth_error lm i = Some (nth i lm origin).
Proof.
  intros H. now apply nth_error_nth'.
Qed.

Lemma y_lt_in_range (lm : list Landmark.t) (a b : list nat) (i j : nat) :
  (nth i a 0 < List.length lm)%nat ->
  (nth j b 0 < List.length lm)%nat ->
  y_lt lm a i b j =
  Some (PrimFloat.ltb (vertical lm (nth i a 0%nat)) (vertical lm (nth j b 0%nat))).
Proof.
  intros Ha Hb. unfold y_lt, y_at, vertical.
  rewrite (nth_error_vertical lm _ Ha), (nth_error_vertical lm _ Hb).
  reflexivity.
Qed.

Lemma raw_sum_bounds (lm : list Landmark.t) : 0 <= raw_sum lm <= 10.
Proof.
  unfold raw_sum, weight.
  destruct (thumb_extended lm), (finger_extended lm 8 6),
    (finger_extended lm 12 10), (finger_extended lm 16 14),
    (finger_extended lm 20 18); lia.
Qed.

(** On 21 landmarks no access raises, and the list [fingers] sums to the
    specification's weighted sum. *)
Lemma get_hand_run_raw_sum (lm : list Landmark.t) (handedness : string) :
  List.length lm = 21%nat ->
  get_hand_run lm handedness = Some (Z.max 1 (Z.min 6 (raw_sum lm))).
Proof.
  intros Hlen. unfold get_hand_run.
  assert (R : forall a b i j, (nth i a 0 < 21)%nat -> (nth j b 0 < 21)%nat ->
            y_lt lm a i b j =
            Some (PrimFloat.ltb (vertical lm (nth i a 0%nat)) (vertical lm (nth j b 0%nat)))).
  { intros. apply y_lt_in_range; rewrite Hlen; assumption. }
  cbn [seq other_fingers].
  rewrite !R by (cbn; lia).
  unfold raw_sum, thumb_extended, finger_extended, weight. cbn [nth tip_ids pip_ids].
  destruct (PrimFloat.ltb (vertical lm 4) (vertical lm 3));
  destruct (PrimFloat.ltb (vertical lm 4) (vertical lm 8));
  destruct (PrimFloat.ltb (vertical lm 4) (vertical lm 12));
  destruct (PrimFloat.ltb (vertical lm 4) (vertical lm 16));
  destruct (PrimFloat.ltb (vertical lm 8) (vertical lm 6));
  destruct (PrimFloat.ltb (vertical lm 12) (vertical lm 10));
  destruct (PrimFloat.ltb (vertical lm 16) (vertical lm 14));
  destruct (PrimFloat.ltb (vertical lm 20) (vertical lm 18));
  reflexivity.
Qed.

(** C8. On every 21-landmark pose and for any handedness label the classifier
    returns [max(1, min(6, S))], where [S] adds 6 when the thumb tip is above
    landmarks 3, 8, 12 and 16 and 1 for each finger whose tip is above its
    lower joint; the result lies in [1, 6], a sum of 0 gives 1 and a sum above
    6 gives 6. *)
Theorem get_hand_run_clamped_sum (lm : list Landmark.t) (handedness : string) :
  List.length lm = 21%nat ->
  exists r,
    get_hand_run lm handedness = Some r
    /\ r = Z.max 1 (Z.min 6 (raw_sum lm))
    /\ 1 <= r <= 6
    /\ (raw_sum lm = 0 -> r = 1)
    /\ (6 < raw_sum lm -> r = 6).
Proof.
  intros Hlen. exists (Z.max 1 (Z.min 6 (raw_sum lm))).
  split; [now apply get_hand_run_raw_sum|].
  pose proof (raw_sum_bounds lm). repeat split; lia.
Qed.

(** C10. When the thumb test passes the classifier returns exactly 6, whatever
    the other four fingers do. *)
Theorem get_hand_run_thumb_six (lm : list Landmark.t) (handedness : string) :
  List.length lm = 21%nat ->
  thumb_extended lm = true ->
  get_hand_run lm handedness = Some 6.
Proof.
  intros Hlen Hthumb.
  rewrite (get_hand_run_raw_sum lm handedness Hlen).
  unfold raw_sum. rewrite Hthumb. unfold weight.
  destruct (finger_extended lm 8 6), (finger_extended lm 12 10),
    (finger_extended lm 16 14), (finger_extended lm 20 18); reflexivity.
Qed.

(** ** The phases of a tick *)

Section Phases.

Variable E : Env.

Lemma round_start_off (s : State) :
  starts_round s = false -> round_start s = s.
Proof.
  unfold starts_round, round_start. intros ->. reflexivity.
Qed.

Lemma round_start_on (s : State) :
  starts_round s = true ->
  round_start s =
  set_gameresult ""
    (set_scored_this_round false (set_round_num (round_num s + 1) s)).
Proof.
  unfold starts_round, round_start. intros ->. reflexivity.
Qed.

(** The bookkeeping and the sound management leave the clock and the start
    flag alone, so the phase can be read off the state the iteration begins
    in. *)
Lemma tick_idle (s : State) (i : Input) :
  game_started s = false ->
  tick E s i =
  Some (set_gametext "Press 'S' to Start the Game!" (sound_management E s)).
Proof.
  intros Hs. unfold tick. rewrite round_start_off.
  - unfold game_state_logic. cbn. rewrite Hs. reflexivity.
  - unfold starts_round. rewrite Hs. apply andb_false_r.
Qed.

Lemma tick_lead_in (s : State) (i : Input) :
  game_started s = true -> 0 <= clock s < 5 ->
  tick E s i =
  Some (set_gametext "Get Ready..."
          (set_success true (sound_management E (round_start s)))).
Proof.
  intros Hs Hc. unfold tick, game_state_logic.
  unfold round_start. destruct ((clock s =? 0) && game_started s); cbn;
    rewrite Hs; cbn;
    replace ((0 <=? clock s) && (clock s <? 5)) with true by lia;
    reflexivity.
Qed.

Lemma tick_later (s : State) (i : Input) :
  game_started s = true -> clock s <> 0 ->
  tick E s i = game_state_logic E (sound_management E s) i.
Proof.
  intros Hs Hc. unfold tick. rewrite round_start_off; [reflexivity|].
  unfold starts_round. lia.
Qed.

Lemma tick_awaiting (s : State) (i : Input) :
  game_started s = true -> 5 <= clock s < 15 ->
  tick E s i =
  Some (set_gametext
          ((if is_player_batting s then "You" else "Computer")
           ++ " batting - Show your hand!")%string
          (sound_management E s)).
Proof.
  intros Hs Hc. rewrite tick_later by lia.
  unfold game_state_logic. cbn. rewrite Hs. cbn.
  replace ((0 <=? clock s) && (clock s <? 5)) with false by lia.
  replace ((5 <=? clock s) && (clock s <? 15)) with true by lia.
  reflexivity.
Qed.

Lemma tick_capture (s : State) (i : Input) :
  game_started s = true -> clock s = 15 ->
  tick E s i = capture (sound_management E s) i.
Proof.
  intros Hs Hc. rewrite tick_later by lia.
  unfold game_state_logic. cbn. rewrite Hs, Hc. reflexivity.
Qed.

Lemma tick_resolve (s : State) (i : Input) :
  game_started s = true -> 15 < clock s < 25 ->
  tick E s i = resolve E (sound_management E s).
Proof.
  intros Hs Hc. rewrite tick_later by lia.
  unfold game_state_logic. cbn. rewrite Hs. cbn.
  replace ((0 <=? clock s) && (clock s <? 5)) with false by lia.
  replace ((5 <=? clock s) && (clock s <? 15)) with false by lia.
  replace (clock s =? 15) with false by lia.
  replace ((15 <? clock s) && (clock s <? 25)) with true by lia.
  reflexivity.
Qed.

Lemma tick_checkpoint (s : State) (i : Input) :
  game_started s = true -> clock s = 25 ->
  tick E s i = Some (checkpoint E (sound_management E s)).
Proof.
  intros Hs Hc. rewrite tick_later by lia.
  unfold game_state_logic. cbn. rewrite Hs, Hc. reflexivity.
Qed.

Lemma tick_auto_advance (s : State) (i : Input) :
  game_started s = true -> 25 < clock s ->
  tick E s i = Some (auto_advance (sound_management E s)).
Proof.
  intros Hs Hc. rewrite tick_later by lia.
  unfold game_state_logic. cbn. rewrite Hs. cbn.
  replace ((0 <=? clock s) && (clock s <? 5)) with false by lia.
  replace ((5 <=? clock s) && (clock s <? 15)) with false by lia.
  replace (clock s =? 15) with false by lia.
  replace ((15 <? clock s) && (clock s <? 25)) with false by lia.
  replace (clock s =? 25) with false by lia.
  replace (clock s >? 25) with true by lia.
  reflexivity.
Qed.

Lemma tick_before_zero (s : State) (i : Input) :
  game_started s = true -> clock s < 0 ->
  tick E s i = Some (sound_management E s).
Proof.
  intros Hs Hc. rewrite tick_later by lia.
  unfold game_state_logic. cbn. rewrite Hs. cbn.
  replace ((0 <=? clock s) && (clock s <? 5)) with false by lia.
  replace ((5 <=? clock s) && (clock s <? 15)) with false by lia.
  replace (clock s =? 15) with false by lia.
  replace ((15 <? clock s) && (clock s <? 25)) with false by lia.
  replace (clock s =? 25) with false by lia.
  replace (clock s >? 25) with false by lia.
  reflexivity.
Qed.

End Phases.

(** ** The end of an iteration: keys and clock *)

(** Reading a variable after assignments, without computing on strings. *)
Ltac fields :=
  cbn [clock player_move computer_move gametext success gameresult
       player_score computer_score scored_this_round is_player_batting
       is_out innings round_num game_started target game_over audio
       set_clock set_player_move set_computer_move set_gametext set_success
       set_gameresult set_player_score set_computer_score
       set_scored_this_round set_is_player_batting set_is_out set_innings
       set_round_num set_game_started set_target set_game_over set_audio
       negb andb orb is_none] in *.

(** Linear arithmetic on the clock alone: the boolean hypotheses and the case
    distinctions are set aside first. *)
Ltac arith :=
  repeat match goal with
  | H : _ \/ _ |- _ => clear H
  | H : @eq bool _ _ |- _ => clear H
  | H : _ -> _ |- _ => clear H
  end;
  lia.

Ltac phase_of s :=
  let P := fresh "P" in
  assert (P : clock s < 0 \/ 0 <= clock s < 5 \/ 5 <= clock s < 15
              \/ clock s = 15 \/ 15 < clock s < 25 \/ clock s = 25
              \/ 25 < clock s) by lia;
  destruct P as [P|[P|[P|[P|[P|[P|P]]]]]].

Section Iteration.

Variable E : Env.

Lemma loop_body_continue (s s' : State) (i : Input) :
  loop_body E s i = Continue s' ->
  exists s1,
    tick E s i = Some s1 /\ alive i = true
    /\ s' = clock_increment (handle_key E (key i) s1).
Proof.
  unfold loop_body, alive. intros H.
  destruct (ret i); [|discriminate].
  destruct (tick E s i) as [s1|]; [|discriminate].
  destruct (key i =? ord "q"%char); [discriminate|].
  exists s1. inversion H. auto.
Qed.

Lemma loop_body_alive (s s1 : State) (i : Input) :
  alive i = true -> tick E s i = Some s1 ->
  loop_body E s i = Continue (clock_increment (handle_key E (key i) s1)).
Proof.
  unfold loop_body, alive. intros Ha ->.
  apply andb_true_iff in Ha. destruct Ha as [-> Hq].
  apply negb_true_iff in Hq. rewrite Hq. reflexivity.
Qed.

(** While the match is on, no key but [q] does anything. *)
Lemma handle_key_playing (k : Z) (s : State) :
  game_started s = true -> game_over s = false -> handle_key E k s = s.
Proof.
  unfold handle_key. intros -> ->. now rewrite !andb_false_r.
Qed.

Lemma handle_key_no_restart (k : Z) (s : State) :
  game_started s = true -> (k =? ord "n"%char) = false ->
  handle_key E k s = s.
Proof.
  unfold handle_key. intros -> ->. now rewrite andb_false_r.
Qed.

Lemma clock_increment_playing (s : State) :
  game_started s = true -> game_over s = false ->
  clock_increment s = set_clock (clock s + 1) s.
Proof.
  unfold clock_increment. intros -> ->. reflexivity.
Qed.

Lemma clock_increment_over (s : State) :
  game_started s = true -> clock s <= 50 ->
  clock_increment s = set_clock (clock s + 1) s.
Proof.
  unfold clock_increment. intros -> Hc.
  destruct (game_over s); cbn [negb andb]; [|reflexivity].
  replace (clock s <=? 50) with true by lia. reflexivity.
Qed.

(** ** What each block assigns

    The audio variables and the display strings that no property reads are
    left unnamed. *)

Lemma sound_management_audio (s : State) :
  exists a, sound_management E s = set_audio a s.
Proof. eexists. reflexivity. Qed.

Lemma restart_game_audio (s : State) :
  exists a,
    restart_game E s
    = set_audio a
        (set_game_over false (set_target None (set_game_started false
          (set_scored_this_round false (set_success true (set_is_out false
            (set_computer_move None (set_player_move None
              (set_gameresult "" (set_gametext "" (set_clock 0
                (set_round_num 0 (set_innings 1 (set_is_player_batting true
                  (set_computer_score 0 (set_player_score 0 s)))))))))))))))).
Proof. eexists. reflexivity. Qed.

Lemma move_eqb_eq (a b : option Z) : move_eqb a b = true <-> a = b.
Proof.
  destruct a, b; cbn; split; intros H; try congruence; try discriminate.
  - f_equal. lia.
  - inversion H. lia.
Qed.

Lemma move_eqb_neq (a b : option Z) : move_eqb a b = false <-> a <> b.
Proof.
  rewrite <- move_eqb_eq. destruct (move_eqb a b); split; congruence.
Qed.

(** The dismissal block. *)
Lemma dismissal_assigns (s : State) :
  exists txt a,
    dismissal E s
    = set_audio a
        (set_game_over (innings s =? 2) (set_is_out true (set_gametext txt s))).
Proof. do 2 eexists. reflexivity. Qed.

(** The scoring block. *)
Lemma score_runs_cases (s s1 : State) :
  score_runs s = Some s1 ->
  (is_player_batting s = true
   /\ exists p txt,
        player_move s = Some p
        /\ s1 = set_gametext txt (set_player_score (player_score s + p) s))
  \/ (is_player_batting s = false
      /\ exists c,
           computer_move s = Some c
           /\ (((innings s =? 2) && (computer_score s + c >? player_score s)
                = false
                /\ exists txt,
                     s1 = set_gametext txt
                            (set_computer_score (computer_score s + c) s))
               \/ ((innings s =? 2) && (computer_score s + c >? player_score s)
                   = true
                   /\ s1 = set_game_over true (set_is_out true
                             (set_gametext
                                ("Computer Won! They chased the target of "
                                 ++ str_int (player_score s + 1) ++ "!")%string
                                (set_computer_score (computer_score s + c) s)))))).
Proof.
  unfold score_runs, bind. intros H.
  destruct (is_player_batting s); [left|right]; split; try reflexivity.
  - destruct (player_move s) as [p|]; [|discriminate].
    exists p. eexists. split; [reflexivity|]. now inversion H.
  - destruct (computer_move s) as [c|]; [|discriminate].
    exists c. split; [reflexivity|]. fields.
    destruct ((innings s =? 2) && (computer_score s + c >? player_score s));
      [right|left]; split; try reflexivity.
    + now inversion H.
    + eexists. now inversion H.
Qed.

(** The block of the resolve window. *)
Lemma resolve_cases (s s1 : State) :
  resolve E s = Some s1 ->
  (success s = false /\ s1 = set_gametext retry_message s)
  \/ (success s = true /\ scored_this_round s = true
      /\ exists res, s1 = set_gameresult res s)
  \/ (success s = true /\ scored_this_round s = false
      /\ player_move s = computer_move s
      /\ exists res,
           s1 = set_scored_this_round true (dismissal E (set_gameresult res s)))
  \/ (success s = true /\ scored_this_round s = false
      /\ player_move s <> computer_move s
      /\ exists res s2,
           score_runs (set_gameresult res s) = Some s2
           /\ s1 = set_scored_this_round true s2).
Proof.
  unfold resolve, bind. intros H.
  destruct (success s); [|left; inversion H; auto].
  right. fields.
  destruct (scored_this_round s); fields.
  - left. repeat split. eexists. now inversion H.
  - right.
    destruct (move_eqb (player_move s) (computer_move s)) eqn:M.
    + left. apply move_eqb_eq in M. repeat split; [assumption|].
      eexists. now inversion H.
    + right. apply move_eqb_neq in M. repeat split; [assumption|].
      match type of H with
      | match ?r with Some _ => _ | None => _ end = _ =>
          destruct r as [s2|] eqn:R; [|discriminate]
      end.
      do 2 eexists. split; [exact R|]. now inversion H.
Qed.

(** The checkpoint. *)
Lemma checkpoint_cases (s : State) :
  (is_out s = false /\ checkpoint E s = s)
  \/ (is_out s = true /\ innings s = 1
      /\ exists txt,
           checkpoint E s
           = set_game_over false (set_innings (innings s + 1)
               (set_gametext txt (set_is_out false
                  (set_is_player_batting false
                     (set_target (Some (player_score s)) s))))))
  \/ (is_out s = true /\ innings s <> 1
      /\ exists a,
           checkpoint E s
           = set_audio a
               (set_gametext
                  (if player_score s >? computer_score s
                   then "You Won the Game! Press 'N' to restart"
                   else if computer_score s >? player_score s
                        then "You Lost the Game! Press 'N' to restart"
                        else "It's a Tie! Press 'N' to restart")
                  (set_game_over true s))).
Proof.
  unfold checkpoint.
  destruct (is_out s); [right|left; auto].
  destruct (innings s =? 1) eqn:I.
  - left. repeat split; [lia|]. eexists. reflexivity.
  - right. repeat split; [lia|]. unfold stop_run_sound, play_event. fields.
    destruct (player_score s >? computer_score s);
      [|destruct (computer_score s >? player_score s)];
      eexists; reflexivity.
Qed.

Lemma random_choice_in (r : nat) :
  In (random_choice [1; 2; 3; 4; 6] r) [1; 2; 3; 4; 6].
Proof.
  unfold random_choice. apply nth_In. cbn [List.length].
  apply Nat.mod_upper_bound. discriminate.
Qed.

Lemma get_hand_run_range (lm : list Landmark.t) (name : string) (r : Z) :
  get_hand_run lm name = Some r -> 1 <= r <= 6.
Proof.
  unfold get_hand_run, bind. intros H.
  destruct (_ &&& _) ; [|discriminate].
  destruct (other_fingers _ _ _); [|discriminate].
  inversion H. lia.
Qed.

(** The capture. *)
Lemma capture_cases (s s1 : State) (i : Input) :
  capture s i = Some s1 ->
  (no_hand i /\ s1 = set_success false s)
  \/ (exists p c, 1 <= p <= 6 /\ In c [1; 2; 3; 4; 6]
        /\ s1 = set_computer_move (Some c) (set_player_move (Some p) s)).
Proof.
  unfold capture, no_hand, bind. intros H.
  destruct (hand_landmarks (detection_result i)) as [|hand ?].
  - left. inversion H. auto.
  - right.
    destruct (handedness (detection_result i)) as [|[|c ?] ?]; try discriminate.
    destruct (get_hand_run hand (category_name c)) as [p|] eqn:G; [|discriminate].
    exists p, (random_choice [1; 2; 3; 4; 6] (randbelow i)).
    inversion H. repeat split; try reflexivity.
    + apply (get_hand_run_range _ _ _ G).
    + apply (get_hand_run_range _ _ _ G).
    + apply random_choice_in.
Qed.

End Iteration.

(** ** Case analysis of a tick

    [tick_cases E s s1 T] splits on the phase of [s] and on the branch taken
    inside it, and replaces [s1] by the state the branch assigns. *)

Ltac name_audio E s :=
  let a := fresh "a" in
  let Ha := fresh "Ha" in
  destruct (sound_management_audio E s) as [a Ha]; rewrite Ha in *; clear Ha.

Ltac tick_cases E s s1 T :=
  let Hs := fresh "Hs" in
  destruct (game_started s) eqn:Hs;
  [ phase_of s;
    [ rewrite tick_before_zero in T by assumption; name_audio E s;
      inversion T; subst s1; clear T
    | rewrite tick_lead_in in T by assumption;
      inversion T; subst s1; clear T;
      unfold round_start in *;
      destruct ((clock s =? 0) && game_started s) eqn:?;
      match goal with
      | |- context [sound_management E ?x] => name_audio E x
      | _ : context [sound_management E ?x] |- _ => name_audio E x
      end
    | rewrite tick_awaiting in T by assumption; name_audio E s;
      inversion T; subst s1; clear T
    | rewrite tick_capture in T by assumption; name_audio E s;
      apply capture_cases in T;
      destruct T as [[? ->]|(? & ? & ? & ? & ->)]
    | rewrite tick_resolve in T by assumption; name_audio E s;
      let R := fresh "R" in
      apply resolve_cases in T;
      destruct T as [(? & ->)|[(? & ? & ? & ->)|[(? & ? & ? & ? & ->)
                    |(? & ? & ? & ? & ? & R & ->)]]];
      [ | |
        match goal with
        | |- context [dismissal E ?x] =>
            destruct (dismissal_assigns E x) as (? & ? & ->)
        | _ : context [dismissal E ?x] |- _ =>
            let D := fresh "D" in
            destruct (dismissal_assigns E x) as (? & ? & D);
            rewrite D in *; clear D
        end
      | apply score_runs_cases in R;
        destruct R as [(? & ? & ? & ? & ->)
                      |(? & ? & ? & [(? & ? & ->)|(? & ->)])] ]
    | rewrite tick_checkpoint in T by assumption; name_audio E s;
      inversion T; subst s1; clear T;
      match goal with
      | |- context [checkpoint E ?x] =>
          destruct (checkpoint_cases E x)
            as [(? & ->)|[(? & ? & ? & ->)|(? & ? & ? & ->)]]
      | _ : context [checkpoint E ?x] |- _ =>
          let C := fresh "C" in
          destruct (checkpoint_cases E x)
            as [(? & C)|[(? & ? & ? & C)|(? & ? & ? & C)]];
          rewrite C in *; clear C
      end
    | rewrite tick_auto_advance in T by assumption; name_audio E s;
      inversion T; subst s1; clear T;
      unfold auto_advance in *; fields;
      destruct (game_over s) eqn:?; fields ]
  | rewrite tick_idle in T by assumption; name_audio E s;
    inversion T; subst s1; clear T ].

(** ** The invariant *)

Section Invariant.

Variable E : Env.

Lemma invariant_initial : invariant initial_state.
Proof.
  constructor; cbn; lia.
Qed.

(** One clause of the invariant at a time, from the clauses it depends on. *)
Ltac clauses I1 I2 I3 I4 I5 I6 I7 I8 :=
  constructor;
  [ clear I4 I5 I6 I7 I8
  | clear I4 I5 I6 I7 I8
  | clear I4 I5 I6 I7 I8
  | clear I2 I3 I5 I6 I7 I8
  | clear I2 I3 I6 I7 I8
  | clear I2 I3 I5 I7 I8
  | clear I2 I3 I4 I5 I6 I8
  | clear I2 I3 I4 I5 I6 I7 ];
  unfold captured_moves in *; fields; cbn [In existsb] in *; lia.

Lemma tick_settled (s s1 : State) (i : Input) :
  invariant s -> tick E s i = Some s1 -> settled s1.
Proof.
  intros [I1 I2 I3 I4 I5 I6 I7 I8] T.
  tick_cases E s s1 T; clauses I1 I2 I3 I4 I5 I6 I7 I8.
Qed.

Lemma keys_and_clock_invariant (k : Z) (s : State) :
  settled s -> invariant (clock_increment (handle_key E k s)).
Proof.
  intros [M1 M2 M3 M4 M5 M6 M7 M8].
  unfold handle_key.
  destruct ((k =? ord "s"%char) && negb (game_started s)) eqn:K1.
  - apply andb_true_iff in K1. destruct K1 as [_ K1].
    apply negb_true_iff in K1.
    pose proof (M1 K1) as C0.
    assert (C15 : clock s <= 15) by (clear - C0; lia).
    pose proof (M2 C15) as [G O].
    unfold start_game, clock_increment. fields. rewrite G. fields.
    clauses M1 M2 M3 M4 M5 M6 M7 M8.
  - destruct ((k =? ord "n"%char) && game_over s) eqn:K2.
    + destruct (restart_game_audio E s) as [a ->].
      unfold clock_increment. fields.
      clauses M1 M2 M3 M4 M5 M6 M7 M8.
    + unfold clock_increment.
      destruct (game_started s && negb (game_over s)) eqn:C1;
        [|destruct (game_started s && game_over s && (clock s <=? 50)) eqn:C2];
        clauses M1 M2 M3 M4 M5 M6 M7 M8.
Qed.

(** The invariant holds at the top of every iteration. *)
Lemma invariant_step (s s' : State) (i : Input) :
  invariant s -> loop_body E s i = Continue s' -> invariant s'.
Proof.
  intros I H.
  apply loop_body_continue in H. destruct H as (s1 & T & _ & ->).
  apply keys_and_clock_invariant. exact (tick_settled s s1 i I T).
Qed.

Lemma reachable_invariant (s : State) : reachable E s -> invariant s.
Proof.
  induction 1 as [|s s' i _ IH H].
  - exact invariant_initial.
  - exact (invariant_step s s' i IH H).
Qed.

(** Away from clock 0 the match is on: a tick at clock 15, in the resolve
    window or at the checkpoint is a tick of a started match. *)
Lemma started_off_zero (s : State) :
  reachable E s -> clock s <> 0 -> game_started s = true.
Proof.
  intros R C. pose proof (inv_idle s (reachable_invariant s R)) as I.
  destruct (game_started s); [reflexivity|].
  exfalso. apply C. apply I. reflexivity.
Qed.

Lemma run_reachable (frames : list Input) (s s' : State) :
  reachable E s -> run E s frames = Continue s' -> reachable E s'.
Proof.
  revert s. induction frames as [|i rest IH]; intros s R H; cbn in H.
  - now inversion H; subst.
  - destruct (loop_body E s i) as [s1| |] eqn:L; try discriminate.
    exact (IH s1 (reachable_next E s s1 i R L) H).
Qed.

End Invariant.

(** ** Stretches of a round in which nothing is decided *)

Section Quiet.

Variable E : Env.

Lemma run_app (a b : list Input) (s : State) :
  run E s (a ++ b) =
  match run E s a with
  | Continue s' => run E s' b
  | stopped => stopped
  end.
Proof.
  revert s. induction a as [|i a IH]; intros s; cbn [run app].
  - reflexivity.
  - destruct (loop_body E s i); auto.
Qed.

(** In the resolve window, once the outcome is applied or when the capture
    failed, a tick only refreshes the display. *)
Lemma quiet_tick (s : State) (i : Input) :
  game_started s = true -> 15 < clock s < 25 ->
  success s = false \/ scored_this_round s = true ->
  exists a res,
    tick E s i =
    Some (set_gametext (if success s then gametext s else retry_message)
            (set_gameresult res (set_audio a s))).
Proof.
  intros Hs Hc Hq. rewrite tick_resolve by assumption.
  destruct (sound_management_audio E s) as [a ->].
  exists a. unfold resolve. fields.
  destruct (success s) eqn:S.
  - destruct Hq as [Hq| ->]; [discriminate|]. fields.
    exists ("You: " ++ str_move (player_move s) ++ "  |  Computer: "
            ++ str_move (computer_move s))%string.
    reflexivity.
  - exists (gameresult s). reflexivity.
Qed.

Lemma quiet_step (s : State) (i : Input) :
  game_started s = true -> 15 < clock s < 25 ->
  success s = false \/ scored_this_round s = true ->
  alive i = true ->
  game_over s = false \/ (key i =? ord "n"%char) = false ->
  exists a res,
    loop_body E s i =
    Continue (set_clock (clock s + 1)
                (set_gametext (if success s then gametext s else retry_message)
                   (set_gameresult res (set_audio a s)))).
Proof.
  intros Hs Hc Hq Ha Hk.
  destruct (quiet_tick s i Hs Hc Hq) as (a & res & T).
  exists a, res. rewrite (loop_body_alive E s _ i Ha T).
  f_equal.
  assert (K : forall t, game_started t = true -> game_over t = game_over s ->
                        handle_key E (key i) t = t).
  { intros t St Gt. destruct Hk as [G|N].
    - apply handle_key_playing; congruence.
    - apply handle_key_no_restart; assumption. }
  rewrite K by (fields; auto).
  rewrite clock_increment_over by (fields; auto; lia).
  reflexivity.
Qed.

Lemma quiet_run (frames : list Input) (s : State) :
  game_started s = true -> 15 < clock s ->
  clock s + Z.of_nat (List.length frames) <= 25 ->
  success s = false \/ scored_this_round s = true ->
  forallb alive frames = true ->
  game_over s = false \/ forallb undisturbed frames = true ->
  exists s',
    run E s frames = Continue s'
    /\ clock s' = clock s + Z.of_nat (List.length frames)
    /\ match_state s' = match_state s
    /\ round_state s' = round_state s
    /\ (success s = true -> gametext s' = gametext s)
    /\ (success s = false -> frames <> [] -> gametext s' = retry_message).
Proof.
  revert s. induction frames as [|i rest IH]; intros s Hs Hc Hl Hq Ha Hk.
  - exists s. cbn [run List.length]. repeat split; auto; try lia. congruence.
  - cbn [List.length] in Hl. cbn [forallb] in Ha, Hk.
    apply andb_true_iff in Ha. destruct Ha as [Ai Ar].
    assert (Ki : game_over s = false \/ (key i =? ord "n"%char) = false).
    { destruct Hk as [G|U]; [left; exact G|right].
      apply andb_true_iff in U. destruct U as [U _]. unfold undisturbed in U.
      apply andb_true_iff in U. destruct U as [_ U].
      now apply negb_true_iff in U. }
    destruct (quiet_step s i Hs ltac:(arith) Hq Ai Ki) as (a & res & L).
    cbn [run]. rewrite L.
    match goal with |- context [run E ?t rest] => set (s1 := t) end.
    assert (Kr : game_over s1 = false \/ forallb undisturbed rest = true).
    { destruct Hk as [G|U]; [left; exact G|right].
      apply andb_true_iff in U. tauto. }
    assert (Q1 : success s1 = false \/ scored_this_round s1 = true)
      by exact Hq.
    assert (C1 : clock s1 = clock s + 1) by reflexivity.
    destruct (IH s1 Hs ltac:(arith) ltac:(arith) Q1 Ar Kr)
      as (s' & R & C & M & Rd & G1 & G2).
    exists s'. split; [exact R|].
    split; [cbn [List.length]; arith|].
    split; [rewrite M; reflexivity|].
    split; [rewrite Rd; reflexivity|].
    split.
    + intros S. rewrite G1 by exact S. subst s1. fields. now rewrite S.
    + intros S _. destruct rest as [|j rest'].
      * cbn [run] in R. inversion R. subst s1. fields. now rewrite S.
      * apply G2; [exact S|discriminate].
Qed.

End Quiet.

(** ** Outcome application: dismissal, runs, chase *)

Section Outcome.

Variable E : Env.

(** C2. In the resolve window, with the capture successful, the outcome not
    yet applied and equal moves, the tick sets [is_out], sets [game_over]
    exactly when the innings is the second, and leaves both scores alone.
    After a dismissal in innings 1 [game_over] stays false up to the
    checkpoint, whose iteration moves the match to innings 2. *)
Theorem dismissal_tick (s : State) (i : Input) :
  game_started s = true -> 15 < clock s < 25 ->
  success s = true -> scored_this_round s = false ->
  player_move s = computer_move s ->
  exists s1,
    tick E s i = Some s1
    /\ is_out s1 = true
    /\ (game_over s1 = true <-> innings s = 2)
    /\ player_score s1 = player_score s
    /\ computer_score s1 = computer_score s
    /\ scored_this_round s1 = true
    /\ (innings s = 1 ->
        forall frames,
          forallb alive (i :: frames) = true ->
          clock s + 1 + Z.of_nat (List.length frames) <= 25 ->
          exists s',
            run E s (i :: frames) = Continue s'
            /\ clock s' = clock s + 1 + Z.of_nat (List.length frames)
            /\ is_out s' = true /\ game_over s' = false /\ innings s' = 1
            /\ player_score s' = player_score s
            /\ (clock s' = 25 ->
                forall j, alive j = true ->
                exists s'',
                  loop_body E s' j = Continue s''
                  /\ game_over s'' = false /\ innings s'' = 2
                  /\ target s'' = Some (player_score s))).
Proof.
  intros Hs Hc Su Sc Mv.
  assert (T : exists res txt a,
             tick E s i =
             Some (set_scored_this_round true
                     (set_audio a
                        (set_game_over (innings s =? 2)
                           (set_is_out true
                              (set_gametext txt (set_gameresult res s))))))).
  { rewrite tick_resolve by assumption.
    destruct (sound_management_audio E s) as [a ->].
    unfold resolve. fields. rewrite Su, Sc. fields.
    apply move_eqb_eq in Mv. rewrite Mv. cbn [bind].
    match goal with
    | |- context [dismissal E (set_gameresult ?r ?x)] =>
        destruct (dismissal_assigns E (set_gameresult r x)) as (txt & a' & ->);
        exists r, txt, a'
    end.
    reflexivity. }
  destruct T as (res & txt & a & T).
  eexists. split; [exact T|]. fields.
  split; [reflexivity|]. split; [apply Z.eqb_eq|].
  do 3 (split; [reflexivity|]).
  intros I1 frames Ha Hl.
  cbn [forallb] in Ha. apply andb_true_iff in Ha. destruct Ha as [Ai Ar].
  cbn [run]. rewrite (loop_body_alive E s _ i Ai T).
  replace (innings s =? 2) with false by (clear - I1; lia).
  rewrite handle_key_playing by (fields; auto).
  rewrite clock_increment_playing by (fields; auto). fields.
  match goal with |- context [run E ?t frames] => set (s2 := t) end.
  destruct (quiet_run E frames s2) as (s' & R & C & M & Rd & _ & _);
    subst s2; fields; auto; try arith.
  exists s'. split; [exact R|]. split; [exact C|].
  unfold match_state in M. fields. injection M as Ps Cs In Ba Ta Ou Ov.
  split; [exact Ou|]. split; [exact Ov|].
  split; [now rewrite In|]. split; [exact Ps|].
  intros C25 j Aj.
  assert (Ss : game_started s' = true).
  { unfold round_state in Rd. fields. injection Rd as St _ _ _ _ _.
    now rewrite St. }
  destruct (sound_management_audio E s') as [a' Sm].
  assert (T' : exists txt',
            tick E s' j =
            Some (set_game_over false (set_innings (innings s' + 1)
                    (set_gametext txt' (set_is_out false
                       (set_is_player_batting false
                          (set_target (Some (player_score s'))
                             (set_audio a' s')))))))).
  { rewrite tick_checkpoint by assumption. rewrite Sm.
    destruct (checkpoint_cases E (set_audio a' s'))
      as [(O & _)|[(_ & _ & txt' & ->)|(_ & N & _)]]; fields.
    - congruence.
    - exists txt'. reflexivity.
    - congruence. }
  destruct T' as (txt' & T').
  eexists. split.
  - rewrite (loop_body_alive E s' _ j Aj T'). reflexivity.
  - rewrite handle_key_playing by (fields; auto).
    rewrite clock_increment_playing by (fields; auto). fields.
    rewrite In, Ps. repeat split. rewrite I1. reflexivity.
Qed.


Lemma captured_moves_values (s : State) :
  captured_moves s = true ->
  exists p c,
    player_move s = Some p /\ computer_move s = Some c
    /\ 1 <= p <= 6 /\ In c [1; 2; 3; 4; 6].
Proof.
  unfold captured_moves. intros H.
  destruct (player_move s) as [p|]; [|discriminate].
  destruct (computer_move s) as [c|]; [|discriminate].
  exists p, c. cbn [existsb In] in *. repeat split; lia.
Qed.

(** The tick of the resolve window that applies an outcome to distinct,
    captured moves. *)
Lemma runs_tick (s : State) (i : Input) (p c : Z) :
  game_started s = true -> 15 < clock s < 25 ->
  success s = true -> scored_this_round s = false ->
  player_move s = Some p -> computer_move s = Some c -> p <> c ->
  exists s1 res a,
    tick E s i = Some s1
    /\ ((is_player_batting s = true
         /\ exists txt,
              s1 = set_scored_this_round true
                     (set_gametext txt
                        (set_player_score (player_score s + p)
                           (set_gameresult res (set_audio a s)))))
        \/ (is_player_batting s = false
            /\ (innings s =? 2) && (computer_score s + c >? player_score s)
               = false
            /\ exists txt,
                 s1 = set_scored_this_round true
                        (set_gametext txt
                           (set_computer_score (computer_score s + c)
                              (set_gameresult res (set_audio a s)))))
        \/ (is_player_batting s = false
            /\ (innings s =? 2) && (computer_score s + c >? player_score s)
               = true
            /\ s1 = set_scored_this_round true
                      (set_game_over true
                         (set_is_out true
                            (set_gametext
                               ("Computer Won! They chased the target of "
                                ++ str_int (player_score s + 1) ++ "!")%string
                               (set_computer_score (computer_score s + c)
                                  (set_gameresult res (set_audio a s)))))))).
Proof.
  intros Hs Hc Su Sc Pm Cm Ne.
  rewrite tick_resolve by assumption.
  destruct (sound_management_audio E s) as [a ->].
  unfold resolve. fields. rewrite Su, Sc. fields.
  replace (move_eqb (player_move s) (computer_move s)) with false
    by (rewrite Pm, Cm; cbn [move_eqb]; clear - Ne; lia).
  unfold score_runs. fields. rewrite Pm, Cm.
  match goal with
  | |- context [set_gameresult ?r (set_audio a s)] => set (res := r)
  end.
  destruct (is_player_batting s); cbn [bind].
  - eexists. exists res, a. split; [reflexivity|].
    left. split; [reflexivity|]. eexists. reflexivity.
  - fields.
    destruct ((innings s =? 2) && (computer_score s + c >? player_score s)).
    + eexists. exists res, a. split; [reflexivity|].
      right. right. repeat split.
    + eexists. exists res, a. split; [reflexivity|].
      right. left. repeat split. eexists. reflexivity.
Qed.

(** C3. In the resolve window of an execution, with the capture successful,
    the outcome not yet applied and distinct moves, exactly the batting
    side's score grows, by that side's own move. *)
Theorem scoring_tick (s : State) (i : Input) :
  reachable E s ->
  game_started s = true -> 15 < clock s < 25 ->
  success s = true -> scored_this_round s = false ->
  player_move s <> computer_move s ->
  exists p c s1,
    player_move s = Some p /\ computer_move s = Some c
    /\ tick E s i = Some s1
    /\ (is_player_batting s = true ->
        player_score s1 = player_score s + p
        /\ player_score s < player_score s1
        /\ computer_score s1 = computer_score s)
    /\ (is_player_batting s = false ->
        computer_score s1 = computer_score s + c
        /\ computer_score s < computer_score s1
        /\ player_score s1 = player_score s).
Proof.
  intros Re Hs Hc Su Sc Ne.
  pose proof (reachable_invariant E s Re) as I.
  destruct (captured_moves_values s (inv_moves s I ltac:(arith) Su))
    as (p & c & Pm & Cm & Hp & Hin).
  assert (c > 0) by (cbn [In] in Hin; clear - Hin; lia).
  assert (Npc : p <> c) by congruence.
  destruct (runs_tick s i p c Hs Hc Su Sc Pm Cm Npc)
    as (s1 & res & a & T & [(B & txt & ->)|[(B & _ & txt & ->)|(B & _ & ->)]]);
    exists p, c; eexists; (split; [exact Pm|]); (split; [exact Cm|]);
    (split; [exact T|]); fields; rewrite B;
    (split; intros; [try discriminate|try discriminate]);
    repeat split; arith.
Qed.

Lemma undisturbed_alive (frames : list Input) :
  forallb undisturbed frames = true -> forallb alive frames = true.
Proof.
  induction frames as [|i rest IH]; cbn [forallb]; [reflexivity|].
  intros H. apply andb_true_iff in H. destruct H as [U R].
  unfold undisturbed in U. apply andb_true_iff in U. destruct U as [U _].
  rewrite U. cbn [andb]. exact (IH R).
Qed.

(** C4. When the computer, batting in innings 2, passes the player's score,
    the tick that adds the runs ends the match: it sets [is_out] and
    [game_over] and announces the computer's win. The checkpoint decides
    nothing any more: when the clock, which keeps running, reaches 25 (the
    match not being restarted or quit on the way), the finalize branch leaves
    the scores and the flags as the chase tick set them and announces the
    loss those scores already are. *)
Theorem chase_success (s : State) (i : Input) (p c : Z) :
  game_started s = true -> 15 < clock s < 25 ->
  success s = true -> scored_this_round s = false ->
  is_player_batting s = false -> innings s = 2 ->
  player_move s = Some p -> computer_move s = Some c -> p <> c ->
  computer_score s + c > player_score s ->
  exists s1,
    tick E s i = Some s1
    /\ computer_score s1 = computer_score s + c
    /\ player_score s1 = player_score s
    /\ is_out s1 = true /\ game_over s1 = true
    /\ gametext s1 = ("Computer Won! They chased the target of "
                      ++ str_int (player_score s + 1) ++ "!")%string
    /\ forall frames,
         forallb undisturbed (i :: frames) = true ->
         clock s + 1 + Z.of_nat (List.length frames) = 25 ->
         exists s25,
           run E s (i :: frames) = Continue s25
           /\ clock s25 = 25
           /\ match_state s25 = match_state s1
           /\ gametext s25 = gametext s1
           /\ finalizes s25 = true
           /\ forall j,
                exists s26,
                  tick E s25 j = Some s26
                  /\ match_state s26 = match_state s1
                  /\ announced s26 = Some Loss.
Proof.
  intros Hs Hc Su Sc Ba In2 Pm Cm Ne Gt.
  destruct (runs_tick s i p c Hs Hc Su Sc Pm Cm Ne)
    as (s1 & res & a & T & [(B & _)|[(_ & N & _)|(_ & _ & ->)]]).
  - congruence.
  - exfalso. clear - N In2 Gt. lia.
  - eexists. split; [exact T|]. fields.
    do 5 (split; [reflexivity|]).
    intros frames Hu Hl.
    cbn [forallb] in Hu. apply andb_true_iff in Hu. destruct Hu as [Ui Ur].
    assert (Ai : alive i = true /\ (key i =? ord "n"%char) = false).
    { unfold undisturbed in Ui. apply andb_true_iff in Ui.
      destruct Ui as [? Ui]. now apply negb_true_iff in Ui. }
    destruct Ai as [Ai Ni].
    cbn [run]. rewrite (loop_body_alive E s _ i Ai T).
    rewrite handle_key_no_restart by (fields; auto).
    rewrite clock_increment_over by (fields; auto; arith). fields.
    match goal with |- context [run E ?t frames] => set (s2 := t) end.
    destruct (quiet_run E frames s2) as (s25 & R & C & M & Rd & G & _);
      subst s2; fields; auto using undisturbed_alive; try arith.
    exists s25. split; [exact R|]. split; [arith|].
    split; [exact M|].
    split; [rewrite G by exact Su; reflexivity|].
    unfold match_state in M. fields. injection M as Ps Cs In Bt Ta Ou Ov.
    unfold round_state in Rd. fields. injection Rd as St _ _ _ _ _.
    assert (C25 : clock s25 = 25) by arith.
    split.
    { unfold finalizes. rewrite St, Hs, C25, Ou, In, In2. reflexivity. }
    intros j.
    assert (Ss : game_started s25 = true) by congruence.
    rewrite tick_checkpoint by assumption.
    destruct (sound_management_audio E s25) as [a' ->].
    destruct (checkpoint_cases E (set_audio a' s25))
      as [(O & _)|[(_ & I1 & _)|(_ & _ & a'' & ->)]]; fields.
    + congruence.
    + exfalso. clear - I1 In In2. lia.
    + eexists. split; [reflexivity|]. unfold match_state, announced. fields.
      rewrite Ps, Cs, In, Bt, Ta, Ou.
      replace (player_score s >? computer_score s + c) with false
        by (clear - Gt; lia).
      replace (computer_score s + c >? player_score s) with true
        by (clear - Gt; lia).
      split; reflexivity.
Qed.

End Outcome.

(** ** The checkpoint *)

Section Checkpoint.

Variable E : Env.

(** C5. At clock 25, in innings 1 with the batting side out, the tick hands
    the innings over: [target] is the player's score, the player no longer
    bats, [is_out] and [game_over] are false, the innings is 2 and the scores
    are untouched. The iteration then moves the clock to 26 with the match
    state as the tick left it. *)
Theorem innings_transition (s : State) (i : Input) :
  game_started s = true -> clock s = 25 ->
  innings s = 1 -> is_out s = true ->
  exists s1,
    tick E s i = Some s1
    /\ target s1 = Some (player_score s)
    /\ is_player_batting s1 = false
    /\ is_out s1 = false
    /\ innings s1 = 2
    /\ game_over s1 = false
    /\ player_score s1 = player_score s
    /\ computer_score s1 = computer_score s
    /\ (alive i = true ->
        exists s',
          loop_body E s i = Continue s'
          /\ clock s' = 26 /\ match_state s' = match_state s1).
Proof.
  intros Hs Hc I1 Ou.
  assert (T : exists txt a,
             tick E s i =
             Some (set_game_over false (set_innings (innings s + 1)
                     (set_gametext txt (set_is_out false
                        (set_is_player_batting false
                           (set_target (Some (player_score s))
                              (set_audio a s)))))))).
  { rewrite tick_checkpoint by assumption.
    destruct (sound_management_audio E s) as [a ->].
    destruct (checkpoint_cases E (set_audio a s))
      as [(O & _)|[(_ & _ & txt & ->)|(_ & N & _)]]; fields;
      [congruence| |congruence].
    exists txt, a. reflexivity. }
  destruct T as (txt & a & T).
  eexists. split; [exact T|]. fields.
  rewrite I1. do 7 (split; [reflexivity|]).
  intros Ai. eexists. split.
  - rewrite (loop_body_alive E s _ i Ai T).
    rewrite handle_key_playing by (fields; auto).
    rewrite clock_increment_playing by (fields; auto).
    reflexivity.
  - fields. rewrite Hc, I1. split; reflexivity.
Qed.

(** C6. At clock 25, in innings 2 with [is_out] set, the tick sets
    [game_over] and announces exactly one result: a win when the player's
    score is the greater, a loss when the computer's is, a tie when they are
    equal. This holds whether or not the chase already ended the match. *)
Theorem match_finalization (s : State) (i : Input) :
  game_started s = true -> clock s = 25 ->
  innings s = 2 -> is_out s = true ->
  exists s1 r,
    tick E s i = Some s1
    /\ game_over s1 = true
    /\ announced s1 = Some r
    /\ (r = Win <-> player_score s > computer_score s)
    /\ (r = Loss <-> computer_score s > player_score s)
    /\ (r = Tie <-> player_score s = computer_score s)
    /\ player_score s1 = player_score s
    /\ computer_score s1 = computer_score s
    /\ innings s1 = 2 /\ is_out s1 = true.
Proof.
  intros Hs Hc I2 Ou.
  rewrite tick_checkpoint by assumption.
  destruct (sound_management_audio E s) as [a ->].
  destruct (checkpoint_cases E (set_audio a s))
    as [(O & _)|[(_ & I1 & _)|(_ & _ & a' & ->)]]; fields.
  - congruence.
  - exfalso. clear - I1 I2. lia.
  - unfold announced. fields.
    assert (R : forall r : Result,
              r = (if player_score s >? computer_score s then Win
                   else if computer_score s >? player_score s then Loss
                        else Tie) ->
              (r = Win <-> player_score s > computer_score s)
              /\ (r = Loss <-> computer_score s > player_score s)
              /\ (r = Tie <-> player_score s = computer_score s)).
    { intros r ->. clear.
      destruct (player_score s >? computer_score s) eqn:W;
        [|destruct (computer_score s >? player_score s) eqn:L];
        repeat split; intros H; try reflexivity; try discriminate; lia. }
    eexists.
    exists (if player_score s >? computer_score s then Win
            else if computer_score s >? player_score s then Loss else Tie).
    split; [reflexivity|]. fields.
    split; [reflexivity|].
    split.
    { destruct (player_score s >? computer_score s);
        [|destruct (computer_score s >? player_score s)]; reflexivity. }
    destruct (R _ eq_refl) as (RW & RL & RT).
    split; [exact RW|]. split; [exact RL|]. split; [exact RT|].
    repeat split; assumption.
Qed.

End Checkpoint.

(** ** Target and innings *)

Section Target.

Variable E : Env.

Lemma clock_increment_clock_only (s : State) :
  exists c, clock_increment s = set_clock c s.
Proof.
  unfold clock_increment.
  destruct (game_started s && negb (game_over s));
    [|destruct (game_started s && game_over s && (clock s <=? 50))];
    try (eexists; reflexivity).
  exists (clock s). now destruct s.
Qed.

(** A tick changes [target] and [innings] only in the hand-over of the
    checkpoint. *)
Lemma tick_target (s s1 : State) (i : Input) :
  tick E s i = Some s1 ->
  (target s1 = target s /\ innings s1 = innings s)
  \/ (game_started s = true /\ clock s = 25 /\ is_out s = true
      /\ innings s = 1 /\ innings s1 = 2
      /\ target s1 = Some (player_score s)).
Proof.
  intros T.
  tick_cases E s s1 T; fields; try (left; split; reflexivity).
  right. repeat split; try assumption.
  match goal with H : innings s = 1 |- _ => now rewrite H end.
Qed.

(** The hand-over of the checkpoint. *)
Lemma tick_hand_over (s s1 : State) (i : Input) :
  game_started s = true -> clock s = 25 ->
  is_out s = true -> innings s = 1 ->
  tick E s i = Some s1 ->
  target s1 = Some (player_score s) /\ innings s1 = 2.
Proof.
  intros Hs Hc O N T. rewrite tick_checkpoint in T by assumption.
  injection T as <-.
  destruct (sound_management_audio E s) as [a ->].
  destruct (checkpoint_cases E (set_audio a s))
    as [(O' & _)|[(_ & _ & txt & ->)|(_ & N' & _)]]; fields.
  - congruence.
  - rewrite N. split; reflexivity.
  - congruence.
Qed.

(** C7. At the top of every iteration of an execution [target] is set
    exactly when the innings is the second. What an iteration does to the
    pair is decided by the state it starts in: a restart resets both,
    [target] to [None] and the innings to 1; otherwise the hand-over (clock
    25, batting side out, innings 1) sets the still absent [target] to the
    player's score as the innings goes from 1 to 2; and every other iteration
    leaves both as they are. *)
Theorem target_iff_second_innings (s : State) :
  reachable E s ->
  (target s <> None <-> innings s = 2)
  /\ forall i s',
       loop_body E s i = Continue s' ->
       if restarts E s i then target s' = None /\ innings s' = 1
       else if (clock s =? 25) && is_out s && (innings s =? 1)
            then target s = None
                 /\ target s' = Some (player_score s) /\ innings s' = 2
            else target s' = target s /\ innings s' = innings s.
Proof.
  intros Re. pose proof (reachable_invariant E s Re) as Inv.
  pose proof (inv_target s Inv) as It.
  split.
  - destruct (target s); cbn [is_none] in It.
    + split; [intros _; clear - It; lia|discriminate].
    + split; [congruence|intros H; exfalso; clear - It H; lia].
  - intros i s' L.
    apply loop_body_continue in L. destruct L as (s1 & T & Ai & ->).
    destruct (clock_increment_clock_only (handle_key E (key i) s1))
      as [c ->]. fields.
    assert (Step :
      if (clock s =? 25) && is_out s && (innings s =? 1)
      then target s = None
           /\ target s1 = Some (player_score s) /\ innings s1 = 2
      else target s1 = target s /\ innings s1 = innings s).
    { destruct ((clock s =? 25) && is_out s && (innings s =? 1)) eqn:H.
      - apply andb_true_iff in H. destruct H as [H N].
        apply andb_true_iff in H. destruct H as [C O].
        assert (C25 : clock s = 25) by (clear - C; lia).
        assert (N1 : innings s = 1) by (clear - N; lia).
        split.
        + destruct (target s); cbn [is_none] in It;
            [exfalso; clear - It N1; lia|reflexivity].
        + apply (tick_hand_over s s1 i); try assumption.
          apply (started_off_zero E s Re). clear - C25. lia.
      - destruct (tick_target s s1 i T)
          as [(Ht & Hi)|(_ & C & O & I1 & _)]; [split; assumption|].
        exfalso. rewrite C, O, I1 in H. discriminate H. }
    unfold restarts. rewrite T.
    unfold alive in Ai. rewrite Ai. cbn [andb].
    unfold handle_key.
    destruct ((key i =? ord "s"%char) && negb (game_started s1)) eqn:K1;
      cbn [negb andb];
      [|destruct ((key i =? ord "n"%char) && game_over s1) eqn:K2].
    + unfold start_game. fields. exact Step.
    + destruct (restart_game_audio E s1) as [a ->]. fields.
      split; reflexivity.
    + exact Step.
Qed.

End Target.

(** ** One outcome per round *)

Section OncePerRound.

Variable E : Env.

(** Outside the clock-0 bookkeeping a tick never lowers the flag. *)
Lemma tick_keeps_flag (s s1 : State) (i : Input) :
  tick E s i = Some s1 ->
  starts_round s = false -> scored_this_round s = true ->
  scored_this_round s1 = true.
Proof.
  intros T St Sc. unfold starts_round in St.
  tick_cases E s s1 T; fields; try assumption; try reflexivity; congruence.
Qed.

(** The flag is raised exactly by the guarded block of the resolve window:
    the match is on, the clock is in the window, the capture succeeded and no
    outcome was applied yet (and adding the runs does not raise). *)
Lemma applies_outcome_guard (s : State) (i : Input) :
  applies_outcome E s i = true <->
  game_started s = true /\ 15 < clock s < 25
  /\ success s = true /\ scored_this_round s = false
  /\ tick E s i <> None.
Proof.
  unfold applies_outcome. split.
  - destruct (tick E s i) as [s1|] eqn:T; [|discriminate].
    intros H. apply andb_true_iff in H. destruct H as [H0 H1].
    apply negb_true_iff in H0.
    assert (G : game_started s = true /\ 15 < clock s < 25
                /\ success s = true).
    { tick_cases E s s1 T; fields; try congruence;
        repeat split; try assumption; arith. }
    destruct G as (Hs & Hc & Su).
    repeat split; try assumption; try arith. discriminate.
  - intros (Hs & Hc & Su & Sc & T).
    destruct (tick E s i) as [s1|] eqn:T1; [clear T|congruence].
    rewrite Sc. cbn [negb andb].
    rewrite tick_resolve in T1 by assumption.
    destruct (sound_management_audio E s) as [a Ha]. rewrite Ha in T1.
    apply resolve_cases in T1. fields.
    destruct T1 as [(? & _)|[(_ & ? & _)|[(_ & _ & _ & res & ->)
                   |(_ & _ & _ & res & s2 & _ & ->)]]];
      try congruence; reflexivity.
Qed.

(** The iteration that opens a round applies no outcome. *)
Lemma round_start_applies_nothing (s : State) (i : Input) :
  starts_round s = true -> applies_outcome E s i = false.
Proof.
  intros St. unfold applies_outcome.
  assert (H : game_started s = true /\ clock s = 0).
  { unfold starts_round in St. clear - St. lia. }
  destruct H as [Hs Hc].
  rewrite tick_lead_in by (auto; arith).
  rewrite (round_start_on s St).
  match goal with
  | |- context [sound_management E ?x] =>
      destruct (sound_management_audio E x) as [a ->]
  end.
  fields. apply andb_false_r.
Qed.

(** Without a restart, the keys and the clock leave the flag alone. *)
Lemma iteration_keeps_flag (s s' : State) (i : Input) :
  loop_body E s i = Continue s' ->
  starts_round s = false -> restarts E s i = false ->
  scored_this_round s = true \/ applies_outcome E s i = true ->
  scored_this_round s' = true.
Proof.
  intros L St Rs H.
  apply loop_body_continue in L. destruct L as (s1 & T & Ai & ->).
  assert (S1 : scored_this_round s1 = true).
  { destruct H as [Sc|Ap].
    - exact (tick_keeps_flag s s1 i T St Sc).
    - unfold applies_outcome in Ap. rewrite T in Ap.
      apply andb_true_iff in Ap. tauto. }
  destruct (clock_increment_clock_only (handle_key E (key i) s1)) as [c ->].
  fields.
  unfold restarts in Rs. rewrite T in Rs.
  unfold alive in Ai. rewrite Ai in Rs. cbn [andb] in Rs.
  unfold handle_key.
  destruct ((key i =? ord "s"%char) && negb (game_started s1));
    cbn [negb andb] in Rs.
  - exact S1.
  - rewrite Rs. exact S1.
Qed.

Lemma applied_round_is_settled (frames : list Input) (s : State) :
  within_round E s frames = true -> scored_this_round s = true ->
  outcome_applications E s frames = 0%nat.
Proof.
  revert s. induction frames as [|i rest IH]; intros s W Sc;
    cbn [outcome_applications]; [reflexivity|].
  cbn [within_round] in W.
  apply andb_true_iff in W. destruct W as [W Wr].
  apply andb_true_iff in W. destruct W as [St Rs].
  apply negb_true_iff in St. apply negb_true_iff in Rs.
  assert (A : applies_outcome E s i = false).
  { unfold applies_outcome. destruct (tick E s i); [|reflexivity].
    rewrite Sc. reflexivity. }
  rewrite A. cbn [Nat.add].
  destruct (loop_body E s i) as [s'| |] eqn:L; try reflexivity.
  apply IH; [exact Wr|].
  exact (iteration_keeps_flag s s' i L St Rs (or_introl Sc)).
Qed.

Lemma within_round_once (frames : list Input) (s : State) :
  within_round E s frames = true ->
  (outcome_applications E s frames <= 1)%nat.
Proof.
  revert s. induction frames as [|i rest IH]; intros s W;
    cbn [outcome_applications]; [auto|].
  pose proof W as W0.
  cbn [within_round] in W.
  apply andb_true_iff in W. destruct W as [W Wr].
  apply andb_true_iff in W. destruct W as [St Rs].
  apply negb_true_iff in St. apply negb_true_iff in Rs.
  destruct (loop_body E s i) as [s'| |] eqn:L.
  - destruct (applies_outcome E s i) eqn:A.
    + rewrite (applied_round_is_settled rest s' Wr); [auto|].
      exact (iteration_keeps_flag s s' i L St Rs (or_intror A)).
    + exact (IH s' Wr).
  - destruct (applies_outcome E s i); auto.
  - destruct (applies_outcome E s i); auto.
Qed.

(** What a tick does to the scores and to [is_out]: a tick that raises the
    flag applies one outcome, a dismissal or the runs of the batting side; any
    other tick changes no score and puts nobody out. *)
Lemma tick_outcome (s s1 : State) (i : Input) :
  tick E s i = Some s1 ->
  if applies_outcome E s i then
    (player_move s = computer_move s
     /\ is_out s1 = true
     /\ player_score s1 = player_score s
     /\ computer_score s1 = computer_score s)
    \/ (player_move s <> computer_move s
        /\ exists r,
             (if is_player_batting s then player_move s else computer_move s)
             = Some r
             /\ player_score s1
                = (if is_player_batting s then player_score s + r
                   else player_score s)
             /\ computer_score s1
                = (if is_player_batting s then computer_score s
                   else computer_score s + r))
  else
    player_score s1 = player_score s
    /\ computer_score s1 = computer_score s
    /\ (is_out s1 = true -> is_out s = true).
Proof.
  intros T. destruct (applies_outcome E s i) eqn:A.
  - apply applies_outcome_guard in A. destruct A as (Hs & Hc & Su & Sc & _).
    rewrite tick_resolve in T by assumption.
    destruct (sound_management_audio E s) as [a Ha]. rewrite Ha in T.
    apply resolve_cases in T. fields.
    destruct T as [(? & _)|[(_ & ? & _)|[(_ & _ & M & res & ->)
                  |(_ & _ & M & res & s2 & R & ->)]]];
      try congruence.
    + left. destruct (dismissal_assigns E (set_gameresult res (set_audio a s)))
        as (txt & a' & ->). fields. repeat split. exact M.
    + right. split; [exact M|].
      apply score_runs_cases in R. fields.
      destruct R as [(B & p & txt & Pm & ->)
                    |(B & c & Cm & [(_ & txt & ->)|(_ & ->)])];
        rewrite B; fields; eexists; (split; [eassumption|]);
        split; reflexivity.
  - unfold applies_outcome in A. rewrite T in A. revert A.
    tick_cases E s s1 T; intros A; fields;
      try (repeat split; (reflexivity || (intros; assumption) || auto));
      try (exfalso;
           match goal with
           | H : scored_this_round s = false |- _ => rewrite H in A
           end; discriminate A).
Qed.

(** C1. Over the iterations of one round (the first may open it, none of
    the later ones opens the next, and the match is not restarted) the
    outcome-application step runs at most once, however many ticks fall in
    the resolve window: the flag [scored_this_round] is raised at most once;
    the iteration that raises it applies exactly one outcome, a dismissal
    that leaves both scores alone or the runs of the batting side added
    once; and every other iteration of the round changes no score and puts
    nobody out. *)
Theorem outcome_applied_once_per_round (s : State) (frames : list Input) :
  one_round E s frames = true ->
  (outcome_applications E s frames <= 1)%nat
  /\ forall (before after : list Input) (i : Input) (s0 s1 : State),
       frames = (before ++ i :: after)%list ->
       run E s before = Continue s0 ->
       tick E s0 i = Some s1 ->
       if applies_outcome E s0 i then
         (player_move s0 = computer_move s0
          /\ is_out s1 = true
          /\ player_score s1 = player_score s0
          /\ computer_score s1 = computer_score s0)
         \/ (player_move s0 <> computer_move s0
             /\ exists r,
                  (if is_player_batting s0 then player_move s0
                   else computer_move s0) = Some r
                  /\ player_score s1
                     = (if is_player_batting s0 then player_score s0 + r
                        else player_score s0)
                  /\ computer_score s1
                     = (if is_player_batting s0 then computer_score s0
                        else computer_score s0 + r))
       else
         player_score s1 = player_score s0
         /\ computer_score s1 = computer_score s0
         /\ (is_out s1 = true -> is_out s0 = true).
Proof.
  intros O. split.
  - destruct frames as [|i rest]; [auto|].
    destruct (starts_round s) eqn:St.
    + cbn [outcome_applications].
      rewrite (round_start_applies_nothing s i St). cbn [Nat.add].
      cbn [one_round] in O. apply andb_true_iff in O. destruct O as [_ O].
      destruct (loop_body E s i) as [s'| |]; auto.
      exact (within_round_once rest s' O).
    + apply within_round_once. cbn [within_round]. rewrite St.
      exact O.
  - intros before after i s0 s1 _ _ T. exact (tick_outcome s0 s1 i T).
Qed.

End OncePerRound.

(** ** A round whose capture found no hand *)

Section MissedCapture.

Variable E : Env.

(** From the resolve window to the end of the checkpoint, a round with a
    failed capture and nobody out only shows the retry message. *)
Lemma unresolved_run (frames : list Input) (s : State) :
  game_started s = true -> game_over s = false -> is_out s = false ->
  success s = false -> 15 < clock s ->
  clock s + Z.of_nat (List.length frames) <= 26 ->
  forallb alive frames = true ->
  exists s',
    run E s frames = Continue s'
    /\ clock s' = clock s + Z.of_nat (List.length frames)
    /\ match_state s' = match_state s
    /\ round_state s' = round_state s
    /\ (gametext s = retry_message \/ (frames <> [] /\ clock s <= 24) ->
        gametext s' = retry_message).
Proof.
  revert s. induction frames as [|i rest IH]; intros s Hs Go Ou Su Hc Hl Ha.
  - exists s. cbn [run List.length]. repeat split; try arith.
    intros [G|[N _]]; [exact G|congruence].
  - cbn [List.length] in Hl. cbn [forallb] in Ha.
    apply andb_true_iff in Ha. destruct Ha as [Ai Ar].
    assert (L : exists a txt res,
               (clock s <= 24 -> txt = retry_message)
               /\ (clock s = 25 -> txt = gametext s)
               /\ loop_body E s i =
                  Continue (set_clock (clock s + 1)
                              (set_gametext txt
                                 (set_gameresult res (set_audio a s))))).
    { assert (P : clock s <= 24 \/ clock s = 25) by arith.
      destruct P as [P|P].
      - destruct (quiet_step E s i Hs ltac:(arith) (or_introl Su) Ai
                    (or_introl Go)) as (a & res & L).
        rewrite Su in L. exists a, retry_message, res.
        repeat split; auto. intros. exfalso. arith.
      - assert (T : exists a, tick E s i = Some (set_audio a s)).
        { rewrite tick_checkpoint by assumption.
          destruct (sound_management_audio E s) as [a ->]. exists a.
          destruct (checkpoint_cases E (set_audio a s))
            as [(_ & ->)|[(O & _)|(O & _)]]; fields;
            [reflexivity|congruence|congruence]. }
        destruct T as (a & T).
        exists a, (gametext s), (gameresult s).
        split; [intros; exfalso; arith|]. split; [reflexivity|].
        rewrite (loop_body_alive E s _ i Ai T).
        rewrite handle_key_playing by (fields; auto).
        rewrite clock_increment_playing by (fields; auto).
        reflexivity. }
    destruct L as (a & txt & res & T24 & T25 & L).
    cbn [run]. rewrite L.
    match goal with |- context [run E ?t rest] => set (s1 := t) end.
    assert (C1 : clock s1 = clock s + 1) by reflexivity.
    destruct (IH s1 Hs Go Ou Su ltac:(arith) ltac:(arith) Ar)
      as (s' & R & C & M & Rd & G).
    exists s'. split; [exact R|].
    split; [cbn [List.length]; arith|].
    split; [rewrite M; reflexivity|].
    split; [rewrite Rd; reflexivity|].
    intros H. apply G. left. subst s1. fields.
    assert (P : clock s <= 24 \/ clock s = 25) by arith.
    destruct P as [P|P]; [exact (T24 P)|].
    rewrite (T25 P). destruct H as [H|[_ H]]; [exact H|exfalso; arith].
Qed.

(** C9. When the capture tick of an execution finds no hand, the iteration
    marks the round unresolved and records no move. Over the ten iterations
    that follow (the resolve window and the checkpoint) the scores, the
    innings, the batting side, the target, [is_out] and [game_over] stay as
    they were and the retry message is shown; the eleventh resets the clock
    to 0, so that the next iteration opens a new round. *)
Theorem missed_capture (s : State) (i : Input) :
  reachable E s -> clock s = 15 -> no_hand i -> alive i = true ->
  exists s16,
    loop_body E s i = Continue s16
    /\ clock s16 = 16 /\ success s16 = false
    /\ player_move s16 = None /\ computer_move s16 = None
    /\ match_state s16 = match_state s
    /\ (forall frames,
          forallb alive frames = true -> (List.length frames <= 10)%nat ->
          exists s',
            run E s16 frames = Continue s'
            /\ clock s' = 16 + Z.of_nat (List.length frames)
            /\ match_state s' = match_state s
            /\ success s' = false
            /\ player_move s' = None /\ computer_move s' = None
            /\ round_num s' = round_num s
            /\ scored_this_round s' = scored_this_round s
            /\ (frames <> [] -> gametext s' = retry_message))
    /\ (forall frames,
          forallb alive frames = true -> List.length frames = 11%nat ->
          exists s',
            run E s16 frames = Continue s'
            /\ clock s' = 0 /\ starts_round s' = true
            /\ match_state s' = match_state s
            /\ success s' = true
            /\ player_move s' = None /\ computer_move s' = None
            /\ round_num s' = round_num s).
Proof.
  intros Re Hc Nh Ai.
  pose proof (reachable_invariant E s Re) as I.
  assert (Hs : game_started s = true).
  { destruct (game_started s) eqn:G; [reflexivity|].
    pose proof (inv_idle s I G). exfalso. arith. }
  destruct (inv_early s I ltac:(arith)) as [Go Ou].
  destruct (inv_fresh s I ltac:(arith)) as (Pm & Cm & _).
  assert (Pn : player_move s = None) by (destruct (player_move s); [discriminate|reflexivity]).
  assert (Cn : computer_move s = None) by (destruct (computer_move s); [discriminate|reflexivity]).
  clear Pm Cm.
  assert (T : exists a, tick E s i = Some (set_success false (set_audio a s))).
  { rewrite tick_capture by assumption.
    destruct (sound_management_audio E s) as [a ->]. exists a.
    unfold capture. unfold no_hand in Nh. rewrite Nh. reflexivity. }
  destruct T as (a & T).
  eexists. split.
  { rewrite (loop_body_alive E s _ i Ai T).
    rewrite handle_key_playing by (fields; auto).
    rewrite clock_increment_playing by (fields; auto).
    reflexivity. }
  fields. rewrite Hc.
  split; [reflexivity|]. split; [reflexivity|].
  split; [exact Pn|]. split; [exact Cn|]. split; [reflexivity|].
  match goal with |- context [run E ?t _] => set (s16 := t) end.
  assert (U : forall frames,
            forallb alive frames = true -> (List.length frames <= 10)%nat ->
            exists s',
              run E s16 frames = Continue s'
              /\ clock s' = 16 + Z.of_nat (List.length frames)
              /\ match_state s' = match_state s
              /\ round_state s' = round_state s16
              /\ (frames <> [] -> gametext s' = retry_message)).
  { intros frames Ha Hl.
    destruct (unresolved_run frames s16) as (s' & R & C & M & Rd & G);
      subst s16; fields; auto; try arith.
    exists s'. repeat split; try assumption.
    intros N. apply G. right. split; [exact N|arith]. }
  split.
  - intros frames Ha Hl.
    destruct (U frames Ha Hl) as (s' & R & C & M & Rd & G).
    exists s'. split; [exact R|]. split; [exact C|]. split; [exact M|].
    unfold round_state in Rd. subst s16. fields.
    injection Rd as _ Rn Sc Su Pm Cm.
    split; [exact Su|]. split; [congruence|]. split; [congruence|].
    split; [exact Rn|]. split; [exact Sc|]. exact G.
  - intros frames Ha Hl.
    assert (N : frames <> []) by (intros ->; discriminate).
    destruct (exists_last N) as (first & j & ->).
    rewrite forallb_app in Ha. apply andb_true_iff in Ha.
    destruct Ha as [Af Aj]. cbn [forallb] in Aj. rewrite andb_true_r in Aj.
    rewrite length_app in Hl. cbn [List.length] in Hl.
    destruct (U first Af ltac:(arith)) as (s26 & R & C & M & Rd & _).
    rewrite run_app, R. cbn [run].
    unfold round_state in Rd. unfold match_state in M. subst s16. fields.
    injection Rd as St Rn Sc Su Pm Cm.
    injection M as Ps Cs In Ba Ta Ou' Go'.
    assert (T' : exists a',
              tick E s26 j =
              Some (set_success true (set_computer_move None
                      (set_player_move None (set_gameresult ""
                         (set_gametext "" (set_clock (-1)
                            (set_audio a' s26)))))))).
    { rewrite tick_auto_advance by (try congruence; arith).
      destruct (sound_management_audio E s26) as [a' ->]. exists a'.
      unfold auto_advance. fields. rewrite Go', Go. reflexivity. }
    destruct T' as (a' & T').
    rewrite (loop_body_alive E s26 _ j Aj T').
    rewrite handle_key_playing by (fields; congruence).
    rewrite clock_increment_playing by (fields; congruence).
    eexists. split; [reflexivity|]. unfold starts_round, match_state. fields.
    rewrite St, Hs, Ps, Cs, In, Ba, Ta, Ou', Go', Rn.
    repeat split.
Qed.

End MissedCapture.

(** ** The theorems at work on concrete matches *)

Lemma reachable_state_after (frames : list Input) (s : State) :
  run studio initial_state frames = Continue s ->
  reachable studio (state_after frames).
Proof.
  intros R. unfold state_after. rewrite R.
  exact (run_reachable studio frames initial_state s
           (reachable_initial studio) R).
Qed.

(** Thumb and two fingers up: the sum 8 is clamped to 6. *)
Lemma get_hand_run_clamped_sum_witness :
  exists r,
    get_hand_run (pose true 2) "Right" = Some r
    /\ r = Z.max 1 (Z.min 6 (raw_sum (pose true 2)))
    /\ 1 <= r <= 6
    /\ (raw_sum (pose true 2) = 0 -> r = 1)
    /\ (6 < raw_sum (pose true 2) -> r = 6).
Proof.
  apply (get_hand_run_clamped_sum (pose true 2) "Right"). reflexivity.
Defined.

Lemma get_hand_run_thumb_six_witness :
  get_hand_run (pose true 2) "Left" = Some 6.
Proof.
  apply (get_hand_run_thumb_six (pose true 2) "Left"); reflexivity.
Defined.

(** The third round of the first innings: 1 against 1, applied at clock 16;
    [game_over] is still false at clock 25 and after the hand-over. *)
Lemma dismissal_tick_witness :
  exists s1 s25 s26,
    tick studio (state_after first_innings) quiet_frame = Some s1
    /\ is_out s1 = true /\ game_over s1 = false
    /\ run studio (state_after first_innings) (idle 9) = Continue s25
    /\ clock s25 = 25 /\ is_out s25 = true /\ game_over s25 = false
    /\ loop_body studio s25 quiet_frame = Continue s26
    /\ game_over s26 = false /\ innings s26 = 2 /\ target s26 = Some 8.
Proof.
  destruct (dismissal_tick studio (state_after first_innings) quiet_frame)
    as (s1 & T & O & G & _ & _ & _ & W);
    [reflexivity|vm_compute; split; reflexivity|reflexivity|reflexivity
    |reflexivity|].
  destruct (W eq_refl (idle 8)) as (s25 & R & C25 & O25 & G25 & _ & _ & K);
    [reflexivity|vm_compute; discriminate|].
  destruct (K C25 quiet_frame eq_refl) as (s26 & L & G26 & I26 & T26).
  exists s1, s25, s26.
  split; [exact T|]. split; [exact O|].
  split.
  { destruct (game_over s1); [|reflexivity].
    destruct G as [G _]. specialize (G eq_refl). vm_compute in G.
    discriminate G. }
  split; [exact R|]. split; [exact C25|]. split; [exact O25|].
  split; [exact G25|]. split; [exact L|]. split; [exact G26|].
  split; [exact I26|exact T26].
Defined.

(** The first round: the player, batting, shows 6 against a 2. *)
Lemma scoring_tick_witness :
  exists s1,
    tick studio (state_after (opening (shows true 0) 1)) quiet_frame = Some s1
    /\ player_score s1 = 6 /\ computer_score s1 = 0.
Proof.
  destruct (scoring_tick studio (state_after (opening (shows true 0) 1))
              quiet_frame)
    as (p & c & s1 & Pm & _ & T & B & _);
    [apply (reachable_state_after _ (state_after (opening (shows true 0) 1)));
     vm_compute; reflexivity
    |reflexivity|vm_compute; split; reflexivity|reflexivity|reflexivity
    |vm_compute; discriminate|].
  destruct (B eq_refl) as (P & _ & C).
  vm_compute in Pm. injection Pm as <-.
  exists s1. split; [exact T|]. split; [exact P|exact C].
Defined.

(** Scenario B: the computer, on 3 and chasing 8, draws 6 against a 2. *)
Lemma chase_success_witness :
  exists s1 s25 s26,
    tick studio (state_after chase) quiet_frame = Some s1
    /\ computer_score s1 = 9 /\ player_score s1 = 8
    /\ is_out s1 = true /\ game_over s1 = true
    /\ run studio (state_after chase) (idle 9) = Continue s25
    /\ clock s25 = 25 /\ finalizes s25 = true
    /\ tick studio s25 quiet_frame = Some s26
    /\ announced s26 = Some Loss.
Proof.
  destruct (chase_success studio (state_after chase) quiet_frame 2 6)
    as (s1 & T & C & P & O & G & _ & W);
    [reflexivity|vm_compute; split; reflexivity|reflexivity|reflexivity
    |reflexivity|reflexivity|reflexivity|reflexivity|discriminate
    |reflexivity|].
  destruct (W (idle 8)) as (s25 & R & C25 & _ & _ & F & K);
    [reflexivity|reflexivity|].
  destruct (K quiet_frame) as (s26 & T26 & _ & A).
  exists s1, s25, s26.
  split; [exact T|]. split; [exact C|]. split; [exact P|].
  split; [exact O|]. split; [exact G|]. split; [exact R|].
  split; [exact C25|]. split; [exact F|]. split; [exact T26|exact A].
Defined.

(** Scenario B frame by frame: the chase sets [game_over] at clock 16, the
    run reaches clock 25 with the guard of the finalize branch true, and the
    tick there replaces the announcement and plays the [lose] sound. *)
Lemma chase_reaches_finalize :
  exists s17 s25 s26,
    is_player_batting (state_after chase) = false
    /\ innings (state_after chase) = 2
    /\ computer_score (state_after chase) = 3
    /\ computer_move (state_after chase) = Some 6
    /\ loop_body studio (state_after chase) quiet_frame = Continue s17
    /\ computer_score s17 = 9 /\ player_score s17 = 8
    /\ game_over s17 = true
    /\ run studio s17 (idle 8) = Continue s25
    /\ clock s25 = 25
    /\ gametext s25 = "Computer Won! They chased the target of 9!"
    /\ finalizes s25 = true
    /\ tick studio s25 quiet_frame = Some s26
    /\ gametext s26 = "You Lost the Game! Press 'N' to restart"
    /\ mixer (audio s26) = EventPlay "lose" :: mixer (audio s25).
Proof.
  do 3 eexists.
  do 4 (split; [reflexivity|]).
  split; [vm_compute; reflexivity|].
  do 3 (split; [reflexivity|]).
  split; [vm_compute; reflexivity|].
  do 3 (split; [reflexivity|]).
  split; [vm_compute; reflexivity|].
  split; reflexivity.
Qed.

(** The checkpoint that ends the first innings, on 8 runs. *)
Lemma innings_transition_witness :
  exists s1,
    tick studio (state_after (first_innings ++ idle 9)) quiet_frame = Some s1
    /\ target s1 = Some 8
    /\ is_player_batting s1 = false /\ is_out s1 = false
    /\ innings s1 = 2 /\ game_over s1 = false.
Proof.
  destruct (innings_transition studio (state_after (first_innings ++ idle 9))
              quiet_frame)
    as (s1 & T & Ta & B & O & I & G & _);
    [reflexivity|reflexivity|reflexivity|reflexivity|].
  exists s1. split; [exact T|]. split; [exact Ta|]. split; [exact B|].
  split; [exact O|]. split; [exact I|exact G].
Defined.

(** The checkpoint of the deciding round of scenario B: 8 against 9. *)
Lemma match_finalization_witness :
  exists s1,
    tick studio (state_after (chase ++ idle 9)) quiet_frame = Some s1
    /\ game_over s1 = true /\ announced s1 = Some Loss.
Proof.
  destruct (match_finalization studio (state_after (chase ++ idle 9))
              quiet_frame)
    as (s1 & r & T & G & A & _ & L & _);
    [reflexivity|reflexivity|reflexivity|reflexivity|].
  exists s1. split; [exact T|]. split; [exact G|].
  rewrite A. f_equal. apply L. reflexivity.
Defined.

(** In the second innings of scenario B the target is set, and the [n] key
    after the match clears it as the innings goes back to 1. *)
Lemma target_iff_second_innings_witness :
  (exists t, target (state_after chase) = Some t)
  /\ innings (state_after lost_match) = 2
  /\ exists s',
       loop_body studio (state_after lost_match)
         (frame nobody 0 (ord "n"%char)) = Continue s'
       /\ target s' = None /\ innings s' = 1.
Proof.
  split; [|split; [reflexivity|]].
  - destruct (target_iff_second_innings studio (state_after chase))
      as ((_ & H) & _);
      [apply (reachable_state_after _ (state_after chase));
       vm_compute; reflexivity|].
    specialize (H eq_refl).
    destruct (target (state_after chase)) as [t|]; [exists t; reflexivity|].
    exfalso. apply H. reflexivity.
  - destruct (target_iff_second_innings studio (state_after lost_match))
      as (_ & H);
      [apply (reachable_state_after _ (state_after lost_match));
       vm_compute; reflexivity|].
    destruct (loop_body studio (state_after lost_match)
                (frame nobody 0 (ord "n"%char))) as [s'| |] eqn:L;
      try (vm_compute in L; discriminate L).
    specialize (H (frame nobody 0 (ord "n"%char)) s' L).
    replace (restarts studio (state_after lost_match)
               (frame nobody 0 (ord "n"%char))) with true in H
      by (vm_compute; reflexivity).
    exists s'. split; [reflexivity|exact H].
Defined.

(** The first capture of a match finds no hand. *)
Lemma missed_capture_witness :
  exists s16 s0,
    loop_body studio
      (state_after (frame nobody 0 (ord "s"%char) :: idle 14)) quiet_frame
    = Continue s16
    /\ success s16 = false /\ player_move s16 = None
    /\ run studio s16 (idle 11) = Continue s0
    /\ clock s0 = 0 /\ starts_round s0 = true
    /\ match_state s0 = match_state initial_state.
Proof.
  destruct (missed_capture studio
              (state_after (frame nobody 0 (ord "s"%char) :: idle 14))
              quiet_frame)
    as (s16 & L & _ & Su & Pm & _ & _ & _ & W);
    [apply (reachable_state_after _
              (state_after (frame nobody 0 (ord "s"%char) :: idle 14)));
     vm_compute; reflexivity
    |reflexivity|reflexivity|reflexivity|].
  destruct (W (idle 11)) as (s0 & R & C & St & M & _);
    [reflexivity|reflexivity|].
  exists s16, s0. split; [exact L|]. split; [exact Su|]. split; [exact Pm|].
  split; [exact R|]. split; [exact C|]. split; [exact St|exact M].
Defined.

(** The second round of a match, from its clock-0 iteration to its
    auto-advance, twenty-seven iterations with nine in the resolve window:
    one of them raises the flag, the tick at clock 16, which adds the
    player's 2 to the 6 of the first round; the tick at clock 17 adds
    nothing. *)
Lemma outcome_applied_once_per_round_witness :
  (outcome_applications studio
     (state_after (opening (shows true 0) 1 ++ rest_of_round))
     (later_round (shows false 2) 0) <= 1)%nat
  /\ (exists s1,
        tick studio
          (state_after
             (opening (shows true 0) 1 ++ rest_of_round
              ++ idle 15 ++ [frame (shows false 2) 0 (-1)]))
          quiet_frame = Some s1
        /\ player_score s1 = 6 + 2 /\ computer_score s1 = 0)
  /\ (exists s1,
        tick studio
          (state_after
             (opening (shows true 0) 1 ++ rest_of_round
              ++ idle 15 ++ [frame (shows false 2) 0 (-1)] ++ idle 1))
          quiet_frame = Some s1
        /\ player_score s1 = 8 /\ computer_score s1 = 0).
Proof.
  destruct (outcome_applied_once_per_round studio
              (state_after (opening (shows true 0) 1 ++ rest_of_round))
              (later_round (shows false 2) 0)) as [Once Each];
    [vm_compute; reflexivity|].
  split; [exact Once|]. split.
  - destruct (tick studio
                (state_after
                   (opening (shows true 0) 1 ++ rest_of_round
                    ++ idle 15 ++ [frame (shows false 2) 0 (-1)]))
                quiet_frame) as [s1|] eqn:T;
      [|vm_compute in T; discriminate T].
    pose proof (Each (idle 15 ++ [frame (shows false 2) 0 (-1)])%list
                  (idle 10) quiet_frame _ s1 eq_refl
                  ltac:(vm_compute; reflexivity) T) as H.
    replace (applies_outcome studio _ quiet_frame) with true in H
      by (vm_compute; reflexivity).
    exists s1. split; [reflexivity|].
    destruct H as [(M & _)|(_ & r & Pm & P & C)];
      [vm_compute in M; discriminate M|].
    vm_compute in Pm. injection Pm as <-.
    rewrite P, C. vm_compute. split; reflexivity.
  - destruct (tick studio
                (state_after
                   (opening (shows true 0) 1 ++ rest_of_round
                    ++ idle 15 ++ [frame (shows false 2) 0 (-1)] ++ idle 1))
                quiet_frame) as [s1|] eqn:T;
      [|vm_compute in T; discriminate T].
    pose proof (Each (idle 15 ++ [frame (shows false 2) 0 (-1)] ++ idle 1)%list
                  (idle 9) quiet_frame _ s1 eq_refl
                  ltac:(vm_compute; reflexivity) T) as H.
    replace (applies_outcome studio _ quiet_frame) with false in H
      by (vm_compute; reflexivity).
    exists s1. split; [reflexivity|].
    destruct H as (P & C & _). rewrite P, C. vm_compute. split; reflexivity.
Defined.

(** ** More on the classifier: short poses and the values it can return *)

Lemma get_hand_run_long (lm : list Landmark.t) (handedness : string) :
  (21 <= List.length lm)%nat ->
  get_hand_run lm handedness = Some (Z.max 1 (Z.min 6 (raw_sum lm))).
Proof.
  intros Hlen. unfold get_hand_run.
  assert (R : forall a b i j, (nth i a 0 < 21)%nat -> (nth j b 0 < 21)%nat ->
            y_lt lm a i b j =
            Some (PrimFloat.ltb (vertical lm (nth i a 0%nat))
                    (vertical lm (nth j b 0%nat)))).
  { intros a b i j Ha Hb.
    apply y_lt_in_range; eapply Nat.lt_le_trans; eassumption. }
  cbn [seq other_fingers].
  rewrite !R by (cbn; lia).
  unfold raw_sum, thumb_extended, finger_extended, weight.
  cbn [nth tip_ids pip_ids].
  destruct (PrimFloat.ltb (vertical lm 4) (vertical lm 3));
  destruct (PrimFloat.ltb (vertical lm 4) (vertical lm 8));
  destruct (PrimFloat.ltb (vertical lm 4) (vertical lm 12));
  destruct (PrimFloat.ltb (vertical lm 4) (vertical lm 16));
  destruct (PrimFloat.ltb (vertical lm 8) (vertical lm 6));
  destruct (PrimFloat.ltb (vertical lm 12) (vertical lm 10));
  destruct (PrimFloat.ltb (vertical lm 16) (vertical lm 14));
  destruct (PrimFloat.ltb (vertical lm 20) (vertical lm 18));
  reflexivity.
Qed.

Lemma get_hand_run_short (lm : list Landmark.t) (handedness : string) :
  (List.length lm < 21)%nat -> get_hand_run lm handedness = None.
Proof.
  intros Hlen. unfold get_hand_run.
  assert (P : y_lt lm tip_ids 4 pip_ids 4 = None).
  { unfold y_lt, y_at. cbn [nth tip_ids].
    replace (nth_error lm 20) with (@None Landmark.t);
      [reflexivity|].
    symmetry. apply nth_error_None. lia. }
  destruct (y_lt lm tip_ids 0 pip_ids 0 &&& y_lt lm tip_ids 0 tip_ids 1
            &&& y_lt lm tip_ids 0 tip_ids 2 &&& y_lt lm tip_ids 0 tip_ids 3)
    as [thumb|]; [|reflexivity].
  cbn [bind seq other_fingers].
  destruct (y_lt lm tip_ids 1 pip_ids 1); [|reflexivity]. cbn [bind].
  destruct (y_lt lm tip_ids 2 pip_ids 2); [|reflexivity]. cbn [bind].
  destruct (y_lt lm tip_ids 3 pip_ids 3); [|reflexivity]. cbn [bind].
  rewrite P. reflexivity.
Qed.

Lemma get_hand_run_raises_short (lm : list Landmark.t) (handedness : string) :
  get_hand_run lm handedness = None -> (List.length lm < 21)%nat.
Proof.
  intros H. destruct (Nat.lt_ge_cases (List.length lm) 21) as [L|L];
    [exact L|].
  rewrite (get_hand_run_long lm handedness L) in H. discriminate.
Qed.

(** X1. The classifier raises (an [IndexError]) exactly on a pose of fewer
    than 21 landmarks: whatever the thumb test short-circuits, the pinky tip,
    landmark 20, is always read. *)
Theorem get_hand_run_raises_iff_short (lm : list Landmark.t)
    (handedness : string) :
  get_hand_run lm handedness = None <-> (List.length lm < 21)%nat.
Proof.
  split.
  - apply get_hand_run_raises_short.
  - apply get_hand_run_short.
Qed.

Lemma get_hand_run_gesture (lm : list Landmark.t) (handedness : string) :
  gesture_value (get_hand_run lm handedness) = true.
Proof.
  destruct (Nat.lt_ge_cases (List.length lm) 21) as [L|L].
  - rewrite (get_hand_run_short lm handedness L). reflexivity.
  - rewrite (get_hand_run_long lm handedness L).
    unfold raw_sum, weight.
    destruct (thumb_extended lm), (finger_extended lm 8 6),
      (finger_extended lm 12 10), (finger_extended lm 16 14),
      (finger_extended lm 20 18); reflexivity.
Qed.

(** X2. Whatever the pose, the classifier never answers 5: its values are
    1, 2, 3, 4 and 6, the values the opponent draws from. *)
Theorem get_hand_run_never_five (lm : list Landmark.t) (handedness : string)
    (r : Z) :
  get_hand_run lm handedness = Some r -> In r [1; 2; 3; 4; 6].
Proof.
  intros H. pose proof (get_hand_run_gesture lm handedness) as G.
  rewrite H in G. cbn [gesture_value existsb] in G. cbn [In]. lia.
Qed.

(** X3. On a pose of at least 21 landmarks the answer is 6 exactly when the
    thumb test passes; without the thumb it is the number of raised fingers,
    a closed fist counting as 1. *)
Theorem get_hand_run_six_iff_thumb (lm : list Landmark.t)
    (handedness : string) :
  (21 <= List.length lm)%nat ->
  (get_hand_run lm handedness = Some 6 <-> thumb_extended lm = true)
  /\ (thumb_extended lm = false ->
      get_hand_run lm handedness =
      Some (Z.max 1 (weight (finger_extended lm 8 6) 1
                     + weight (finger_extended lm 12 10) 1
                     + weight (finger_extended lm 16 14) 1
                     + weight (finger_extended lm 20 18) 1))).
Proof.
  intros L. rewrite (get_hand_run_long lm handedness L).
  unfold raw_sum, weight.
  destruct (thumb_extended lm), (finger_extended lm 8 6),
    (finger_extended lm 12 10), (finger_extended lm 16 14),
    (finger_extended lm 20 18); cbn;
    (split; [split; intros H; try reflexivity; try discriminate
            |intros H; try reflexivity; try discriminate]).
Qed.

(** ** The ledger is kept *)

(** One clause of the ledger at a time, from the clauses it depends on. *)
Ltac forget_moves :=
  repeat match goal with
  | H : In _ _ |- _ => clear H
  | H : gesture_value _ = true |- _ => clear H
  | H : 1 <= _ <= 6 |- _ => clear H
  end.

Ltac ledger_clauses I1 I2 I3 I4 I5 I6 I7 I8 B1 B2 B3 B4 B5 B6 B7 B8 B9 B10 B11 :=
  clear I3 I5 I7 I8;
  constructor;
  [ clear B3 B4 B5 B6 B7 B8 B9 B10 B11 I4 I6; forget_moves
  | clear B3 B4 B5 B6 B7 B8 B9 B10 B11 I4 I6; forget_moves
  | clear B1 B2 B5 B6 B7 B8 B9 B10 B11 I6; forget_moves
  | clear B1 B2 B3 B5 B6 B7 B8 B9 B10 B11 I2 I6; forget_moves
  | clear B1 B2 B3 B4 B6 B7 B8 B11 I2 I4 I6
  | clear B1 B2 B3 B4 B5 B7 B8 B9 B10 B11 I2; forget_moves
  | clear B1 B2 B3 B4 B5 B6 B8 B9 B10 B11 I2; forget_moves
  | clear B1 B2 B3 B4 B7 B9 B10 B11 I2; forget_moves
  | clear B1 B2 B3 B4 B5 B6 B7 B8 B10 B11 I2 I4 I6
  | clear B1 B2 B3 B4 B5 B6 B7 B8 B9 B11 I2 I4 I6
  | clear B1 B2 B3 B4 B5 B6 B7 B8 B9 B10 I2 I4 I6; forget_moves ];
  unfold target_is_score, gesture_value in *; fields;
  repeat match goal with
  | H : player_move _ = Some _ |- _ => rewrite H in *; clear H
  | H : computer_move _ = Some _ |- _ => rewrite H in *; clear H
  end;
  cbn [In existsb] in *;
  first [assumption | reflexivity | lia].

Section Ledger.

Variable E : Env.

Lemma ledger_initial : ledger initial_state.
Proof.
  constructor; cbn; lia.
Qed.

(** Away from the capture a tick keeps the player's move or clears it; the
    capture stores what the classifier returned. *)
Lemma tick_player_move_kept (s s1 : State) (i : Input) :
  tick E s i = Some s1 ->
  game_started s = false \/ clock s <> 15 ->
  player_move s1 = player_move s \/ player_move s1 = None.
Proof.
  intros T H.
  tick_cases E s s1 T; fields; auto;
    exfalso; destruct H as [H|H]; congruence.
Qed.

Lemma tick_player_move (s s1 : State) (i : Input) :
  tick E s i = Some s1 ->
  gesture_value (player_move s) = true ->
  gesture_value (player_move s1) = true.
Proof.
  intros T G.
  destruct (game_started s) eqn:Hs;
    [destruct (Z.eq_dec (clock s) 15) as [C|C]|].
  - rewrite tick_capture in T by assumption.
    destruct (sound_management_audio E s) as [a Ha]. rewrite Ha in T.
    unfold capture, bind in T.
    destruct (hand_landmarks (detection_result i)) as [|hand ?].
    + inversion T. exact G.
    + destruct (handedness (detection_result i)) as [|[|c ?] ?];
        try discriminate.
      pose proof (get_hand_run_gesture hand (category_name c)) as V.
      destruct (get_hand_run hand (category_name c)); [|discriminate].
      inversion T. exact V.
  - destruct (tick_player_move_kept s s1 i T (or_intror C)) as [-> | ->];
      [exact G|reflexivity].
  - destruct (tick_player_move_kept s s1 i T (or_introl Hs)) as [-> | ->];
      [exact G|reflexivity].
Qed.

Lemma tick_ledger (s s1 : State) (i : Input) :
  invariant s -> ledger s -> tick E s i = Some s1 -> ledger_mid s1.
Proof.
  intros I B T.
  pose proof (tick_player_move s s1 i T (led_player_move s B)) as PM.
  revert I B PM.
  tick_cases E s s1 T;
    intros [I1 I2 I3 I4 I5 I6 I7 I8] [B1 B2 B3 B4 B5 B6 B7 B8 B9 B10 B11] PM;
    ledger_clauses I1 I2 I3 I4 I5 I6 I7 I8 B1 B2 B3 B4 B5 B6 B7 B8 B9 B10 B11.
Qed.


Ltac ledger_after_keys B1 B2 B3 B4 B5 B6 B7 B8 B9 B10 B11 :=
  constructor;
  [ clear B3 B4 B5 B6 B7 B8 B9 B10 B11
  | clear B3 B4 B5 B6 B7 B8 B9 B10 B11
  | clear B1 B2 B5 B6 B7 B8 B9 B10 B11
  | clear B1 B2 B3 B5 B6 B7 B8 B9 B10 B11
  | clear B1 B2 B3 B4 B6 B7 B8 B9 B10 B11
  | clear B1 B2 B3 B4 B5 B7 B8 B9 B10 B11
  | clear B1 B2 B3 B4 B5 B6 B8 B9 B10 B11
  | clear B1 B2 B3 B4 B5 B6 B7 B9 B10 B11
  | clear B1 B2 B3 B4 B5 B6 B7 B8 B10 B11
  | clear B1 B2 B3 B4 B5 B6 B7 B8 B9 B11
  | clear B1 B2 B3 B4 B5 B6 B7 B8 B9 B10 ];
  unfold target_is_score, gesture_value in *; fields;
  first [assumption | reflexivity | lia].

Lemma keys_and_clock_ledger (k : Z) (s : State) :
  settled s -> ledger_mid s -> ledger (clock_increment (handle_key E k s)).
Proof.
  intros [M1 M2 _ _ _ _ _ _] [B1 B2 B3 B4 B5 B6 B7 B8 B9 B10 B11].
  unfold handle_key.
  destruct ((k =? ord "s"%char) && negb (game_started s)) eqn:K1.
  - apply andb_true_iff in K1. destruct K1 as [_ K1].
    apply negb_true_iff in K1.
    pose proof (M1 K1) as C0.
    assert (C15 : clock s <= 15) by (clear - C0; lia).
    pose proof (M2 C15) as [G O]. clear M1 M2.
    unfold start_game, clock_increment. fields. rewrite G. fields.
    ledger_after_keys B1 B2 B3 B4 B5 B6 B7 B8 B9 B10 B11.
  - destruct ((k =? ord "n"%char) && game_over s) eqn:K2.
    + destruct (restart_game_audio E s) as [a ->].
      unfold clock_increment. fields. clear M1 M2.
      ledger_after_keys B1 B2 B3 B4 B5 B6 B7 B8 B9 B10 B11.
    + clear K1 K2. unfold clock_increment.
      destruct (game_started s && negb (game_over s)) eqn:C1;
        [|destruct (game_started s && game_over s && (clock s <=? 50)) eqn:C2];
        ledger_after_keys B1 B2 B3 B4 B5 B6 B7 B8 B9 B10 B11.
Qed.

Lemma reachable_ledger (s : State) : reachable E s -> ledger s.
Proof.
  induction 1 as [|s s' i R IH L].
  - exact ledger_initial.
  - pose proof (reachable_invariant E s R) as I.
    apply loop_body_continue in L. destruct L as (s1 & T & _ & ->).
    apply keys_and_clock_ledger.
    + exact (tick_settled E s s1 i I T).
    + exact (tick_ledger s s1 i I IH T).
Qed.

(** The ledger between the tick and the keys of an iteration of an
    execution: the state [draw_game_ui] is called with. *)
Lemma reachable_ledger_mid (s s1 : State) (i : Input) :
  reachable E s -> tick E s i = Some s1 -> settled s1 /\ ledger_mid s1.
Proof.
  intros R T. pose proof (reachable_invariant E s R) as I. split.
  - exact (tick_settled E s s1 i I T).
  - exact (tick_ledger s s1 i I (reachable_ledger s R) T).
Qed.

End Ledger.

(** ** What the ledger says about an execution *)

Section Execution.

Variable E : Env.

(** X4. At the top of every iteration of an execution the clock lies between
    0 and 51, and while the match is not over it does not pass 26. *)
Theorem clock_range (s : State) :
  reachable E s ->
  0 <= clock s <= 51 /\ (game_over s = false -> clock s <= 26).
Proof.
  intros R. pose proof (reachable_ledger E s R) as L.
  split; [exact (led_clock s L)|exact (led_playing s L)].
Qed.

(** X5. In an execution the batting side is a function of the innings, and
    there are only two innings. *)
Theorem batting_follows_innings (s : State) :
  reachable E s ->
  (innings s = 1 \/ innings s = 2)
  /\ is_player_batting s = (innings s =? 1).
Proof.
  intros R. pose proof (reachable_invariant E s R) as I.
  split; [exact (inv_innings s I)|exact (inv_batting s I)].
Qed.

(** X6. In an execution [game_over] is set exactly when the batting side is
    out in innings 2; the match is then past clock 16 with its outcome
    applied. *)
Theorem game_over_iff_out_in_second (s : State) :
  reachable E s ->
  (game_over s = true <-> is_out s = true /\ innings s = 2)
  /\ (game_over s = true ->
      game_started s = true /\ scored_this_round s = true /\ 17 <= clock s).
Proof.
  intros R. pose proof (reachable_ledger E s R) as L.
  pose proof (reachable_invariant E s R) as I.
  split.
  - split.
    + intros G. destruct (led_over s L G) as (O & N & _). auto.
    + intros [O N]. exact (led_out s L O N).
  - intros G. destruct (led_over s L G) as (_ & _ & Sc & C).
    split; [|auto].
    destruct (game_started s) eqn:St; [reflexivity|].
    pose proof (inv_idle s I St). exfalso. arith.
Qed.

(** X7. The books of an execution: the scores are never negative, the
    computer has no run in innings 1, and in innings 2 the target is the
    player's score, which no longer moves. *)
Theorem scores_and_target (s : State) :
  reachable E s ->
  0 <= player_score s /\ 0 <= computer_score s
  /\ (innings s = 1 -> computer_score s = 0 /\ target s = None)
  /\ (innings s = 2 -> target s = Some (player_score s)).
Proof.
  intros R. pose proof (reachable_ledger E s R) as L.
  pose proof (reachable_invariant E s R) as I.
  destruct (led_scores s L) as [P C].
  split; [exact P|]. split; [exact C|]. split.
  - intros N. split; [exact (led_first s L N)|].
    pose proof (inv_target s I) as T. rewrite N in T.
    destruct (target s); [discriminate T|reflexivity].
  - intros N. pose proof (led_target s L N) as T.
    unfold target_is_score in T.
    destruct (target s) as [t|]; [|discriminate].
    f_equal. clear - T. lia.
Qed.

(** X8. In an execution the computer's score passes the player's only as
    the match ends: while [game_over] is false the computer does not lead. *)
Theorem computer_leads_only_at_the_end (s : State) :
  reachable E s ->
  player_score s < computer_score s ->
  game_over s = true /\ innings s = 2.
Proof.
  intros R Lt. pose proof (reachable_ledger E s R) as L.
  pose proof (reachable_invariant E s R) as I.
  destruct (inv_innings s I) as [N|N].
  - pose proof (led_first s L N). destruct (led_scores s L). exfalso. arith.
  - split; [|exact N].
    destruct (game_over s) eqn:G; [reflexivity|].
    pose proof (led_chase s L N G). exfalso. arith.
Qed.

(** X9. In an execution the two moves are captured together, and neither is
    ever 5: each is absent or one of 1, 2, 3, 4, 6. *)
Theorem moves_never_five (s : State) :
  reachable E s ->
  (player_move s = None /\ computer_move s = None)
  \/ (exists p c,
        player_move s = Some p /\ computer_move s = Some c
        /\ In p [1; 2; 3; 4; 6] /\ In c [1; 2; 3; 4; 6]).
Proof.
  intros R. pose proof (reachable_ledger E s R) as L.
  pose proof (led_player_move s L) as P.
  pose proof (led_computer_move s L) as C.
  pose proof (led_both s L) as B.
  destruct (player_move s) as [p|], (computer_move s) as [c|];
    cbn [is_none] in B; try discriminate.
  - right. exists p, c. cbn [gesture_value existsb] in P, C. cbn [In].
    repeat split; clear - P C; lia.
  - left. split; reflexivity.
Qed.

End Execution.

(** ** The round timer, the keys and the end of the match *)

Section Timer.

Variable E : Env.

(** Once the match is over, a tick only touches the display and the sound. *)
Lemma over_tick (s : State) (i : Input) :
  reachable E s -> game_over s = true ->
  exists s1,
    tick E s i = Some s1
    /\ game_started s1 = true /\ game_over s1 = true
    /\ clock s1 = clock s
    /\ match_state s1 = match_state s
    /\ round_state s1 = round_state s.
Proof.
  intros R G.
  pose proof (reachable_ledger E s R) as L.
  destruct (led_over s L G) as (O & N & Sc & C).
  pose proof (led_clock s L) as [_ C51].
  assert (Hs : game_started s = true)
    by (apply (started_off_zero E s R); arith).
  assert (P : clock s < 25 \/ clock s = 25 \/ 25 < clock s) by arith.
  destruct P as [P|[P|P]].
  - destruct (quiet_tick E s i Hs ltac:(arith) (or_intror Sc))
      as (a & res & T).
    eexists. split; [exact T|]. unfold match_state, round_state. fields.
    repeat split; assumption.
  - rewrite tick_checkpoint by assumption.
    destruct (sound_management_audio E s) as [a ->].
    destruct (checkpoint_cases E (set_audio a s))
      as [(O' & _)|[(_ & N' & _)|(_ & _ & a' & ->)]]; fields.
    + congruence.
    + exfalso. clear - N N'. lia.
    + eexists. split; [reflexivity|].
      unfold match_state, round_state. fields. rewrite G.
      repeat split; assumption.
  - rewrite tick_auto_advance by assumption.
    destruct (sound_management_audio E s) as [a ->].
    unfold auto_advance. fields. rewrite G. cbn [negb].
    eexists. split; [reflexivity|].
    unfold match_state, round_state. fields.
    repeat split; assumption.
Qed.

Lemma over_step (s : State) (i : Input) :
  reachable E s -> game_over s = true -> undisturbed i = true ->
  exists s',
    loop_body E s i = Continue s'
    /\ clock s' = Z.min 51 (clock s + 1)
    /\ match_state s' = match_state s
    /\ round_state s' = round_state s.
Proof.
  intros R G U.
  destruct (over_tick s i R G) as (s1 & T & St & G1 & C & M & Rd).
  pose proof (led_clock s (reachable_ledger E s R)) as [_ C51].
  unfold undisturbed in U. apply andb_true_iff in U. destruct U as [A K].
  apply negb_true_iff in K.
  rewrite (loop_body_alive E s s1 i A T).
  rewrite (handle_key_no_restart E (key i) s1 St K).
  eexists. split; [reflexivity|].
  unfold clock_increment. rewrite St, G1. cbn [negb andb].
  destruct (clock s1 <=? 50) eqn:D; unfold match_state, round_state in *;
    fields; (split; [clear - C C51 D; lia|]); split; assumption.
Qed.

Lemma game_over_run (frames : list Input) (s : State) :
  reachable E s -> game_over s = true ->
  forallb undisturbed frames = true ->
  exists s',
    run E s frames = Continue s' /\ match_state s' = match_state s.
Proof.
  revert s. induction frames as [|i rest IH]; intros s R G U.
  - exists s. split; reflexivity.
  - cbn [forallb] in U. apply andb_true_iff in U. destruct U as [Ui Ur].
    destruct (over_step s i R G Ui) as (s1 & L & _ & M & _).
    assert (G1 : game_over s1 = true).
    { unfold match_state in M. injection M as _ _ _ _ _ _ M. congruence. }
    destruct (IH s1 (reachable_next E s s1 i R L) G1 Ur) as (s' & R' & M').
    exists s'. cbn [run]. rewrite L. split; [exact R'|congruence].
Qed.

(** X10. Once [game_over] is set in an execution, nothing is sampled or
    scored any more: as long as neither [n] nor [q] is pressed the loop keeps
    running with the scores, innings, target, flags, moves and round number
    unchanged, while the clock runs on to 51 and stops there. *)
Theorem game_over_is_final (frames : list Input) (s : State) :
  reachable E s -> game_over s = true ->
  forallb undisturbed frames = true ->
  exists s',
    run E s frames = Continue s'
    /\ match_state s' = match_state s
    /\ round_state s' = round_state s
    /\ clock s' = Z.min 51 (clock s + Z.of_nat (List.length frames)).
Proof.
  revert s. induction frames as [|i rest IH]; intros s R G U.
  - exists s. cbn [run List.length].
    pose proof (led_clock s (reachable_ledger E s R)).
    repeat split. arith.
  - cbn [forallb] in U. apply andb_true_iff in U. destruct U as [Ui Ur].
    destruct (over_step s i R G Ui) as (s1 & L & C & M & Rd).
    assert (G1 : game_over s1 = true).
    { unfold match_state in M. injection M as _ _ _ _ _ _ M. congruence. }
    destruct (IH s1 (reachable_next E s s1 i R L) G1 Ur)
      as (s' & R' & M' & Rd' & C').
    exists s'. cbn [run]. rewrite L.
    split; [exact R'|]. split; [congruence|]. split; [congruence|].
    rewrite C', C. cbn [List.length]. clear. lia.
Qed.

Lemma restart_game_defaults (s : State) :
  exists a, restart_game E s = set_audio a (set_gametext "" initial_state).
Proof.
  destruct (restart_game_audio E s) as [a ->]. exists a. reflexivity.
Qed.



(** While no match is running, the game variables are at their initial
    values. *)
Lemma idle_defaults (s : State) :
  reachable E s -> game_started s = false ->
  exists a txt, s = set_audio a (set_gametext txt initial_state).
Proof.
  induction 1 as [|s s' i R IH L]; intros St.
  - exists (audio initial_state), (gametext initial_state). reflexivity.
  - apply loop_body_continue in L. destruct L as (s1 & T & _ & ->).
    destruct (clock_increment_clock_only (handle_key E (key i) s1))
      as [c Hc].
    assert (Sk : game_started (handle_key E (key i) s1) = false)
      by (rewrite Hc in St; exact St).
    unfold clock_increment in *. rewrite Sk in *. cbn [andb] in *.
    clear Hc St. revert Sk. unfold handle_key.
    destruct ((key i =? ord "s"%char) && negb (game_started s1)) eqn:K1;
      [intros Sk; discriminate Sk|].
    destruct ((key i =? ord "n"%char) && game_over s1) eqn:K2.
    + intros _. destruct (restart_game_defaults s1) as [a ->].
      exists a, "". reflexivity.
    + intros Sk.
      assert (Ss : game_started s = false).
      { destruct (game_started s) eqn:Ss; [|reflexivity].
        revert Sk. clear - T Ss. intros Sk.
        assert (game_started s1 = true); [|congruence].
        clear Sk. tick_cases E s s1 T; fields; congruence. }
      destruct (IH Ss) as (a & txt & ->).
      rewrite tick_idle in T by reflexivity.
      match type of T with
      | context [sound_management E ?x] =>
          destruct (sound_management_audio E x) as [a' Ha]; rewrite Ha in T
      end.
      inversion T. do 2 eexists. reflexivity.
Qed.

(** X12. Pressing [s] while no match is running in an execution starts one
    from the initial values with the clock already at 1: the first round
    never passes through the clock-0 bookkeeping. *)
Theorem start_from_idle (s : State) (i : Input) :
  reachable E s -> game_started s = false ->
  alive i = true -> key i = ord "s"%char ->
  exists s' a,
    loop_body E s i = Continue s'
    /\ s' = set_audio a
              (set_clock 1
                 (set_game_started true (set_gametext "" initial_state)))
    /\ starts_round s' = false.
Proof.
  intros R St A K.
  destruct (idle_defaults s R St) as (a0 & txt & ->).
  assert (T : exists a,
             tick E (set_audio a0 (set_gametext txt initial_state)) i
             = Some (set_audio a initial_state)).
  { rewrite tick_idle by reflexivity.
    match goal with
    | |- context [sound_management E ?x] =>
        destruct (sound_management_audio E x) as [a ->]
    end.
    exists a. reflexivity. }
  destruct T as (a & T).
  rewrite (loop_body_alive E _ _ i A T).
  unfold handle_key. rewrite K. fields.
  replace (ord "s" =? ord "s") with true by reflexivity. cbn [andb].
  do 2 eexists. split; [reflexivity|]. split; reflexivity.
Qed.

(** The tick reads only the detector's result and the random index. *)
Lemma tick_ignores_key (s : State) (i : Input) (k : Z) :
  tick E s (with_key k i) = tick E s i.
Proof. reflexivity. Qed.

(** X13. While a match is running, the keys other than [q] and [n] do
    nothing: the iteration ends in the same state whichever of them is
    pressed, [s] included. *)
Theorem keys_ignored_while_running (s : State) (i : Input) (k k' : Z) :
  game_started s = true ->
  Z.land k 255 <> ord "q"%char -> Z.land k 255 <> ord "n"%char ->
  Z.land k' 255 <> ord "q"%char -> Z.land k' 255 <> ord "n"%char ->
  loop_body E s (with_key k i) = loop_body E s (with_key k' i).
Proof.
  intros St Q N Q' N'.
  unfold loop_body. rewrite !tick_ignores_key.
  change (ret (with_key k i)) with (ret i).
  change (ret (with_key k' i)) with (ret i).
  change (key (with_key k i)) with (Z.land k 255).
  change (key (with_key k' i)) with (Z.land k' 255).
  destruct (negb (ret i)); [reflexivity|].
  destruct (tick E s i) as [s1|] eqn:T; [|reflexivity].
  replace (Z.land k 255 =? ord "q") with false by (clear - Q; lia).
  replace (Z.land k' 255 =? ord "q") with false by (clear - Q'; lia).
  assert (S1 : game_started s1 = true).
  { clear - T St. tick_cases E s s1 T; fields; congruence. }
  rewrite !handle_key_no_restart; try assumption; try reflexivity.
  - clear - N'. lia.
  - clear - N. lia.
Qed.

End Timer.

(** ** Exceptions and the progress of a round *)

Section Progress.

Variable E : Env.

Lemma capture_raises_iff (s : State) (i : Input) :
  capture s i = None <-> malformed (detection_result i) = true.
Proof.
  unfold capture, malformed, bind.
  destruct (hand_landmarks (detection_result i)) as [|hand ?].
  - split; discriminate.
  - destruct (handedness (detection_result i)) as [|[|c ?] ?];
      try (split; reflexivity).
    destruct (get_hand_run hand (category_name c)) eqn:G.
    + split; [discriminate|]. intros H. apply Nat.ltb_lt in H.
      rewrite (get_hand_run_short hand (category_name c) H) in G.
      discriminate.
    + split; [|reflexivity]. intros _. apply Nat.ltb_lt.
      apply (get_hand_run_raises_short hand (category_name c) G).
Qed.

(** In the resolve window of an execution the moves that are added are
    there. *)
Lemma resolve_total (s : State) :
  invariant s -> game_started s = true -> 15 < clock s < 25 ->
  forall a, resolve E (set_audio a s) <> None.
Proof.
  intros I Hs Hc a. unfold resolve, bind. fields.
  destruct (success s) eqn:Su; [|discriminate].
  destruct (scored_this_round s); fields; [discriminate|].
  destruct (move_eqb (player_move s) (computer_move s)); [discriminate|].
  pose proof (inv_moves s I ltac:(arith) Su) as M.
  unfold captured_moves in M. unfold score_runs, bind. fields.
  destruct (player_move s); [|discriminate M].
  destruct (computer_move s); [|discriminate M].
  destruct (is_player_batting s); [discriminate|].
  match goal with
  | |- context [if ?b then _ else _] => destruct b
  end; discriminate.
Qed.

Lemma tick_raises_iff (s : State) (i : Input) :
  reachable E s ->
  (tick E s i = None <->
   game_started s = true /\ clock s = 15
   /\ malformed (detection_result i) = true).
Proof.
  intros R. pose proof (reachable_invariant E s R) as I.
  destruct (game_started s) eqn:Hs.
  - phase_of s.
    + rewrite tick_before_zero by assumption. split; [discriminate|].
      intros (_ & C & _). exfalso. arith.
    + rewrite tick_lead_in by assumption. split; [discriminate|].
      intros (_ & C & _). exfalso. arith.
    + rewrite tick_awaiting by assumption. split; [discriminate|].
      intros (_ & C & _). exfalso. arith.
    + rewrite tick_capture by assumption. rewrite capture_raises_iff.
      tauto.
    + rewrite tick_resolve by assumption.
      destruct (sound_management_audio E s) as [a ->].
      split.
      * intros H. exfalso. exact (resolve_total s I Hs P a H).
      * intros (_ & C & _). exfalso. arith.
    + rewrite tick_checkpoint by assumption. split; [discriminate|].
      intros (_ & C & _). exfalso. arith.
    + rewrite tick_auto_advance by assumption. split; [discriminate|].
      intros (_ & C & _). exfalso. arith.
  - rewrite tick_idle by assumption. split; [discriminate|].
    intros (C & _). discriminate.
Qed.

(** X14. In an execution the loop body raises in one situation only: at the
    capture tick, when the detector reports a pose without handedness or
    with fewer than 21 landmarks. In particular no score is ever added to an
    absent move. *)
Theorem raises_only_on_malformed_capture (s : State) (i : Input) :
  reachable E s ->
  (loop_body E s i = Raised <->
   ret i = true /\ game_started s = true /\ clock s = 15
   /\ malformed (detection_result i) = true).
Proof.
  intros R. pose proof (tick_raises_iff s i R) as T.
  unfold loop_body. destruct (ret i); cbn [negb].
  - destruct (tick E s i) as [s1|].
    + split.
      * destruct (key i =? ord "q"%char); discriminate.
      * intros (_ & H). destruct T as [_ T]. discriminate (T H).
    + split; [|reflexivity]. intros _. split; [reflexivity|].
      apply T. reflexivity.
  - split; [discriminate|]. intros (H & _). discriminate.
Qed.

(** The clock after the tick and the increment of a started match. *)
Lemma timer_after_tick (s s1 : State) (i : Input) :
  ledger s -> game_started s = true -> tick E s i = Some s1 ->
  game_started s1 = true /\ clock (clock_increment s1) = next_clock s.
Proof.
  intros [B1 B2 B3 _ _ _ _ _ _ _ _] Hs T.
  revert Hs B1 B2 B3.
  tick_cases E s s1 T; intros Hs' B1 B2 B3;
    unfold next_clock, clock_increment; fields; try discriminate;
    (split; [assumption|]);
    repeat match goal with
    | |- context [if ?b then _ else _] => destruct b eqn:?; fields
    end;
    lia.
Qed.

Lemma no_restart_keeps (s s1 : State) (i : Input) :
  tick E s i = Some s1 -> alive i = true -> game_started s1 = true ->
  restarts E s i = false ->
  handle_key E (key i) s1 = s1.
Proof.
  intros T A St Rs. unfold restarts in Rs. rewrite T in Rs.
  unfold alive in A. rewrite A, St in Rs. cbn [negb andb] in Rs.
  rewrite andb_false_r in Rs. cbn [negb andb] in Rs.
  unfold handle_key. rewrite St, Rs. cbn [negb].
  now rewrite andb_false_r.
Qed.

(** X15. The round timer of an execution: over an iteration of a started
    match that does not restart, the clock goes from 26 to 0 when the match
    is not over, stays at 51, and otherwise advances by one. *)
Theorem round_timer (s s' : State) (i : Input) :
  reachable E s -> game_started s = true ->
  loop_body E s i = Continue s' -> restarts E s i = false ->
  clock s' = next_clock s.
Proof.
  intros R Hs L Rs.
  apply loop_body_continue in L. destruct L as (s1 & T & A & ->).
  destruct (timer_after_tick s s1 i (reachable_ledger E s R) Hs T)
    as [St C].
  rewrite (no_restart_keeps s s1 i T A St Rs). exact C.
Qed.

Lemma undisturbed_no_restart (s : State) (i : Input) :
  undisturbed i = true -> restarts E s i = false.
Proof.
  unfold undisturbed, restarts. intros U.
  apply andb_true_iff in U. destruct U as [_ U].
  apply negb_true_iff in U. rewrite U.
  destruct (tick E s i); [|reflexivity].
  cbn [andb]. now rewrite andb_false_r.
Qed.

Lemma playable_step (s : State) (i : Input) :
  reachable E s -> game_started s = true -> playable i = true ->
  exists s',
    loop_body E s i = Continue s'
    /\ game_started s' = true /\ clock s' = next_clock s.
Proof.
  intros R Hs Pl. unfold playable in Pl.
  apply andb_true_iff in Pl. destruct Pl as [U W].
  apply negb_true_iff in W.
  destruct (tick E s i) as [s1|] eqn:T.
  - assert (A : alive i = true).
    { unfold undisturbed in U. apply andb_true_iff in U. tauto. }
    destruct (timer_after_tick s s1 i (reachable_ledger E s R) Hs T)
      as [St C].
    rewrite (loop_body_alive E s s1 i A T).
    rewrite (no_restart_keeps s s1 i T A St (undisturbed_no_restart s i U)).
    eexists. split; [reflexivity|]. split; [|exact C].
    destruct (clock_increment_clock_only s1) as [c ->]. exact St.
  - apply (tick_raises_iff s i R) in T. destruct T as (_ & _ & T).
    congruence.
Qed.

Lemma playable_undisturbed (frames : list Input) :
  forallb playable frames = true -> forallb undisturbed frames = true.
Proof.
  induction frames as [|i rest IH]; cbn [forallb]; [reflexivity|].
  intros H. apply andb_true_iff in H. destruct H as [P R].
  unfold playable in P. apply andb_true_iff in P. destruct P as [-> _].
  exact (IH R).
Qed.

(** X16. Every round of an execution ends. From any point of a running
    match, the frames that remain up to clock 26 (the camera working, the
    detector's results usable, neither [q] nor [n] pressed) are all
    processed, and after them either the match is over or the clock is back
    at 0 for the next round. *)
Theorem round_ends (frames : list Input) (s : State) :
  reachable E s -> game_started s = true ->
  clock s + Z.of_nat (List.length frames) = 27 ->
  forallb playable frames = true ->
  exists s',
    run E s frames = Continue s'
    /\ (game_over s' = true \/ (game_over s' = false /\ clock s' = 0)).
Proof.
  revert s. induction frames as [|i rest IH]; intros s R Hs Hl Pl.
  - exists s. split; [reflexivity|]. left. cbn [List.length] in Hl.
    destruct (game_over s) eqn:G; [reflexivity|].
    pose proof (led_playing s (reachable_ledger E s R) G). exfalso. arith.
  - destruct (game_over s) eqn:G.
    + destruct (game_over_run E (i :: rest) s R G (playable_undisturbed _ Pl))
        as (s' & Rn & M).
      exists s'. split; [exact Rn|]. left.
      unfold match_state in M. injection M as _ _ _ _ _ _ M. congruence.
    + cbn [forallb] in Pl. apply andb_true_iff in Pl. destruct Pl as [Pi Pr].
      destruct (playable_step s i R Hs Pi) as (s1 & L & St & C).
      cbn [run]. rewrite L. cbn [List.length] in Hl.
      unfold next_clock in C. rewrite G in C. cbn [negb] in C.
      rewrite andb_true_r in C.
      destruct (clock s =? 26) eqn:C26.
      * assert (rest = []) by (destruct rest; [reflexivity|
          cbn [List.length] in Hl; exfalso; clear - Hl C26; lia]).
        subst rest. exists s1. split; [reflexivity|].
        destruct (game_over s1) eqn:G1; [left; reflexivity|right; auto].
      * pose proof (led_playing s (reachable_ledger E s R) G) as C26'.
        replace (clock s =? 51) with false in C by (clear - C26'; lia).
        apply (IH s1 (reachable_next E s s1 i R L) St); [|exact Pr].
        clear - C Hl. lia.
Qed.

End Progress.

(** ** The round counter, the sound and the screen *)

Section Presentation.

Variable E : Env.

Lemma tick_round_num (s s1 : State) (i : Input) :
  tick E s i = Some s1 ->
  round_num s1 = (if starts_round s then round_num s + 1 else round_num s).
Proof.
  intros T. unfold starts_round.
  tick_cases E s s1 T; fields;
    repeat match goal with
    | |- context [if ?c then _ else _] => destruct c eqn:?
    end;
    first [reflexivity | lia].
Qed.

(** X17. The round counter moves in two ways only: the iteration that opens
    a round (clock 0 of a started match) adds one, and the restart puts it
    back to 0. *)
Theorem round_counter (s s' : State) (i : Input) :
  loop_body E s i = Continue s' ->
  round_num s' =
  (if restarts E s i then 0
   else if starts_round s then round_num s + 1 else round_num s).
Proof.
  intros L.
  apply loop_body_continue in L. destruct L as (s1 & T & A & ->).
  destruct (clock_increment_clock_only (handle_key E (key i) s1)) as [c ->].
  fields. unfold restarts. rewrite T. unfold alive in A. rewrite A.
  cbn [andb]. rewrite <- (tick_round_num s s1 i T).
  unfold handle_key.
  destruct ((key i =? ord "s"%char) && negb (game_started s1));
    cbn [negb andb]; [reflexivity|].
  destruct ((key i =? ord "n"%char) && game_over s1); [|reflexivity].
  destruct (restart_game_audio E s1) as [a ->]. reflexivity.
Qed.


(** *** Only loaded sounds, only existing channels *)

Ltac audio_cases :=
  unfold permitted_log, set_playing, send in *;
  repeat match goal with
  | |- context [if ?b then _ else _] => destruct b eqn:?
  end;
  cbn [mixer run_sound_playing forallb permitted] in *;
  repeat match goal with
  | H : _ && _ = true |- _ => rewrite H
  | H : run_channel E = true |- _ => rewrite H
  | H : event_channel E = true |- _ => rewrite H
  end;
  cbn [andb]; try assumption.

Lemma sound_management_log (s : State) :
  permitted_log E (audio s) = true ->
  permitted_log E (audio (sound_management E s)) = true.
Proof.
  intros H. unfold sound_management. fields. audio_cases.
Qed.

Lemma stop_run_sound_log (s : State) :
  permitted_log E (audio s) = true ->
  permitted_log E (audio (stop_run_sound E s)) = true.
Proof.
  intros H. unfold stop_run_sound. fields.
  destruct (run_sound_playing (audio s) && run_channel E) eqn:B;
    [|exact H].
  apply andb_true_iff in B. destruct B as [_ B].
  unfold permitted_log, set_playing, send.
  cbn [mixer forallb permitted]. rewrite B. exact H.
Qed.

Lemma play_event_log (name : string) (s : State) :
  permitted_log E (audio s) = true ->
  permitted_log E (audio (play_event E name s)) = true.
Proof.
  intros H. unfold play_event. fields. audio_cases.
Qed.

Lemma dismissal_log (s : State) :
  permitted_log E (audio s) = true ->
  permitted_log E (audio (dismissal E s)) = true.
Proof.
  intros H. unfold dismissal.
  apply play_event_log, stop_run_sound_log. exact H.
Qed.

Lemma score_runs_audio (s s1 : State) :
  score_runs s = Some s1 -> audio s1 = audio s.
Proof.
  intros H. apply score_runs_cases in H.
  destruct H as [(_ & p & txt & _ & ->)|(_ & c & _ & [(_ & txt & ->)|(_ & ->)])];
    reflexivity.
Qed.

Lemma resolve_log (s s1 : State) :
  resolve E s = Some s1 ->
  permitted_log E (audio s) = true -> permitted_log E (audio s1) = true.
Proof.
  intros R H. apply resolve_cases in R.
  destruct R as [(_ & ->)|[(_ & _ & res & ->)|[(_ & _ & _ & res & ->)
                |(_ & _ & _ & res & s2 & R & ->)]]]; fields;
    try exact H.
  - apply dismissal_log. exact H.
  - rewrite (score_runs_audio _ _ R). exact H.
Qed.

Lemma checkpoint_log (s : State) :
  permitted_log E (audio s) = true ->
  permitted_log E (audio (checkpoint E s)) = true.
Proof.
  intros H. unfold checkpoint.
  destruct (is_out s); [|exact H].
  destruct (innings s =? 1); [exact H|].
  match goal with
  | |- context [if ?b then _ else _] => destruct b
  end;
  [|match goal with
    | |- context [if ?b then _ else _] => destruct b
    end];
  apply play_event_log; fields; apply stop_run_sound_log; exact H.
Qed.

Lemma tick_log (s s1 : State) (i : Input) :
  tick E s i = Some s1 ->
  permitted_log E (audio s) = true -> permitted_log E (audio s1) = true.
Proof.
  intros T H.
  assert (H2 : forall t, audio t = audio s ->
               permitted_log E (audio (sound_management E t)) = true).
  { intros t Ht. apply sound_management_log. rewrite Ht. exact H. }
  destruct (game_started s) eqn:Hs.
  - phase_of s.
    + rewrite tick_before_zero in T by assumption. inversion T.
      apply H2. reflexivity.
    + rewrite tick_lead_in in T by assumption. inversion T. fields.
      apply H2. unfold round_start.
      destruct ((clock s =? 0) && game_started s); reflexivity.
    + rewrite tick_awaiting in T by assumption. inversion T. fields.
      apply H2. reflexivity.
    + rewrite tick_capture in T by assumption.
      apply capture_cases in T.
      destruct T as [(_ & ->)|(p & c & _ & _ & ->)]; fields;
        apply H2; reflexivity.
    + rewrite tick_resolve in T by assumption.
      apply (resolve_log _ _ T). apply H2. reflexivity.
    + rewrite tick_checkpoint in T by assumption. inversion T.
      apply checkpoint_log. apply H2. reflexivity.
    + rewrite tick_auto_advance in T by assumption. inversion T.
      unfold auto_advance.
      match goal with
      | |- context [if ?b then _ else _] => destruct b
      end; fields; apply H2; reflexivity.
  - rewrite tick_idle in T by assumption. inversion T. fields.
    apply H2. reflexivity.
Qed.

Lemma handle_key_log (k : Z) (s : State) :
  permitted_log E (audio s) = true ->
  permitted_log E (audio (handle_key E k s)) = true.
Proof.
  intros H. unfold handle_key.
  destruct ((k =? ord "s"%char) && negb (game_started s)); [exact H|].
  destruct ((k =? ord "n"%char) && game_over s); [|exact H].
  unfold restart_game. fields. audio_cases.
Qed.

(** X18. In an execution the mixer is only ever asked for what it can do: a
    sound is played only if it was loaded and its channel exists, and a
    channel is stopped only if it exists. *)
Theorem only_loaded_sounds (s : State) :
  reachable E s -> forallb (permitted E) (mixer (audio s)) = true.
Proof.
  induction 1 as [|s s' i R IH L]; [reflexivity|].
  apply loop_body_continue in L. destruct L as (s1 & T & _ & ->).
  destruct (clock_increment_clock_only (handle_key E (key i) s1)) as [c ->].
  fields. apply handle_key_log. exact (tick_log s s1 i T IH).
Qed.


(** *** What the screen says *)

Lemma instruction_shown (t : string) (clock : Z) (gameresult gametext : string)
    (player_score computer_score round_num innings : Z) (is_out : bool)
    (target : option Z) :
  In (InstructionBar, t)
     (draw_game_ui clock gameresult gametext player_score computer_score
        round_num innings is_out target)
  <-> t = (if (innings =? 2) && is_out then restart_prompt
           else "Auto Next Round | Press 'Q' to Quit").
Proof.
  unfold draw_game_ui.
  destruct (innings =? 2), target; cbn [app In andb];
    (split;
     [ intros H;
       repeat (destruct H as [H|H]; [try discriminate H|]);
       [injection H as <-; reflexivity|contradiction]
     | intros ->; repeat (first [left; reflexivity | right]) ]).
Qed.

(** X19. On the screen of an execution the restart prompt is shown exactly
    when the match is over, that is exactly when the [n] key, read right
    after the drawing, restarts the match. *)
Theorem restart_prompt_iff_game_over (s s1 : State) (i : Input) :
  reachable E s -> tick E s i = Some s1 ->
  (In (InstructionBar, restart_prompt) (screen_text s1)
   <-> game_over s1 = true)
  /\ handle_key E (ord "n"%char) s1
     = (if game_over s1 then restart_game E s1 else s1).
Proof.
  intros R T.
  destruct (reachable_ledger_mid E s s1 i R T) as [M L].
  split.
  - unfold screen_text. rewrite instruction_shown.
    destruct (game_over s1) eqn:G.
    + destruct (lmid_over s1 L G) as (O & N & _).
      rewrite O, N. split; reflexivity.
    + split; [|discriminate]. intros H. exfalso.
      destruct (innings s1 =? 2) eqn:N; [|discriminate H].
      destruct (is_out s1) eqn:O; [|discriminate H].
      assert (N2 : innings s1 = 2) by (clear - N; lia).
      rewrite (lmid_out s1 L O N2) in G. discriminate.
  - unfold handle_key.
    replace (ord "n" =? ord "s") with false by reflexivity.
    replace (ord "n" =? ord "n") with true by reflexivity.
    reflexivity.
Qed.

(** X20. The text on the screen of an execution, line by line. In innings 2
    the target line stands at (50, 250) and reads the player's score plus
    one, the round's result and the status text follow at (50, 300) and
    (50, 350), and the score line, "You: ... | Computer: ...", at (50, 400);
    in innings 1 there is no target line, the result and the status text
    stand at (50, 250) and (50, 300) and the score line at (50, 350). *)
Theorem target_line (s s1 : State) (i : Input) :
  reachable E s -> tick E s i = Some s1 ->
  let title := "HAND CRICKET" in
  let clock_line := ("Clock: " ++ str_int (clock s1))%string in
  let score_line :=
    ("You: " ++ str_int (player_score s1) ++ " | Computer: "
     ++ str_int (computer_score s1))%string in
  let round_line :=
    ("Round: " ++ str_int (round_num s1) ++ " | Innings: "
     ++ str_int (innings s1))%string in
  (innings s1 = 2 ->
   screen_text s1
   = [(TitleShadow, title); (Title, title); (At 50 200, clock_line);
      (At 50 250, ("Target: " ++ str_int (player_score s1 + 1))%string);
      (At 50 300, gameresult s1); (At 50 350, gametext s1);
      (At 50 400, score_line); (RoundLine, round_line);
      (InstructionBar,
       if is_out s1 then restart_prompt
       else "Auto Next Round | Press 'Q' to Quit")])
  /\ (innings s1 = 1 ->
      screen_text s1
      = [(TitleShadow, title); (Title, title); (At 50 200, clock_line);
         (At 50 250, gameresult s1); (At 50 300, gametext s1);
         (At 50 350, score_line); (RoundLine, round_line);
         (InstructionBar, "Auto Next Round | Press 'Q' to Quit")]).
Proof.
  intros R T.
  destruct (reachable_ledger_mid E s s1 i R T) as [M L].
  unfold screen_text, draw_game_ui. cbv zeta. split; intros N.
  - pose proof (lmid_target s1 L N) as Tg. unfold target_is_score in Tg.
    destruct (target s1) as [t|]; [|discriminate].
    assert (t = player_score s1) by (clear - Tg; lia). subst t.
    rewrite N. reflexivity.
  - rewrite N. reflexivity.
Qed.

End Presentation.

(** ** The announcement and the animation triggers *)

Lemma lacks_uint (c : ascii) (d : Decimal.uint) :
  lacks c "0123456789" = true ->
  lacks c (NilEmpty.string_of_uint d) = true.
Proof.
  intros H. cbn in H.
  repeat (apply andb_true_iff in H; destruct H as [? H]).
  induction d; cbn [NilEmpty.string_of_uint lacks]; try reflexivity;
    apply andb_true_iff; split; assumption.
Qed.

Lemma lacks_str_int (n : Z) : lacks "Y" (str_int n) = true.
Proof.
  unfold str_int, NilZero.string_of_int, NilZero.string_of_uint.
  destruct (Z.to_int n) as [d|d]; destruct d; try reflexivity;
    cbn [lacks]; rewrite ?lacks_uint; reflexivity.
Qed.

Lemma lacks_str_move (m : option Z) : lacks "Y" (str_move m) = true.
Proof. destruct m; [apply lacks_str_int|reflexivity]. Qed.

(** A match of the needle cannot begin inside a stretch without the needle's
    first character. *)
Lemma contains_lacks (c : ascii) (needle u v : string) :
  lacks c u = true ->
  contains (String c needle) (u ++ v) = contains (String c needle) v.
Proof.
  induction u as [|a u IH]; intros L; [reflexivity|].
  cbn [lacks] in L. apply andb_true_iff in L. destruct L as [N L].
  apply negb_true_iff, Ascii.eqb_neq in N.
  cbn [append contains prefix].
  destruct (ascii_dec c a) as [->|_]; [congruence|].
  cbn [orb]. apply IH, L.
Qed.

(** The texts built around a number trigger nothing. *)
Ltac quiet_text :=
  unfold quiet; simpl;
  rewrite ?contains_lacks by first [apply lacks_str_int | apply lacks_str_move];
  reflexivity.

Ltac closed_text := vm_compute; reflexivity.

Section Announcement.

Variable E : Env.

Lemma quiet_closed :
  quiet "Hand not detected! Please show your hand clearly." = true.
Proof. closed_text. Qed.

Lemma gametext_scored (v : bool) (s : State) :
  gametext (set_scored_this_round v s) = gametext s.
Proof. reflexivity. Qed.

Lemma clock_scored (v : bool) (s : State) :
  clock (set_scored_this_round v s) = clock s.
Proof. reflexivity. Qed.

Lemma dismissal_clock (s : State) : clock (dismissal E s) = clock s.
Proof. reflexivity. Qed.

Lemma dismissal_text (s : State) : quiet (gametext (dismissal E s)) = true.
Proof.
  unfold dismissal, stop_run_sound, play_event. fields. quiet_text.
Qed.

Lemma score_runs_text (s s1 : State) :
  score_runs s = Some s1 -> quiet (gametext s1) = true.
Proof.
  unfold score_runs, bind. intros H.
  destruct (is_player_batting s).
  - destruct (player_move s) as [p|]; [|discriminate].
    injection H as <-. fields. quiet_text.
  - destruct (computer_move s) as [c|]; [|discriminate]. fields.
    destruct ((innings s =? 2) && (computer_score s + c >? player_score s));
      injection H as <-; fields; quiet_text.
Qed.

Lemma score_runs_clock (s s1 : State) :
  score_runs s = Some s1 -> clock s1 = clock s.
Proof.
  intros R. apply score_runs_cases in R.
  destruct R as [(_ & ? & ? & _ & ->)|(_ & ? & _ & [(_ & ? & ->)|(_ & ->)])];
    reflexivity.
Qed.

Lemma resolve_text (s s1 : State) :
  resolve E s = Some s1 ->
  clock s1 = clock s
  /\ (gametext s1 = gametext s \/ quiet (gametext s1) = true).
Proof.
  intros H. apply resolve_cases in H.
  destruct H as [(_ & ->)|[(_ & _ & res & ->)|[(_ & _ & _ & res & ->)
                |(_ & _ & _ & res & s2 & R & ->)]]].
  - split; [reflexivity|right; apply quiet_closed].
  - split; [|left]; reflexivity.
  - rewrite clock_scored, gametext_scored, dismissal_clock.
    split; [reflexivity|right]. apply dismissal_text.
  - rewrite clock_scored, gametext_scored. split.
    + exact (score_runs_clock _ _ R).
    + right. exact (score_runs_text _ _ R).
Qed.

Lemma transition_text (s : State) :
  is_out s = true -> innings s = 1 ->
  game_over (checkpoint E s) = false
  /\ quiet (gametext (checkpoint E s)) = true.
Proof.
  intros O I. unfold checkpoint. rewrite O, I. cbn [Z.eqb Pos.eqb]. fields.
  split; [reflexivity|quiet_text].
Qed.

Ltac early s :=
  replace (25 <=? clock s) with false by arith; rewrite andb_false_r.

Ltac early_in s TS :=
  replace (26 <=? clock s) with false in TS by arith;
  rewrite andb_false_r in TS.

(** After the tick the text is the announcement exactly when the match is
    over and the checkpoint has passed. *)
Lemma tick_text_mid (s s1 : State) (i : Input) :
  reachable E s -> text_settled s -> tick E s i = Some s1 -> text_mid s1.
Proof.
  intros R TS T.
  pose proof (led_clock s (reachable_ledger E s R)) as C.
  pose proof (led_over s (reachable_ledger E s R)) as O.
  pose proof (inv_idle s (reachable_invariant E s R)) as Idle.
  unfold text_settled in TS. unfold text_mid.
  destruct (game_started s) eqn:Hs.
  - clear Idle. phase_of s.
    + exfalso. arith.
    + rewrite tick_lead_in in T by assumption. injection T as <-.
      unfold round_start.
      destruct ((clock s =? 0) && game_started s);
        match goal with
        | |- context [sound_management E ?x] => name_audio E x
        end; fields; early s; closed_text.
    + rewrite tick_awaiting in T by assumption. injection T as <-.
      name_audio E s. fields. early s.
      destruct (is_player_batting s); closed_text.
    + rewrite tick_capture in T by assumption. name_audio E s.
      apply capture_cases in T.
      destruct T as [[_ ->]|(? & ? & _ & _ & ->)]; fields; early s;
        early_in s TS; exact TS.
    + rewrite tick_resolve in T by assumption. name_audio E s.
      apply resolve_text in T. fields. destruct T as [Cl Tx].
      replace (25 <=? clock s1) with false by arith.
      rewrite andb_false_r.
      replace (26 <=? clock s) with false in TS by arith.
      rewrite andb_false_r in TS.
      destruct Tx as [Tx|Tx]; congruence.
    + rewrite tick_checkpoint in T by assumption. injection T as <-.
      name_audio E s.
      destruct (checkpoint_cases E (set_audio a s))
        as [(Out & ->)|[(Out & N & _)|(Out & N & a' & ->)]]; fields.
      * destruct (game_over s) eqn:G.
        -- destruct (O eq_refl) as [O' _]. congruence.
        -- exact TS.
      * destruct (transition_text (set_audio a s) Out N) as [-> Q].
        exact Q.
      * replace (25 <=? clock s) with true by arith.
        unfold final_text, result_of. fields.
        destruct (player_score s >? computer_score s);
          [|destruct (computer_score s >? player_score s)]; reflexivity.
    + rewrite tick_auto_advance in T by assumption. injection T as <-.
      name_audio E s. unfold auto_advance. fields.
      destruct (game_over s) eqn:G; fields; rewrite ?G; fields.
      * replace (25 <=? clock s) with true by arith.
        replace (26 <=? clock s) with true in TS by arith.
        exact TS.
      * closed_text.
  - rewrite tick_idle in T by assumption. injection T as <-.
    name_audio E s. fields. pose proof (Idle eq_refl) as C0. early s.
    closed_text.
Qed.

Lemma keys_and_clock_text (k : Z) (s : State) :
  settled s -> text_mid s -> text_settled (clock_increment (handle_key E k s)).
Proof.
  intros [M1 _ _ _ _ _ _ _] TM.
  unfold text_mid in TM. unfold text_settled, handle_key.
  destruct ((k =? ord "s"%char) && negb (game_started s)) eqn:K1.
  - apply andb_true_iff in K1. destruct K1 as [_ K1].
    apply negb_true_iff in K1.
    unfold start_game, clock_increment. fields.
    destruct (game_over s); fields; cbn; rewrite ?andb_false_r; reflexivity.
  - destruct ((k =? ord "n"%char) && game_over s) eqn:K2.
    + destruct (restart_game_audio E s) as [a ->].
      unfold clock_increment. fields. closed_text.
    + clear K1 K2.
      destruct (game_started s) eqn:Hs.
      * destruct (game_over s) eqn:G.
        -- unfold clock_increment. rewrite Hs, G. cbn [negb andb] in *.
           destruct (clock s <=? 50) eqn:C;
             unfold final_text, result_of in *; fields;
             rewrite G; cbn [andb].
           ++ replace (26 <=? clock s + 1) with (25 <=? clock s)
                by (clear; lia).
              exact TM.
           ++ replace (26 <=? clock s) with true by (clear - C; lia).
              replace (25 <=? clock s) with true in TM by (clear - C; lia).
              exact TM.
        -- rewrite clock_increment_playing by assumption. fields.
           rewrite G. exact TM.
      * unfold clock_increment. rewrite Hs. cbn [andb].
        pose proof (M1 eq_refl) as C0. rewrite C0 in *.
        cbn [Z.leb Z.compare] in *. rewrite andb_false_r in *. exact TM.
Qed.

Lemma reachable_text (s : State) : reachable E s -> text_settled s.
Proof.
  induction 1 as [|s s' i R IH L].
  - closed_text.
  - apply loop_body_continue in L. destruct L as (s1 & T & _ & ->).
    apply keys_and_clock_text.
    + exact (proj1 (reachable_ledger_mid E s s1 i R T)).
    + exact (tick_text_mid s s1 i R IH T).
Qed.

End Announcement.

(** ** The celebration follows the result *)

Lemma item_in_range {A : Type} (l : list A) (j : nat) :
  (j < List.length l)%nat -> item l (Z.of_nat j) = nth_error l j.
Proof.
  intros H. unfold item.
  replace ((0 <=? Z.of_nat j) && (Z.of_nat j <? Z.of_nat (List.length l)))
    with true by lia.
  now rewrite Nat2Z.id.
Qed.

Lemma skipn_nth_error {A : Type} (l : list A) (j : nat) (x : A) :
  nth_error l j = Some x -> skipn j l = x :: skipn (S j) l.
Proof.
  revert j. induction l as [|a l IH]; intros [|j] H; try discriminate.
  - cbn in H. injection H as ->. reflexivity.
  - cbn [nth_error] in H. change (skipn j l = x :: skipn (S j) l).
    now apply IH.
Qed.

Lemma firstn_one_more {A : Type} (l : list A) (j k : nat) :
  firstn (S k) (skipn j l)
  = (firstn 1 (skipn j l)
     ++ firstn k (skipn (j + List.length (firstn 1 (skipn j l))) l))%list.
Proof.
  destruct (nth_error l j) as [x|] eqn:N.
  - rewrite (skipn_nth_error l j x N). cbn [firstn List.length app].
    now rewrite Nat.add_1_r.
  - apply nth_error_None in N. rewrite (skipn_all2 l N).
    cbn [firstn List.length app]. rewrite Nat.add_0_r.
    rewrite (skipn_all2 l N). now destruct k.
Qed.

Lemma in_skipn {A : Type} (l : list A) (j : nat) (x : A) :
  In x (skipn j l) -> In x l.
Proof.
  intros H. rewrite <- (firstn_skipn j l). apply in_or_app. now right.
Qed.

Lemma running_next (r : Result) (j : nat) :
  set_celebration_frame_idx (Z.of_nat j + 1) (running r j) = running r (S j).
Proof.
  unfold running, set_celebration_frame_idx. cbn. f_equal. lia.
Qed.

Section Screen.

Variable Gif : Type.
Variable animations : string -> list Gif.
Variable E : Env.

Lemma winning_idle (c : Celebration) (frame : list Gif) :
  celebrating_win c = false ->
  winning_celebration Gif animations c frame = Some (c, frame).
Proof. unfold winning_celebration. now intros ->. Qed.

Lemma losing_idle (c : Celebration) (frame : list Gif) :
  celebrating_lose c = false ->
  losing_celebration Gif animations c frame = Some (c, frame).
Proof. unfold losing_celebration. now intros ->. Qed.

(** The winning block on a running victory animation. *)
Lemma winning_running (j : nat) (frame : list Gif) :
  (j <= List.length (animations "victory"))%nat ->
  exists c1,
    winning_celebration Gif animations (running Win j) frame
    = Some (c1, (frame ++ firstn 1 (skipn j (animations "victory")))%list)
    /\ stage animations Win c1
         (j + List.length (firstn 1 (skipn j (animations "victory")))).
Proof.
  intros Hj. unfold winning_celebration.
  cbn [running celebrating_win gif_played_win celebration_frame_idx
       negb andb].
  destruct (animations "victory") as [|g0 rest] eqn:A.
  - cbn [truthy]. exists (running Win j).
    rewrite skipn_nil. cbn [firstn List.length]. rewrite app_nil_r.
    rewrite Nat.add_0_r. split; [reflexivity|].
    apply stage_running; [discriminate|]. cbn [animation_of]. now rewrite A.
  - cbn [truthy]. rewrite <- A in *. clear A g0 rest.
    destruct (Z.of_nat j <? Z.of_nat (List.length (animations "victory")))
      eqn:L.
    + assert (Hlt : (j < List.length (animations "victory"))%nat) by lia.
      rewrite (item_in_range _ _ Hlt).
      destruct (nth_error (animations "victory") j) as [x|] eqn:N;
        [|apply nth_error_None in N; lia].
      cbn [bind]. rewrite (skipn_nth_error _ _ _ N).
      cbn [firstn List.length]. rewrite Nat.add_1_r.
      exists (running Win (S j)). split.
      * f_equal. f_equal. exact (running_next Win j).
      * apply stage_running; [discriminate|exact Hlt].
    + assert (Heq : j = List.length (animations "victory")) by lia.
      subst j. rewrite skipn_all.
      cbn [firstn List.length]. rewrite app_nil_r, Nat.add_0_r.
      exists (finished animations Win). split; [reflexivity|].
      apply stage_finished. discriminate.
Qed.

(** The losing block on a running game-over animation. *)
Lemma losing_running (j : nat) (frame : list Gif) :
  (j <= List.length (animations "game_over"))%nat ->
  exists c1,
    losing_celebration Gif animations (running Loss j) frame
    = Some (c1, (frame ++ firstn 1 (skipn j (animations "game_over")))%list)
    /\ stage animations Loss c1
         (j + List.length (firstn 1 (skipn j (animations "game_over")))).
Proof.
  intros Hj. unfold losing_celebration.
  cbn [running celebrating_lose gif_played_lose celebration_frame_idx
       negb andb].
  destruct (animations "game_over") as [|g0 rest] eqn:A.
  - cbn [truthy]. exists (running Loss j).
    rewrite skipn_nil. cbn [firstn List.length]. rewrite app_nil_r.
    rewrite Nat.add_0_r. split; [reflexivity|].
    apply stage_running; [discriminate|]. cbn [animation_of]. now rewrite A.
  - cbn [truthy]. rewrite <- A in *. clear A g0 rest.
    destruct (Z.of_nat j <? Z.of_nat (List.length (animations "game_over")))
      eqn:L.
    + assert (Hlt : (j < List.length (animations "game_over"))%nat) by lia.
      rewrite (item_in_range _ _ Hlt).
      destruct (nth_error (animations "game_over") j) as [x|] eqn:N;
        [|apply nth_error_None in N; lia].
      cbn [bind]. rewrite (skipn_nth_error _ _ _ N).
      cbn [firstn List.length]. rewrite Nat.add_1_r.
      exists (running Loss (S j)). split.
      * f_equal. f_equal. exact (running_next Loss j).
      * apply stage_running; [discriminate|exact Hlt].
    + assert (Heq : j = List.length (animations "game_over")) by lia.
      subst j. rewrite skipn_all.
      cbn [firstn List.length]. rewrite app_nil_r, Nat.add_0_r.
      exists (finished animations Loss). split; [reflexivity|].
      apply stage_finished. discriminate.
Qed.

(** What the triggers do at each stage of a celebration. *)
Lemma triggers_waiting (r : Result) :
  animation_triggers (result_text r) initial_celebration
  = match r with
    | Tie => initial_celebration
    | _ => running r 0
    end.
Proof. destruct r; vm_compute; reflexivity. Qed.

Lemma triggers_running (r : Result) (j : nat) :
  r <> Tie ->
  animation_triggers (result_text r) (running r j) = running r j.
Proof.
  intros N. destruct r; [| |congruence]; vm_compute; reflexivity.
Qed.

Lemma triggers_finished (r : Result) :
  animation_triggers (result_text r) (finished animations r)
  = finished animations r.
Proof. destruct r; vm_compute; reflexivity. Qed.

Lemma celebrate_running (r : Result) (j : nat) :
  r <> Tie -> (j <= List.length (animation_of animations r))%nat ->
  exists c1,
    celebrate Gif animations (result_text r) (running r j)
    = Some (c1, firstn 1 (skipn j (animation_of animations r)))
    /\ stage animations r c1
         (j + List.length (firstn 1 (skipn j (animation_of animations r)))).
Proof.
  intros N Hj. unfold celebrate. rewrite (triggers_running r j N).
  destruct r; [| |congruence]; cbn [animation_of] in *.
  - destruct (winning_running j [] Hj) as (c1 & -> & S).
    cbn [bind fst snd app]. exists c1. split; [|exact S].
    apply losing_idle. inversion S; reflexivity.
  - rewrite winning_idle by reflexivity. cbn [bind fst snd].
    exact (losing_running j [] Hj).
Qed.

Lemma celebrate_waiting (r : Result) :
  r <> Tie ->
  celebrate Gif animations (result_text r) initial_celebration
  = celebrate Gif animations (result_text r) (running r 0).
Proof.
  intros N. unfold celebrate.
  rewrite triggers_waiting, (triggers_running r 0 N).
  destruct r; [reflexivity|reflexivity|congruence].
Qed.

(** One iteration of the celebration of a finished match: the next frame of
    the animation of the result is laid over the picture, if one is left. *)
Lemma celebrate_stage (r : Result) (c : Celebration) (j : nat) :
  stage animations r c j ->
  exists c1,
    celebrate Gif animations (result_text r) c
    = Some (c1, firstn 1 (skipn j (animation_of animations r)))
    /\ stage animations r c1
         (j + List.length (firstn 1 (skipn j (animation_of animations r)))).
Proof.
  intros [|j' N Hj|N].
  - assert (D : r = Tie \/ r <> Tie)
      by (destruct r; [right|right|left]; congruence).
    destruct D as [->|N].
    + exists initial_celebration. split; [|apply stage_waiting].
      unfold celebrate. rewrite triggers_waiting.
      rewrite winning_idle by reflexivity. cbn [bind fst snd].
      now rewrite losing_idle by reflexivity.
    + rewrite (celebrate_waiting r N).
      apply celebrate_running; [exact N|apply Nat.le_0_l].
  - apply celebrate_running; assumption.
  - exists (finished animations r). rewrite skipn_all.
    cbn [firstn List.length]. rewrite Nat.add_0_r.
    split; [|apply stage_finished, N].
    unfold celebrate. rewrite triggers_finished.
    rewrite winning_idle by reflexivity. cbn [bind fst snd].
    now rewrite losing_idle by reflexivity.
Qed.

(** A text that triggers nothing leaves untouched variables untouched. *)
Lemma celebrate_quiet (text : string) :
  quiet text = true ->
  celebrate Gif animations text initial_celebration
  = Some (initial_celebration, []).
Proof.
  unfold quiet. intros Q. apply andb_true_iff in Q. destruct Q as [W L].
  apply negb_true_iff in W, L.
  unfold celebrate, animation_triggers. rewrite W, L. cbn [andb].
  rewrite winning_idle by reflexivity. cbn [bind fst snd].
  now rewrite losing_idle by reflexivity.
Qed.

Lemma reset_is_initial (c : Celebration) :
  reset_animation_flags c = initial_celebration.
Proof. reflexivity. Qed.

(** ** The loop with its pictures *)

Lemma iteration_continue (s s' : State) (c c' : Celebration) (i : Input)
    (shown : option (Picture Gif)) :
  iteration Gif animations E s c i = (Continue s', c', shown) ->
  exists c1 frame s1,
    celebrate Gif animations (gametext s) c = Some (c1, frame)
    /\ tick E s i = Some s1 /\ alive i = true
    /\ s' = clock_increment (handle_key E (key i) s1)
    /\ c' = celebration_after_key (key i) s1 c1
    /\ shown = Some {| overlays := frame; texts := screen_text s1 |}.
Proof.
  unfold iteration, alive. intros H.
  destruct (ret i); [|discriminate]. cbn [negb] in H.
  destruct (celebrate Gif animations (gametext s) c) as [[c1 frame]|];
    [|discriminate].
  destruct (tick E s i) as [s1|]; [|discriminate].
  destruct (key i =? ord "q"%char); [discriminate|].
  injection H as <- <- <-. exists c1, frame, s1. repeat split.
Qed.

Lemma iteration_alive (s s1 : State) (c c1 : Celebration) (i : Input)
    (frame : list Gif) :
  alive i = true ->
  celebrate Gif animations (gametext s) c = Some (c1, frame) ->
  tick E s i = Some s1 ->
  iteration Gif animations E s c i
  = (Continue (clock_increment (handle_key E (key i) s1)),
     celebration_after_key (key i) s1 c1,
     Some {| overlays := frame; texts := screen_text s1 |}).
Proof.
  unfold iteration, alive. intros A -> ->.
  apply andb_true_iff in A. destruct A as [-> Q].
  apply negb_true_iff in Q. rewrite Q. reflexivity.
Qed.

Lemma iteration_shown (s : State) (c c' : Celebration) (i : Input)
    (o : Outcome) (shown : Picture Gif) :
  iteration Gif animations E s c i = (o, c', Some shown) ->
  exists c1 s1,
    celebrate Gif animations (gametext s) c = Some (c1, overlays shown)
    /\ tick E s i = Some s1
    /\ texts shown = screen_text s1.
Proof.
  unfold iteration. intros H.
  destruct (ret i); [|discriminate]. cbn [negb] in H.
  destruct (celebrate Gif animations (gametext s) c) as [[c1 frame]|];
    [|discriminate].
  destruct (tick E s i) as [s1|]; [|discriminate].
  exists c1, s1.
  destruct (key i =? ord "q"%char); injection H as _ _ <-;
    repeat split.
Qed.

(** The celebration blocks do not raise when the variables are staged. *)
Lemma celebrate_staged (s : State) (c : Celebration) :
  reachable E s -> staged animations s c ->
  exists c1 frame,
    celebrate Gif animations (gametext s) c = Some (c1, frame)
    /\ ((game_over s && (26 <=? clock s) = false
         /\ c1 = initial_celebration /\ frame = [])
        \/ (game_over s = true /\ 26 <= clock s
            /\ exists j,
                 frame = firstn 1 (skipn j (final_animation animations s))
                 /\ stage animations (result_of s) c1
                      (j + List.length frame))).
Proof.
  intros R St. pose proof (reachable_text E s R) as TS.
  unfold text_settled in TS. unfold staged in St.
  destruct (game_over s && (26 <=? clock s)) eqn:G.
  - apply andb_true_iff in G. destruct G as [G C].
    assert (S0 : exists j, stage animations (result_of s) c j).
    { destruct (game_over s && (27 <=? clock s)); [exact St|].
      subst c. exists 0%nat. apply stage_waiting. }
    destruct S0 as [j S0]. unfold final_text in TS. rewrite TS.
    destruct (celebrate_stage (result_of s) c j S0) as (c1 & -> & S1).
    do 2 eexists. split; [reflexivity|]. right.
    repeat split; [exact G|clear - C; lia|].
    exists j. split; [reflexivity|exact S1].
  - assert (G' : game_over s && (27 <=? clock s) = false).
    { destruct (game_over s); [|reflexivity]. cbn [andb] in *.
      clear - G. lia. }
    rewrite G' in St. subst c. rewrite (celebrate_quiet _ TS).
    do 2 eexists. split; [reflexivity|]. left. repeat split.
Qed.

Lemma staged_initial (s : State) : staged animations s initial_celebration.
Proof.
  unfold staged. destruct (game_over s && (27 <=? clock s)); [|reflexivity].
  exists 0%nat. apply stage_waiting.
Qed.

(** The iteration of a finished match that is not restarted. *)
Lemma over_iteration (s : State) (c c1 : Celebration) (i : Input)
    (frame : list Gif) :
  reachable E s -> game_over s = true -> undisturbed i = true ->
  celebrate Gif animations (gametext s) c = Some (c1, frame) ->
  exists s' s1,
    iteration Gif animations E s c i
    = (Continue s', c1, Some {| overlays := frame; texts := screen_text s1 |})
    /\ loop_body E s i = Continue s'
    /\ clock s' = Z.min 51 (clock s + 1)
    /\ match_state s' = match_state s.
Proof.
  intros R G U Ce.
  destruct (over_tick E s i R G) as (s1 & T & St & G1 & _).
  destruct (over_step E s i R G U) as (s' & L & C & M & _).
  unfold undisturbed in U. apply andb_true_iff in U. destruct U as [A K].
  apply negb_true_iff in K.
  exists s', s1. rewrite (iteration_alive s s1 c c1 i frame A Ce T).
  pose proof L as L'.
  rewrite (loop_body_alive E s s1 i A T) in L'. injection L' as L'.
  rewrite L'. unfold celebration_after_key. rewrite St, K.
  rewrite andb_false_r. cbn [negb andb].
  repeat split; assumption.
Qed.

Lemma match_state_result (s s' : State) :
  match_state s' = match_state s ->
  game_over s' = game_over s /\ result_of s' = result_of s.
Proof.
  unfold match_state, result_of. intros M.
  injection M as -> -> _ _ _ _ ->. split; reflexivity.
Qed.

Lemma reachable_screen_game (s : State) (c : Celebration) :
  reachable_screen Gif animations E s c -> reachable E s.
Proof.
  induction 1 as [|s s' c c' i shown _ IH H].
  - apply reachable_initial.
  - apply iteration_continue in H.
    destruct H as (c1 & frame & s1 & _ & T & A & -> & _).
    apply (reachable_next E s _ i IH).
    exact (loop_body_alive E s s1 i A T).
Qed.

Lemma reachable_staged (s : State) (c : Celebration) :
  reachable_screen Gif animations E s c -> staged animations s c.
Proof.
  induction 1 as [|s s' c c' i shown RS IH H].
  - reflexivity.
  - pose proof (reachable_screen_game s c RS) as R.
    destruct (celebrate_staged s c R IH)
      as (c1 & frame & Ce & [(_ & -> & _)|(G & C & j & _ & S1)]).
    + apply iteration_continue in H.
      destruct H as (c2 & frame2 & s1 & Ce2 & _ & _ & _ & -> & _).
      rewrite Ce in Ce2. injection Ce2 as <- _.
      unfold celebration_after_key.
      destruct (_ && negb _); [apply staged_initial|].
      destruct (_ && _); apply staged_initial.
    + destruct (key i =? ord "n"%char) eqn:K.
      * apply iteration_continue in H.
        destruct H as (c2 & frame2 & s1 & _ & T & _ & _ & -> & _).
        destruct (over_tick E s i R G) as (s1' & T' & St & G1 & _).
        rewrite T in T'. injection T' as <-.
        unfold celebration_after_key. rewrite St, G1, K. cbn [negb andb].
        rewrite andb_false_r. apply staged_initial.
      * pose proof H as H'. apply iteration_continue in H'.
        destruct H' as (_ & _ & _ & _ & _ & A & _).
        assert (U : undisturbed i = true)
          by (unfold undisturbed; rewrite A, K; reflexivity).
        destruct (over_iteration s c c1 i frame R G U Ce)
          as (s'' & s1 & It & _ & C' & M).
        rewrite It in H. injection H as <- <- _.
        destruct (match_state_result s s'' M) as [G' Rs].
        unfold staged. rewrite G', G, Rs.
        replace (27 <=? clock s'') with true by (clear - C C'; lia).
        cbn [andb]. eexists. exact S1.
Qed.

End Screen.

Section Pictures.

Variable Gif : Type.
Variable animations : string -> list Gif.
Variable E : Env.

Lemma iteration_outcome (s : State) (c : Celebration) (i : Input) :
  reachable_screen Gif animations E s c ->
  fst (fst (iteration Gif animations E s c i)) = loop_body E s i.
Proof.
  intros RS.
  pose proof (reachable_screen_game Gif animations E s c RS) as R.
  destruct (celebrate_staged Gif animations E s c R
              (reachable_staged Gif animations E s c RS))
    as (c1 & frame & Ce & _).
  unfold iteration, loop_body. rewrite Ce.
  destruct (ret i); [|reflexivity]. cbn [negb].
  destruct (tick E s i); [|reflexivity].
  destruct (key i =? ord "q"%char); reflexivity.
Qed.

Lemma run_screen_reachable (frames : list Input) (s s' : State)
    (c c' : Celebration) :
  reachable_screen Gif animations E s c ->
  run_screen Gif animations E s c frames = (Continue s', c') ->
  reachable_screen Gif animations E s' c'.
Proof.
  revert s c. induction frames as [|i rest IH]; intros s c RS H.
  - cbn [run_screen] in H. injection H as <- <-. exact RS.
  - cbn [run_screen] in H.
    destruct (iteration Gif animations E s c i) as [[o c1] shown] eqn:It.
    destruct o as [s1| |]; try discriminate.
    exact (IH s1 c1 (reachable_screen_next Gif animations E s s1 c c1 i
                       shown RS It) H).
Qed.

(** X21. The celebration blocks neither raise nor change the course of the
    game: with the celebration variables threaded through, an execution
    ends or goes on exactly as the game loop alone does. *)
Theorem celebration_never_interferes (frames : list Input) (s : State)
    (c : Celebration) :
  reachable_screen Gif animations E s c ->
  fst (run_screen Gif animations E s c frames) = run E s frames.
Proof.
  revert s c. induction frames as [|i rest IH]; intros s c RS.
  - reflexivity.
  - cbn [run_screen run]. rewrite <- (iteration_outcome s c i RS).
    destruct (iteration Gif animations E s c i) as [[o c1] shown] eqn:It.
    cbn [fst]. destruct o as [s1| |]; try reflexivity.
    exact (IH s1 c1 (reachable_screen_next Gif animations E s s1 c c1 i
                       shown RS It)).
Qed.

(** X22. Until the iteration after the finalization the celebration
    variables keep their initial values: nothing is triggered while the
    match is on, after a restart, or while [game_over] is set but the
    checkpoint has not announced the result yet. *)
Theorem celebration_waits_for_result (s : State) (c : Celebration) :
  reachable_screen Gif animations E s c ->
  game_over s = false \/ clock s <= 26 ->
  c = initial_celebration.
Proof.
  intros RS H. pose proof (reachable_staged Gif animations E s c RS) as St.
  unfold staged in St.
  replace (game_over s && (27 <=? clock s)) with false in St; [exact St|].
  destruct H as [->|H]; [reflexivity|].
  replace (27 <=? clock s) with false by (clear - H; lia).
  now rewrite andb_false_r.
Qed.

(** X23. A picture carries at most one animation frame, and only once the
    match is over and announced; the frame then belongs to the animation of
    the result ([victory] when the player leads, [game_over] when the
    computer leads, none on a tie). *)
Theorem overlay_only_after_result (s : State) (c c' : Celebration)
    (i : Input) (o : Outcome) (shown : Picture Gif) :
  reachable_screen Gif animations E s c ->
  iteration Gif animations E s c i = (o, c', Some shown) ->
  overlays shown = []
  \/ exists g,
       overlays shown = [g]
       /\ In g (final_animation animations s)
       /\ game_over s = true /\ 26 <= clock s.
Proof.
  intros RS H.
  pose proof (reachable_screen_game Gif animations E s c RS) as R.
  apply iteration_shown in H. destruct H as (c1 & s1 & Ce & _ & _).
  destruct (celebrate_staged Gif animations E s c R
              (reachable_staged Gif animations E s c RS))
    as (c2 & frame & Ce' & [(_ & _ & F)|(G & C & j & F & _)]);
    rewrite Ce in Ce'; injection Ce' as _ Fr; rewrite Fr.
  - left. exact F.
  - rewrite F.
    destruct (skipn j (final_animation animations s)) as [|g rest] eqn:Sk.
    + left. reflexivity.
    + right. exists g. cbn [firstn]. repeat split; try assumption.
      apply (in_skipn _ j). rewrite Sk. now left.
Qed.

Lemma play_over (frames : list Input) :
  forall (s : State) (c : Celebration) (j : nat),
    reachable E s -> game_over s = true -> 26 <= clock s ->
    stage animations (result_of s) c j ->
    forallb undisturbed frames = true ->
    List.concat (map overlays (play Gif animations E s c frames))
    = firstn (List.length frames) (skipn j (final_animation animations s))
    /\ List.length (play Gif animations E s c frames) = List.length frames.
Proof.
  induction frames as [|i rest IH]; intros s c j R G C S0 U.
  - split; reflexivity.
  - cbn [forallb] in U. apply andb_true_iff in U. destruct U as [Ui Ur].
    pose proof (reachable_text E s R) as TS. unfold text_settled in TS.
    rewrite G in TS.
    replace (26 <=? clock s) with true in TS by (clear - C; lia).
    cbn [andb] in TS. unfold final_text in TS.
    destruct (celebrate_stage Gif animations (result_of s) c j S0)
      as (c1 & Ce & S1).
    rewrite <- TS in Ce.
    destruct (over_iteration Gif animations E s c c1 i _ R G Ui Ce)
      as (s' & s1 & It & L & C' & M).
    destruct (match_state_result s s' M) as [G' Rs].
    cbn [play]. rewrite It. cbn [map List.concat List.length overlays].
    rewrite <- Rs in S1.
    destruct (IH s' c1 _ (reachable_next E s s' i R L)
                ltac:(congruence) ltac:(clear - C C'; lia) S1 Ur)
      as [IH1 IH2].
    rewrite IH1, IH2. split; [|reflexivity].
    unfold final_animation. rewrite Rs. symmetry. apply firstn_one_more.
Qed.

(** X24. The animation of the result is played once and in order: from the
    iteration after the finalization on, as long as neither [n] nor [q] is
    pressed, every camera frame is shown, and the animation frames laid over
    the successive pictures are the first frames of the animation of the
    result, one per picture until the animation is exhausted and none
    after. *)
Theorem animation_played_once (frames : list Input) (s : State)
    (c : Celebration) :
  reachable_screen Gif animations E s c ->
  game_over s = true -> clock s = 26 ->
  forallb undisturbed frames = true ->
  List.concat (map overlays (play Gif animations E s c frames))
  = firstn (List.length frames) (final_animation animations s)
  /\ List.length (play Gif animations E s c frames) = List.length frames.
Proof.
  intros RS G C U.
  pose proof (reachable_screen_game Gif animations E s c RS) as R.
  pose proof (reachable_staged Gif animations E s c RS) as St.
  unfold staged in St. rewrite G, C in St. cbn in St. subst c.
  apply (play_over frames s initial_celebration 0 R G);
    [clear - C; lia|apply stage_waiting|exact U].
Qed.

End Pictures.

(** ** The further properties at work on concrete matches *)

Lemma reachable_chase : reachable studio (state_after chase).
Proof.
  apply (reachable_state_after chase (state_after chase)).
  vm_compute. reflexivity.
Qed.

Lemma reachable_lost : reachable studio (state_after lost_match).
Proof.
  apply (reachable_state_after lost_match (state_after lost_match)).
  vm_compute. reflexivity.
Qed.

Lemma reachable_capture :
  reachable studio (state_after (frame nobody 0 (ord "s"%char) :: idle 14)).
Proof.
  apply (reachable_state_after _
           (state_after (frame nobody 0 (ord "s"%char) :: idle 14))).
  vm_compute. reflexivity.
Qed.

Lemma reachable_screen_after (frames : list Input) (s : State)
    (c : Celebration) :
  run_screen nat reel studio initial_state initial_celebration frames
  = (Continue s, c) ->
  reachable_screen nat reel studio
    (fst (screen_after frames)) (snd (screen_after frames)).
Proof.
  intros R. unfold screen_after. rewrite R. cbn [fst snd].
  exact (run_screen_reachable nat reel studio frames initial_state s
           initial_celebration c
           (reachable_screen_initial nat reel studio) R).
Qed.

Lemma reachable_screen_won :
  reachable_screen nat reel studio
    (fst (screen_after won_match)) (snd (screen_after won_match)).
Proof.
  apply (reachable_screen_after won_match
           (fst (screen_after won_match)) (snd (screen_after won_match))).
  vm_compute. reflexivity.
Qed.

(** Thumb and two fingers: 6. *)
Lemma get_hand_run_never_five_witness :
  get_hand_run (pose true 2) "Right" = Some 6 /\ In 6 [1; 2; 3; 4; 6].
Proof.
  split; [vm_compute; reflexivity|].
  apply (get_hand_run_never_five (pose true 2) "Right" 6).
  vm_compute. reflexivity.
Defined.

(** Two fingers without the thumb: 2; the thumb alone: 6. *)
Lemma get_hand_run_six_iff_thumb_witness :
  get_hand_run (pose true 0) "Right" = Some 6
  /\ get_hand_run (pose false 2) "Right" = Some 2.
Proof.
  split.
  - apply (get_hand_run_six_iff_thumb (pose true 0) "Right");
      [apply Nat.leb_le|]; vm_compute; reflexivity.
  - destruct (get_hand_run_six_iff_thumb (pose false 2) "Right") as [_ H];
      [apply Nat.leb_le; vm_compute; reflexivity|].
    rewrite H; vm_compute; reflexivity.
Defined.

(** Scenario B at clock 16 of its deciding round. *)
Lemma clock_range_witness :
  0 <= clock (state_after chase) <= 51
  /\ (game_over (state_after chase) = false ->
      clock (state_after chase) <= 26).
Proof.
  exact (clock_range studio (state_after chase) reachable_chase).
Defined.

Lemma batting_follows_innings_witness :
  (innings (state_after chase) = 1 \/ innings (state_after chase) = 2)
  /\ is_player_batting (state_after chase)
     = (innings (state_after chase) =? 1).
Proof.
  exact (batting_follows_innings studio (state_after chase) reachable_chase).
Defined.

(** Scenario B after its finalization. *)
Lemma game_over_iff_out_in_second_witness :
  is_out (state_after lost_match) = true
  /\ innings (state_after lost_match) = 2
  /\ scored_this_round (state_after lost_match) = true.
Proof.
  destruct (game_over_iff_out_in_second studio (state_after lost_match)
              reachable_lost) as [[H _] K].
  destruct (H eq_refl) as [O I]. destruct (K eq_refl) as (_ & S & _).
  split; [exact O|]. split; [exact I|exact S].
Defined.

Lemma scores_and_target_witness :
  0 <= player_score (state_after chase)
  /\ 0 <= computer_score (state_after chase)
  /\ target (state_after chase) = Some (player_score (state_after chase)).
Proof.
  destruct (scores_and_target studio (state_after chase) reachable_chase)
    as (P & C & _ & T).
  split; [exact P|]. split; [exact C|]. apply T. reflexivity.
Defined.

Lemma computer_leads_only_at_the_end_witness :
  player_score (state_after lost_match)
  < computer_score (state_after lost_match)
  /\ game_over (state_after lost_match) = true
  /\ innings (state_after lost_match) = 2.
Proof.
  split; [reflexivity|].
  apply (computer_leads_only_at_the_end studio (state_after lost_match)
           reachable_lost).
  reflexivity.
Defined.

Lemma moves_never_five_witness :
  (player_move (state_after chase) = None
   /\ computer_move (state_after chase) = None)
  \/ (exists p c,
        player_move (state_after chase) = Some p
        /\ computer_move (state_after chase) = Some c
        /\ In p [1; 2; 3; 4; 6] /\ In c [1; 2; 3; 4; 6]).
Proof.
  exact (moves_never_five studio (state_after chase) reachable_chase).
Defined.

(** Thirty more frames after the finalization of scenario B. *)
Lemma game_over_is_final_witness :
  exists s',
    run studio (state_after lost_match) (idle 30) = Continue s'
    /\ match_state s' = match_state (state_after lost_match)
    /\ round_state s' = round_state (state_after lost_match)
    /\ clock s' = 51.
Proof.
  destruct (game_over_is_final studio (idle 30) (state_after lost_match)
              reachable_lost)
    as (s' & R & M & Rd & C); [reflexivity|reflexivity|].
  exists s'. split; [exact R|]. split; [exact M|]. split; [exact Rd|].
  rewrite C. vm_compute. reflexivity.
Defined.


(** The [s] key on the first frame. *)
Lemma start_from_idle_witness :
  exists s' a,
    loop_body studio initial_state (frame nobody 0 (ord "s"%char))
    = Continue s'
    /\ s' = set_audio a
              (set_clock 1
                 (set_game_started true (set_gametext "" initial_state)))
    /\ starts_round s' = false.
Proof.
  apply (start_from_idle studio initial_state (frame nobody 0 (ord "s"%char))
           (reachable_initial studio));
    reflexivity.
Defined.

(** The [s] key and no key in the middle of scenario B. *)
Lemma keys_ignored_while_running_witness :
  loop_body studio (state_after chase) (with_key (ord "s"%char) quiet_frame)
  = loop_body studio (state_after chase) (with_key (-1) quiet_frame).
Proof.
  apply (keys_ignored_while_running studio (state_after chase) quiet_frame
           (ord "s"%char) (-1));
    [reflexivity|vm_compute; discriminate ..].
Defined.

(** A pose without handedness at the first capture of a match. *)
Lemma raises_only_on_malformed_capture_witness :
  loop_body studio (state_after (frame nobody 0 (ord "s"%char) :: idle 14))
    (frame headless 0 (-1))
  = Raised.
Proof.
  apply (raises_only_on_malformed_capture studio
           (state_after (frame nobody 0 (ord "s"%char) :: idle 14))
           (frame headless 0 (-1)) reachable_capture).
  repeat split.
Defined.

Lemma round_timer_witness :
  clock (state_after (chase ++ [quiet_frame]))
  = next_clock (state_after chase).
Proof.
  apply (round_timer studio (state_after chase)
           (state_after (chase ++ [quiet_frame])) quiet_frame reachable_chase);
    vm_compute; reflexivity.
Defined.

(** The eleven frames that remain of the deciding round of scenario B. *)
Lemma round_ends_witness :
  exists s',
    run studio (state_after chase) (idle 11) = Continue s'
    /\ (game_over s' = true \/ (game_over s' = false /\ clock s' = 0)).
Proof.
  apply (round_ends studio (idle 11) (state_after chase) reachable_chase);
    reflexivity.
Defined.

(** The iteration that opens the second round of a match. *)
Lemma round_counter_witness :
  round_num
    (state_after (opening (shows true 0) 1 ++ rest_of_round ++ [quiet_frame]))
  = round_num (state_after (opening (shows true 0) 1 ++ rest_of_round)) + 1.
Proof.
  rewrite (round_counter studio
             (state_after (opening (shows true 0) 1 ++ rest_of_round))
             (state_after
                (opening (shows true 0) 1 ++ rest_of_round ++ [quiet_frame]))
             quiet_frame);
    vm_compute; reflexivity.
Defined.

Lemma only_loaded_sounds_witness :
  forallb (permitted studio) (mixer (audio (state_after lost_match))) = true.
Proof.
  exact (only_loaded_sounds studio (state_after lost_match) reachable_lost).
Defined.

(** The picture of the finalization of scenario B. *)
Lemma restart_prompt_iff_game_over_witness :
  exists s1,
    tick studio (state_after (chase ++ idle 9)) quiet_frame = Some s1
    /\ In (InstructionBar, restart_prompt) (screen_text s1).
Proof.
  destruct (tick studio (state_after (chase ++ idle 9)) quiet_frame)
    as [s1|] eqn:T; [|vm_compute in T; discriminate T].
  destruct (restart_prompt_iff_game_over studio
              (state_after (chase ++ idle 9)) s1 quiet_frame) as [[_ H] _].
  - apply (reachable_state_after _ (state_after (chase ++ idle 9))).
    vm_compute. reflexivity.
  - exact T.
  - exists s1. split; [reflexivity|]. apply H.
    vm_compute in T. injection T as <-. reflexivity.
Defined.

(** A picture of the second innings of scenario B, at the tick that decides
    it: the target is 9 and the score line stands at (50, 400). *)
Lemma target_line_witness :
  exists s1,
    tick studio (state_after chase) quiet_frame = Some s1
    /\ In (At 50 250, "Target: 9") (screen_text s1)
    /\ In (At 50 400, "You: 8 | Computer: 9") (screen_text s1).
Proof.
  destruct (tick studio (state_after chase) quiet_frame)
    as [s1|] eqn:T; [|vm_compute in T; discriminate T].
  destruct (target_line studio (state_after chase) s1 quiet_frame
              reachable_chase T) as [H _].
  exists s1. split; [reflexivity|].
  vm_compute in T. injection T as <-.
  rewrite (H eq_refl). vm_compute. auto 10.
Defined.

(** Scenario B and forty frames more, with and without the celebration. *)
Lemma celebration_never_interferes_witness :
  fst (run_screen nat reel studio initial_state initial_celebration
         (chase ++ idle 40))
  = run studio initial_state (chase ++ idle 40).
Proof.
  exact (celebration_never_interferes nat reel studio (chase ++ idle 40)
           initial_state initial_celebration
           (reachable_screen_initial nat reel studio)).
Defined.

(** Right after the finalization of a won match nothing has been triggered
    yet. *)
Lemma celebration_waits_for_result_witness :
  snd (screen_after won_match) = initial_celebration.
Proof.
  apply (celebration_waits_for_result nat reel studio
           (fst (screen_after won_match)) (snd (screen_after won_match))
           reachable_screen_won).
  right. vm_compute. discriminate.
Defined.

(** The first picture after the finalization of a won match carries the
    first frame of the victory animation. *)
Lemma overlay_only_after_result_witness :
  exists o c' shown,
    iteration nat reel studio
      (fst (screen_after won_match)) (snd (screen_after won_match))
      quiet_frame
    = (o, c', Some shown)
    /\ (overlays shown = []
        \/ exists g,
             overlays shown = [g]
             /\ In g (final_animation reel (fst (screen_after won_match)))
             /\ game_over (fst (screen_after won_match)) = true
             /\ 26 <= clock (fst (screen_after won_match))).
Proof.
  destruct (iteration nat reel studio
              (fst (screen_after won_match)) (snd (screen_after won_match))
              quiet_frame) as [[o c'] [shown|]] eqn:It;
    [|vm_compute in It; discriminate It].
  exists o, c', shown. split; [reflexivity|].
  exact (overlay_only_after_result nat reel studio
           (fst (screen_after won_match)) (snd (screen_after won_match))
           c' quiet_frame o shown reachable_screen_won It).
Defined.

(** Six pictures after the finalization of a won match: the three frames of
    the victory animation, then nothing. *)
Lemma animation_played_once_witness :
  List.concat
    (map overlays
       (play nat reel studio
          (fst (screen_after won_match)) (snd (screen_after won_match))
          (idle 6)))
  = [0; 1; 2]%nat
  /\ List.length
       (play nat reel studio
          (fst (screen_after won_match)) (snd (screen_after won_match))
          (idle 6))
     = 6%nat.
Proof.
  destruct (animation_played_once nat reel studio (idle 6)
              (fst (screen_after won_match)) (snd (screen_after won_match))
              reachable_screen_won) as [H L];
    [reflexivity|reflexivity|reflexivity|].
  split; [rewrite H; reflexivity|exact L].
Defined.
